(** * Trigger coordination of the camera card: [TriggersManager]

    A shallow embedding of [src/card-controller/triggers-manager.ts]
    together with the parts of its collaborators that it calls, and the
    properties of the trigger state machine proved over it.

    The manager runs on the JavaScript event loop.  Every public
    operation (an incoming camera event, the start-up reconciliation, the
    expiry of a timeout) is modelled as one transition of a
    [World]: the store of per-camera trigger states, the pending
    timeouts, the state of the throttled dispatcher, the clock and the
    trace of calls made to the collaborators.  Calls to the view manager
    may throw; a thrown exception aborts the operation and leaves the
    world as it was at the moment of the throw.

    The methods of the manager are [async], and their callers do not
    wait for them.  A transition of [step] is an operation run to its
    end with no other operation between its [await]s.  The store is
    changed after an [await] in [_untriggerAction], which deletes the
    state once the navigation it awaits is done, and in the loop of
    [handleInitialCameraTriggers], which goes on to the next trigger
    entity; [reachableOverlapping] has the operations that overlap at
    the first of the two. *)

From Stdlib Require Import QArith Qminmax Lqa Ascii.
From stdpp Require Import gmap strings list fin_maps.

Open Scope string_scope.
Open Scope list_scope.
Open Scope nat_scope.

(** * The model *)

(** ** Data model *)

(** [CameraEvent] of [src/camera-manager/types.ts]. *)
Inductive EventType := EvNew | EvUpdate | EvEnd.
Inductive Fidelity := high | low.

Record CameraEvent := mkCameraEvent {
  cameraID : string;
  id : string;
  type : EventType;
  fidelity : option Fidelity;
  clip : option bool;
  snapshot : option bool;
}.

#[global] Instance EventType_eq_dec : EqDecision EventType.
Proof. solve_decision. Defined.
#[global] Instance Fidelity_eq_dec : EqDecision Fidelity.
Proof. solve_decision. Defined.
#[global] Instance CameraEvent_eq_dec : EqDecision CameraEvent.
Proof. solve_decision. Defined.

(** The trigger options read from the card configuration
    ([config.view.triggers] and [config.view.default]). *)
Inductive TriggerAction := TriggerNone | TriggerUpdate | TriggerLive | TriggerDefault | TriggerMedia.
Inductive UntriggerAction := UntriggerNone | UntriggerDefault.
Inductive InteractionMode := ModeAll | ModeActive | ModeInactive.

Record TriggersActions := mkActions {
  trigger : TriggerAction;
  untrigger : UntriggerAction;
  interaction_mode : InteractionMode;
}.

Record TriggersOptions := mkTriggers {
  untrigger_seconds : Q;
  filter_selected_camera : bool;
  actions : TriggersActions;
}.

Record ViewConfig := mkView {
  view_default : string;
  triggers : TriggersOptions;
}.

Record CardConfig := mkConfig { view : ViewConfig }.

#[global] Instance TriggerAction_eq_dec : EqDecision TriggerAction.
Proof. solve_decision. Defined.
#[global] Instance UntriggerAction_eq_dec : EqDecision UntriggerAction.
Proof. solve_decision. Defined.
#[global] Instance InteractionMode_eq_dec : EqDecision InteractionMode.
Proof. solve_decision. Defined.

(** JavaScript truthiness of an optional string and of an optional
    boolean ([!selectedCameraID], [!ev.clip]). *)
Definition truthy_string (s : option string) : bool :=
  match s with
  | Some s => negb (bool_decide (s = ""))
  | None => false
  end.

Definition truthy_bool (b : option bool) : bool :=
  match b with
  | Some b => b
  | None => false
  end.

(** Calls made to the collaborators, in the order they are made.  The
    entries [TriggerActionCall] and [ThrottledTriggerActionCall] record
    an invocation of [_triggerAction] by the throttle and a call of
    the throttled wrapper [_throttledTriggerAction];
    [HasInteraction] records the read of the interaction state by the
    action gate. *)
Inductive Call :=
  | SetViewByParametersUpdate
  | SetViewByParameters (viewName : string) (camera : string)
  | SetViewDefault (camera : option string)
  | ConditionSetState (triggered : option (gset string))
  | CardElementUpdate
  | HasInteraction
  | TriggerActionCall (ev : CameraEvent)
  | ThrottledTriggerActionCall (ev : CameraEvent).

Definition isViewManagerCall (c : Call) : bool :=
  match c with
  | SetViewByParametersUpdate | SetViewByParameters _ _ | SetViewDefault _ => true
  | _ => false
  end.

Definition isTriggerActionCall (c : Call) : option CameraEvent :=
  match c with
  | TriggerActionCall ev => Some ev
  | _ => None
  end.

Definition isThrottledCall (c : Call) : option CameraEvent :=
  match c with
  | ThrottledTriggerActionCall ev => Some ev
  | _ => None
  end.

(** The window-scheduled callbacks of the event loop ([setTimeout]). *)
Inductive Callback :=
  | CbUntrigger (cameraID : string)
  | CbThrottle.

Record Timeout := mkTimeout {
  handle : nat;
  due : Q;
  callback : Callback;
}.

(** Modelled from the spec: [Timer] of [src/utils/timer.ts], which is not
    part of the sources at hand: "a cancellable single-shot
    delayed-callback primitive; given a duration and a callback, fires
    the callback once after the duration elapses unless stopped first".
    A started timer is the handle of its timeout. *)
Record Timer := mkTimer { timeoutHandle : nat }.

Record CameraTriggerState := mkState {
  lastTriggerTime : Q;
  sources : gset string;
  untriggerDelayTimer : option Timer;
}.

(** State of the function returned by lodash's [debounce], on which
    [throttle] is built: the closure variables [lastArgs],
    [lastCallTime], [lastInvokeTime], [timerId] and [result].  [result]
    is the promise returned by the last invocation of the wrapped
    function: [Some true] when fulfilled, [Some false] when rejected,
    [None] while the function has never been invoked. *)
Record Debounced := mkDebounced {
  lastArgs : option CameraEvent;
  lastCallTime : option Q;
  lastInvokeTime : Q;
  timerId : option nat;
  result : option bool;
}.

(** The world: clock (milliseconds), store [_states], event loop,
    throttled dispatcher and trace. *)
Record World := mkWorld {
  now : Q;
  states : gmap string CameraTriggerState;
  timeouts : list Timeout;
  nextHandle : nat;
  throttled : Debounced;
  calls : list Call;
}.

Definition initialDebounced : Debounced :=
  {| lastArgs := None; lastCallTime := None; lastInvokeTime := 0;
     timerId := None; result := None |}.

Definition initialWorld (t : Q) : World :=
  {| now := t; states := ∅; timeouts := []; nextHandle := 0;
     throttled := initialDebounced; calls := [] |}.

(** The collaborators behind [CardTriggersAPI], read afresh by every
    operation.  [viewManagerThrows] says which calls of the view manager
    throw. *)
Record Env := mkEnv {
  config : option CardConfig;
  selectedCamera : option string;
  dependentCameras : string → gset string;
  hasInteraction : bool;
  hass : option (gmap string string);
  cameras : list (string * list string);
  viewManagerThrows : Call → bool;
}.

(** ** The monad of operations: state and exceptions *)

Inductive Completion (A : Type) :=
  | Returned (a : A)
  | Thrown.
Arguments Returned {A} a.
Arguments Thrown {A}.

Definition M (A : Type) : Type := World → Completion A * World.

#[global] Instance M_ret : MRet M := λ A a w, (Returned a, w).
#[global] Instance M_bind : MBind M := λ A B f m w,
  match m w with
  | (Returned a, w') => f a w'
  | (Thrown, w') => (Thrown, w')
  end.

Definition get : M World := λ w, (Returned w, w).
Definition modify (f : World → World) : M unit := λ w, (Returned tt, f w).
Definition throw {A} : M A := λ w, (Thrown, w).

Definition setStates (f : gmap string CameraTriggerState → gmap string CameraTriggerState)
    (w : World) : World :=
  {| now := now w; states := f (states w); timeouts := timeouts w;
     nextHandle := nextHandle w; throttled := throttled w; calls := calls w |}.

Definition setTimeouts (f : list Timeout → list Timeout) (w : World) : World :=
  {| now := now w; states := states w; timeouts := f (timeouts w);
     nextHandle := nextHandle w; throttled := throttled w; calls := calls w |}.

Definition setThrottled (f : Debounced → Debounced) (w : World) : World :=
  {| now := now w; states := states w; timeouts := timeouts w;
     nextHandle := nextHandle w; throttled := f (throttled w); calls := calls w |}.

Definition setNow (t : Q) (w : World) : World :=
  {| now := t; states := states w; timeouts := timeouts w;
     nextHandle := nextHandle w; throttled := throttled w; calls := calls w |}.

Definition record (c : Call) (w : World) : World :=
  {| now := now w; states := states w; timeouts := timeouts w;
     nextHandle := nextHandle w; throttled := throttled w; calls := calls w ++ [c] |}.

(** A call to a collaborator that cannot fail in the model. *)
Definition call (c : Call) : M unit := modify (record c).

(** ** The event loop *)

Definition setTimeout (cb : Callback) (delay : Q) : M nat := λ w,
  let h := nextHandle w in
  (Returned h,
   {| now := now w; states := states w;
      timeouts := timeouts w ++ [mkTimeout h (now w + delay) cb];
      nextHandle := S h; throttled := throttled w; calls := calls w |}).

Definition clearTimeout (h : nat) : M unit :=
  modify (setTimeouts (filter (λ t, handle t ≠ h))).

Definition pending (h : nat) (w : World) : Prop :=
  ∃ t, t ∈ timeouts w ∧ handle t = h.

(** [Timer.start] and [Timer.stop]. *)
Definition Timer_start (seconds : Q) (cb : Callback) : M Timer :=
  h ← setTimeout cb (seconds * 1000); mret (mkTimer h).

Definition Timer_stop (t : Timer) : M unit := clearTimeout (timeoutHandle t).

(** Runs [m] and hands its completion to the caller instead of
    propagating it: what a caller sees of an [async] function that it
    does not await. *)
Definition settle {A} (m : M A) : M (Completion A) := λ w,
  let '(c, w') := m w in (Returned c, w').

(** [await p] for the promise of a settled call. *)
Definition await (p : option bool) : M unit :=
  match p with
  | Some false => throw
  | _ => mret tt
  end.

Fixpoint forEach {A S : Type} (l : list A) (f : A → S → M S) (s : S) : M S :=
  match l with
  | [] => mret s
  | x :: l' => s' ← f x s; forEach l' f s'
  end.

Definition Qlt_bool (x y : Q) : bool := negb (Qle_bool y x).

(** ** lodash's [throttle] and [debounce]

    [throttle] comes from the package lodash-es, which the manager
    imports.  The definitions below follow lodash's implementation of
    [throttle] on top of [debounce], function by function. *)
Module Lodash.

(** The [options] object given to [throttle]; an absent key is [None]. *)
Record ThrottleOptions := mkThrottleOptions {
  opt_leading : option bool;
  opt_trailing : option bool;
}.

(** The settings [debounce] keeps in its closure. *)
Record Settings := mkSettings {
  wait : Q;
  leading : bool;
  maxWait : option Q;
  trailing : bool;
}.

(** [throttle(func, wait, options)]: [leading] and [trailing] both
    default to true, and [maxWait] is [wait]. *)
Definition throttle (wait : Q) (options : ThrottleOptions) : Settings :=
  {| wait := wait;
     leading := default true (opt_leading options);
     maxWait := Some (Qmax wait wait);
     trailing := default true (opt_trailing options) |}.

Section Debounce.
Variable func : CameraEvent → M unit.
Variable settings : Settings.

Definition setLastArgs (a : option CameraEvent) (d : Debounced) : Debounced :=
  {| lastArgs := a; lastCallTime := lastCallTime d;
     lastInvokeTime := lastInvokeTime d; timerId := timerId d;
     result := result d |}.
Definition setLastCallTime (t : Q) (d : Debounced) : Debounced :=
  {| lastArgs := lastArgs d; lastCallTime := Some t;
     lastInvokeTime := lastInvokeTime d; timerId := timerId d;
     result := result d |}.
Definition setLastInvokeTime (t : Q) (d : Debounced) : Debounced :=
  {| lastArgs := lastArgs d; lastCallTime := lastCallTime d;
     lastInvokeTime := t; timerId := timerId d; result := result d |}.
Definition setTimerId (h : option nat) (d : Debounced) : Debounced :=
  {| lastArgs := lastArgs d; lastCallTime := lastCallTime d;
     lastInvokeTime := lastInvokeTime d; timerId := h; result := result d |}.
Definition setResult (r : option bool) (d : Debounced) : Debounced :=
  {| lastArgs := lastArgs d; lastCallTime := lastCallTime d;
     lastInvokeTime := lastInvokeTime d; timerId := timerId d; result := r |}.

(** [invokeFunc(time)]: the wrapped function is applied to the last
    arguments; the promise it returns becomes [result].  Applied
    without arguments the wrapped function rejects. *)
Definition invokeFunc (time : Q) : M (option bool) :=
  w ← get;
  let args := lastArgs (throttled w) in
  modify (setThrottled (setLastArgs None));;
  modify (setThrottled (setLastInvokeTime time));;
  c ← match args with
      | Some ev => call (TriggerActionCall ev);; settle (func ev)
      | None => mret Thrown
      end;
  let r := Some (match c with Returned _ => true | Thrown => false end) in
  modify (setThrottled (setResult r));;
  mret r.

(** [leadingEdge(time)] *)
Definition leadingEdge (time : Q) : M (option bool) :=
  modify (setThrottled (setLastInvokeTime time));;
  h ← setTimeout CbThrottle (wait settings);
  modify (setThrottled (setTimerId (Some h)));;
  if leading settings then invokeFunc time
  else w ← get; mret (result (throttled w)).

(** [remainingWait(time)], reached only once a call was made. *)
Definition remainingWait (time : Q) (d : Debounced) : Q :=
  let timeSinceLastCall := (time - default 0 (lastCallTime d))%Q in
  let timeSinceLastInvoke := (time - lastInvokeTime d)%Q in
  let timeWaiting := (wait settings - timeSinceLastCall)%Q in
  match maxWait settings with
  | Some maxWait => Qmin timeWaiting (maxWait - timeSinceLastInvoke)
  | None => timeWaiting
  end.

(** [shouldInvoke(time)] *)
Definition shouldInvoke (time : Q) (d : Debounced) : bool :=
  match lastCallTime d with
  | None => true
  | Some lastCallTime =>
      let timeSinceLastCall := (time - lastCallTime)%Q in
      let timeSinceLastInvoke := (time - lastInvokeTime d)%Q in
      Qle_bool (wait settings) timeSinceLastCall
      || Qlt_bool timeSinceLastCall 0
      || match maxWait settings with
         | Some maxWait => Qle_bool maxWait timeSinceLastInvoke
         | None => false
         end
  end.

(** [trailingEdge(time)] *)
Definition trailingEdge (time : Q) : M (option bool) :=
  modify (setThrottled (setTimerId None));;
  w ← get;
  if trailing settings && bool_decide (is_Some (lastArgs (throttled w)))
  then invokeFunc time
  else
    modify (setThrottled (setLastArgs None));;
    mret (result (throttled w)).

(** [timerExpired()], the callback of the timeout. *)
Definition timerExpired : M unit :=
  w ← get;
  let time := now w in
  if shouldInvoke time (throttled w) then
    trailingEdge time;; mret tt
  else
    h ← setTimeout CbThrottle (remainingWait time (throttled w));
    modify (setThrottled (setTimerId (Some h))).

(** [debounced(...args)], the function [debounce] returns. *)
Definition debounced (ev : CameraEvent) : M (option bool) :=
  w ← get;
  let time := now w in
  let isInvoking := shouldInvoke time (throttled w) in
  modify (setThrottled (setLastArgs (Some ev)));;
  modify (setThrottled (setLastCallTime time));;
  w ← get;
  match isInvoking, timerId (throttled w), maxWait settings with
  | true, None, _ => leadingEdge time
  | true, Some h, Some _ =>
      clearTimeout h;;
      h' ← setTimeout CbThrottle (wait settings);
      modify (setThrottled (setTimerId (Some h')));;
      invokeFunc time
  | _, None, _ =>
      h ← setTimeout CbThrottle (wait settings);
      modify (setThrottled (setTimerId (Some h)));;
      w ← get; mret (result (throttled w))
  | _, Some _, _ => mret (result (throttled w))
  end.
End Debounce.
End Lodash.

(** ** The manager *)

Definition clearTimer (state : CameraTriggerState) : CameraTriggerState :=
  {| lastTriggerTime := lastTriggerTime state; sources := sources state;
     untriggerDelayTimer := None |}.

Definition setTimer (timer : Timer) (state : CameraTriggerState) : CameraTriggerState :=
  {| lastTriggerTime := lastTriggerTime state; sources := sources state;
     untriggerDelayTimer := Some timer |}.

Definition deleteSource (source : string) (state : CameraTriggerState) : CameraTriggerState :=
  {| lastTriggerTime := lastTriggerTime state;
     sources := sources state ∖ {[source]};
     untriggerDelayTimer := untriggerDelayTimer state |}.

Definition addSource (source : string) (state : CameraTriggerState) : CameraTriggerState :=
  {| lastTriggerTime := lastTriggerTime state;
     sources := {[source]} ∪ sources state;
     untriggerDelayTimer := untriggerDelayTimer state |}.

Definition setLastTriggerTime (t : Q) (state : CameraTriggerState) : CameraTriggerState :=
  {| lastTriggerTime := t; sources := sources state;
     untriggerDelayTimer := untriggerDelayTimer state |}.

(** [_isStateTriggered] *)
Definition _isStateTriggered (state : CameraTriggerState) : bool :=
  negb (size (sources state) =? 0)%nat
  || bool_decide (is_Some (untriggerDelayTimer state)).

(** [getTriggeredCameraIDs] *)
Definition getTriggeredCameraIDs (w : World) : gset string :=
  dom (filter (λ kv, _isStateTriggered kv.2 = true) (states w)).

(** [isTriggered] *)
Definition isTriggered (w : World) : bool :=
  existsb _isStateTriggered (snd <$> map_to_list (states w)).

(** The throttle window and the options of [_throttledTriggerAction]:
    [throttle(this._triggerAction.bind(this), 1000, { trailing: true })]. *)
Definition throttleWait : Q := 1000.
Definition throttleOptions : Lodash.ThrottleOptions :=
  {| Lodash.opt_leading := None; Lodash.opt_trailing := Some true |}.
Definition throttleSettings : Lodash.Settings :=
  Lodash.throttle throttleWait throttleOptions.

Section TriggersManager.

(** [isTriggeredState] of [src/ha/is-triggered-state.ts], applied to
    [hass?.states[entityID]?.state]; the file is not part of the sources
    at hand and the function is taken as a parameter. *)
Variable isTriggeredState : option string → bool.

(** [this._api] *)
Variable api : Env.

(** A call of the view manager: recorded, and thrown when the view
    manager fails on it. *)
Definition viewManagerCall (c : Call) : M unit := λ w,
  if viewManagerThrows api c then (Thrown, record c w)
  else (Returned tt, record c w).

(** [config?.view?.triggers] *)
Definition triggersConfig : option TriggersOptions :=
  (λ c, triggers (view c)) <$> config api.

(** [_deleteUntriggerDelayTimer] *)
Definition _deleteUntriggerDelayTimer (cameraID : string) : M unit :=
  w ← get;
  match states w !! cameraID with
  | Some state =>
      match untriggerDelayTimer state with
      | Some timer =>
          Timer_stop timer;;
          modify (setStates (alter clearTimer cameraID))
      | None => mret tt
      end
  | None => mret tt
  end.

(** [_setConditionStateIfNecessary] *)
Definition _setConditionStateIfNecessary : M unit :=
  w ← get;
  let triggeredCameraIDs := getTriggeredCameraIDs w in
  call (ConditionSetState
          (if (size triggeredCameraIDs =? 0)%nat then None
           else Some triggeredCameraIDs)).

(** [_hasAllowableInteractionStateForAction] *)
Definition _hasAllowableInteractionStateForAction : M bool :=
  call HasInteraction;;
  let hasInteraction := hasInteraction api in
  mret (match triggersConfig with
        | None => false
        | Some triggersConfig =>
            let mode := interaction_mode (actions triggersConfig) in
            bool_decide (mode = ModeAll)
            || (bool_decide (mode = ModeActive) && hasInteraction)
            || (bool_decide (mode = ModeInactive) && negb hasInteraction)
        end).

(** [config?.view?.triggers.actions.trigger] and
    [config?.view?.default], the constants [triggerAction] and
    [defaultView] of [_triggerAction]. *)
Definition triggerAction : option TriggerAction :=
  (λ t, trigger (actions t)) <$> triggersConfig.
Definition defaultView : option string :=
  (λ c, view_default (view c)) <$> config api.

(** [_triggerAction] *)
Definition _triggerAction (ev : CameraEvent) : M unit :=
  if bool_decide (fidelity ev = Some high)
     && negb (truthy_bool (snapshot ev))
     && negb (truthy_bool (clip ev))
     && negb (bool_decide (triggerAction = Some TriggerLive)
              || (bool_decide (triggerAction = Some TriggerDefault)
                  && bool_decide (defaultView = Some "live")))
  then mret tt
  else
    allowed ← _hasAllowableInteractionStateForAction;
    (if allowed : bool then
       match triggerAction with
       | Some TriggerUpdate => viewManagerCall SetViewByParametersUpdate
       | Some TriggerLive =>
           viewManagerCall (SetViewByParameters "live" (cameraID ev))
       | Some TriggerDefault =>
           viewManagerCall (SetViewDefault (Some (cameraID ev)))
       | Some TriggerMedia =>
           if bool_decide (fidelity ev = Some high) then
             viewManagerCall
               (SetViewByParameters
                  (if truthy_bool (clip ev) then "clip" else "snapshot")
                  (cameraID ev))
           else mret tt
       | _ => mret tt
       end
     else mret tt);;
    call CardElementUpdate.

(** [_throttledTriggerAction], awaited by its callers. *)
Definition _throttledTriggerAction (ev : CameraEvent) : M unit :=
  call (ThrottledTriggerActionCall ev);;
  promise ← Lodash.debounced _triggerAction throttleSettings ev;
  await promise.

(** [_executeUntriggerAction] *)
Definition _executeUntriggerAction : M bool :=
  let action := (λ t, untrigger (actions t)) <$> triggersConfig in
  match action with
  | None | Some UntriggerNone => mret true
  | Some UntriggerDefault =>
      allowed ← _hasAllowableInteractionStateForAction;
      (if allowed : bool then viewManagerCall (SetViewDefault None) else mret tt);;
      mret true
  end.

(** [_untriggerAction], run to its end: nothing happens between its
    [await] and the deletion of the state.  Its two halves are
    [_untriggerAction_begin] and [_untriggerAction_resume] below. *)
Definition _untriggerAction (cameraID : string) : M unit :=
  _deleteUntriggerDelayTimer cameraID;;
  _executeUntriggerAction;;
  modify (setStates (delete cameraID));;
  _setConditionStateIfNecessary;;
  call CardElementUpdate.

(** [_startUntrigger] *)
Definition _startUntrigger (cameraID : string) : M unit :=
  _deleteUntriggerDelayTimer cameraID;;
  w ← get;
  match states w !! cameraID with
  | None => mret tt
  | Some _ =>
      let untriggerSeconds := default 0%Q (untrigger_seconds <$> triggersConfig) in
      if Qlt_bool 0 untriggerSeconds then
        timer ← Timer_start untriggerSeconds (CbUntrigger cameraID);
        modify (setStates (alter (setTimer timer) cameraID))
      else _untriggerAction cameraID
  end.

(** [handleCameraEvent] *)
Definition handleCameraEvent (ev : CameraEvent) (skipAction : bool) : M bool :=
  if decide (type ev = EvEnd) then
    modify (setStates (alter (deleteSource (id ev)) (cameraID ev)));;
    w ← get;
    (match states w !! cameraID ev with
     | Some state =>
         if (size (sources state) =? 0)%nat then _startUntrigger (cameraID ev)
         else mret tt
     | None => _startUntrigger (cameraID ev)
     end);;
    mret true
  else
    match triggersConfig with
    | None => mret false
    | Some triggersConfig =>
        if negb (truthy_string (selectedCamera api)) then mret false
        else
          let dependentCameraIDs :=
            dependentCameras api (default "" (selectedCamera api)) in
          if filter_selected_camera triggersConfig
             && negb (bool_decide (cameraID ev ∈ dependentCameraIDs))
          then mret false
          else
            w ← get;
            modify (setStates (λ states,
              match states !! cameraID ev with
              | None => <[cameraID ev := mkState (now w) ∅ None]> states
              | Some _ => alter (setLastTriggerTime (now w)) (cameraID ev) states
              end));;
            modify (setStates (alter (addSource (id ev)) (cameraID ev)));;
            _deleteUntriggerDelayTimer (cameraID ev);;
            _setConditionStateIfNecessary;;
            (if negb skipAction then _throttledTriggerAction ev else mret tt);;
            mret true
    end.

(** The body of the inner loop of [handleInitialCameraTriggers], on the
    loop variables [triggered] and [startupActionEvent]. *)
Definition inspectEntity (cameraID entityID : string)
    (vars : bool * option CameraEvent) : M (bool * option CameraEvent) :=
  let '(triggered, startupActionEvent) := vars in
  if isTriggeredState (hass api ≫= (.!! entityID)) then
    let event := mkCameraEvent cameraID entityID EvNew None None None in
    accepted ← handleCameraEvent event true;
    mret (true, if accepted : bool
                then Some (default event startupActionEvent)
                else startupActionEvent)
  else mret (triggered, startupActionEvent).

(** [handleInitialCameraTriggers] *)
Definition handleInitialCameraTriggers : M bool :=
  '(triggered, startupActionEvent) ←
    forEach (cameras api)
      (λ '(cameraID, entities), forEach entities (inspectEntity cameraID))
      (false, None);
  match startupActionEvent with
  | Some ev => _throttledTriggerAction ev
  | None => mret tt
  end;;
  mret triggered.

(** ** The event loop's transitions *)

Definition runCallback (cb : Callback) : M unit :=
  match cb with
  | CbUntrigger cameraID => _untriggerAction cameraID
  | CbThrottle => Lodash.timerExpired _triggerAction throttleSettings
  end.

(** The timeout with handle [h] expires: it leaves the event loop and
    its callback runs.  A timeout that is not pending, or not yet due,
    does not expire. *)
Definition fireTimeout (h : nat) : M unit :=
  w ← get;
  match List.find (λ t, bool_decide (handle t = h)) (timeouts w) with
  | Some t =>
      if Qle_bool (due t) (now w) then
        clearTimeout h;; runCallback (callback t)
      else mret tt
  | None => mret tt
  end.

(** Time passes; the clock never goes back. *)
Definition advance (t : Q) : M unit :=
  w ← get;
  if Qle_bool (now w) t then modify (setNow t) else mret tt.

End TriggersManager.

(** ** Operations and reachable worlds *)

(** The public operations, as labels of the transitions of the world. *)
Inductive Op :=
  | OpCameraEvent (ev : CameraEvent) (skipAction : bool)
  | OpInitialCameraTriggers
  | OpTimeout (h : nat)
  | OpAdvance (t : Q).

Definition perform (isTriggeredState : option string → bool) (api : Env)
    (op : Op) : M unit :=
  match op with
  | OpCameraEvent ev skipAction => handleCameraEvent api ev skipAction;; mret tt
  | OpInitialCameraTriggers =>
      handleInitialCameraTriggers isTriggeredState api;; mret tt
  | OpTimeout h => fireTimeout api h
  | OpAdvance t => advance t
  end.

Definition step (isTriggeredState : option string → bool) (api : Env)
    (op : Op) (w : World) : World :=
  (perform isTriggeredState api op w).2.

(** Worlds reached from a fresh manager through operations that each run
    to their end before the next one starts; the collaborators may answer
    differently at every operation. *)
Inductive reachable (isTriggeredState : option string → bool) : World → Prop :=
  | reachable_initial t : reachable isTriggeredState (initialWorld t)
  | reachable_step api op w :
      reachable isTriggeredState w →
      reachable isTriggeredState (step isTriggeredState api op w).


(** The filter of [handleCameraEvent] on a [new] or [update] event of
    camera [cameraID], read off its three early returns. *)
Definition accepts (api : Env) (cameraID : string) : bool :=
  match triggersConfig api with
  | None => false
  | Some triggersConfig =>
      truthy_string (selectedCamera api)
      && negb (filter_selected_camera triggersConfig
               && negb (bool_decide
                          (cameraID ∈ dependentCameras api (default "" (selectedCamera api)))))
  end.

(** The action gate as the specification words it (section 4.4): a
    function of the interaction mode and the interaction state only. *)
Definition isActionAllowed (interactionMode : InteractionMode)
    (hasActiveInteraction : bool) : bool :=
  match interactionMode with
  | ModeAll => true
  | ModeActive => hasActiveInteraction
  | ModeInactive => negb hasActiveInteraction
  end.

(** The view-manager calls of a trace. *)
Definition viewManagerCalls (w : World) : list Call :=
  List.filter isViewManagerCall (calls w).

(** The events for which [_triggerAction] was invoked, and those given to
    the throttled wrapper, oldest first. *)
Definition triggerActionCalls (w : World) : list CameraEvent :=
  omap isTriggerActionCall (calls w).

Definition throttledCalls (w : World) : list CameraEvent :=
  omap isThrottledCall (calls w).

(** ** The effects of the operations as functions on worlds *)

(** [_deleteUntriggerDelayTimer] always returns; its effect: *)
Definition cancelUntrigger (c : string) (w : World) : World :=
  match states w !! c ≫= untriggerDelayTimer with
  | Some timer =>
      setStates (alter clearTimer c)
        (setTimeouts (filter (λ t, handle t ≠ timeoutHandle timer)) w)
  | None => w
  end.

(** [_setConditionStateIfNecessary] always returns; its effect: *)
Definition publish (w : World) : World :=
  record (ConditionSetState
            (if (size (getTriggeredCameraIDs w) =? 0)%nat then None
             else Some (getTriggeredCameraIDs w))) w.

(** The value of the action gate. *)
Definition gate (api : Env) : bool :=
  match triggersConfig api with
  | None => false
  | Some triggersConfig =>
      let mode := interaction_mode (actions triggersConfig) in
      bool_decide (mode = ModeAll)
      || (bool_decide (mode = ModeActive) && hasInteraction api)
      || (bool_decide (mode = ModeInactive) && negb (hasInteraction api))
  end.

(** [config?.view?.triggers.untrigger_seconds ?? 0] *)
Definition untriggerSeconds (api : Env) : Q :=
  default 0%Q (untrigger_seconds <$> triggersConfig api).

(** The effect of starting the grace timer in [_startUntrigger]. *)
Definition startTimer (c : string) (seconds : Q) (w : World) : World :=
  setStates (alter (setTimer (mkTimer (nextHandle w))) c)
    {| now := now w; states := states w;
       timeouts := timeouts w
                   ++ [mkTimeout (nextHandle w) (now w + seconds * 1000) (CbUntrigger c)];
       nextHandle := S (nextHandle w); throttled := throttled w;
       calls := calls w |}.

(** Whether an [end] event goes on to [_startUntrigger]:
    [!state?.sources.size]. *)
Definition sourcesExhausted (c : string) (w : World) : bool :=
  match states w !! c with
  | Some state => (size (sources state) =? 0)%nat
  | None => true
  end.

(** The store update of an accepted [new] or [update] event: the state
    is created or its [lastTriggerTime] refreshed, and the source added. *)
Definition touch (ev : CameraEvent) (w : World) : World :=
  setStates (alter (addSource (id ev)) (cameraID ev))
    (setStates (λ states,
       match states !! cameraID ev with
       | None => <[cameraID ev := mkState (now w) ∅ None]> states
       | Some _ => alter (setLastTriggerTime (now w)) (cameraID ev) states
       end) w).

Definition acceptNew (ev : CameraEvent) (w : World) : World :=
  publish (cancelUntrigger (cameraID ev) (touch ev w)).

(** The condition under which [_triggerAction] returns at once. *)
Definition suppressed (api : Env) (ev : CameraEvent) : bool :=
  bool_decide (fidelity ev = Some high)
  && negb (truthy_bool (snapshot ev))
  && negb (truthy_bool (clip ev))
  && negb (bool_decide (triggerAction api = Some TriggerLive)
           || (bool_decide (triggerAction api = Some TriggerDefault)
               && bool_decide (defaultView api = Some "live"))).

(** The call of the view manager that [_triggerAction] chooses. *)
Definition dispatch (api : Env) (ev : CameraEvent) : option Call :=
  match triggerAction api with
  | Some TriggerUpdate => Some SetViewByParametersUpdate
  | Some TriggerLive => Some (SetViewByParameters "live" (cameraID ev))
  | Some TriggerDefault => Some (SetViewDefault (Some (cameraID ev)))
  | Some TriggerMedia =>
      if bool_decide (fidelity ev = Some high) then
        Some (SetViewByParameters
                (if truthy_bool (clip ev) then "clip" else "snapshot")
                (cameraID ev))
      else None
  | _ => None
  end.

(** ** Frames

    [preserves R m]: whatever the world, running [m] leads to a world
    related to it by [R]. *)
Definition preserves {A} (R : relation World) (m : M A) : Prop :=
  ∀ w, R w (m w).2.

(** What the dispatcher side of the manager (the throttle, the trigger
    action, the publication of the triggered set) may change: not the
    store or the clock, no timeout of the grace timers, and no record of
    a call to the throttled wrapper. *)
Record quiet (w w' : World) : Prop := mkQuiet {
  quiet_states : states w' = states w;
  quiet_now : now w' = now w;
  quiet_handles : nextHandle w ≤ nextHandle w';
  quiet_timeouts : ∀ t, t ∈ timeouts w' →
    t ∈ timeouts w
    ∨ (callback t = CbThrottle ∧ nextHandle w ≤ handle t < nextHandle w');
  quiet_throttledCalls : throttledCalls w' = throttledCalls w;
}.

(** What any operation may do to the event loop: timeouts are added
    only under handles not used before. *)
Record fresh (w w' : World) : Prop := mkFresh {
  fresh_handles : nextHandle w ≤ nextHandle w';
  fresh_timeouts : ∀ t, t ∈ timeouts w' →
    t ∈ timeouts w ∨ nextHandle w ≤ handle t < nextHandle w';
}.

(** ** The start-up scan *)

(** The events that [handleInitialCameraTriggers] synthesizes, in the
    order of the enumeration: one per camera and trigger entity whose
    current state is a triggered state. *)
Definition synthesizedFor (isTriggeredState : option string → bool) (api : Env)
    (camera : string * list string) : list CameraEvent :=
  (λ entityID, mkCameraEvent camera.1 entityID EvNew None None None)
  <$> List.filter (λ entityID, isTriggeredState (hass api ≫= (.!! entityID))) camera.2.

Definition synthesized (isTriggeredState : option string → bool) (api : Env)
    : list CameraEvent :=
  flat_map (synthesizedFor isTriggeredState api) (cameras api).

(** Those of them that the filter of [handleCameraEvent] accepts. *)
Definition acceptedEvents (api : Env) (evs : list CameraEvent) : list CameraEvent :=
  List.filter (λ ev, accepts api (cameraID ev)) evs.

(** Some trigger entity of some camera is in a triggered state. *)
Definition anyTriggered (isTriggeredState : option string → bool) (api : Env) : bool :=
  existsb (λ camera : string * list string,
             existsb (λ entityID, isTriggeredState (hass api ≫= (.!! entityID)))
                     camera.2)
          (cameras api).

(** The loop variables [triggered] and [startupActionEvent] and the world
    after the scan of the events [evs]. *)
Definition scanned (api : Env) (evs : list CameraEvent)
    (acc : bool * option CameraEvent) (w : World)
    : (bool * option CameraEvent) * World :=
  ((acc.1 || negb (bool_decide (evs = [])),
    match acc.2 with
    | Some ev => Some ev
    | None => head (acceptedEvents api evs)
    end),
   foldl (λ w ev, acceptNew ev w) w (acceptedEvents api evs)).

Arguments scanned : simpl never.

(** ** Invariants and relations between worlds *)

(** The camera has an active source. *)
Definition active (c : string) (w : World) : Prop :=
  ∃ state, states w !! c = Some state ∧ sources state ≠ ∅.

(** The state an accepted event leaves for its camera. *)
Definition touched (ev : CameraEvent) (w : World) : CameraTriggerState :=
  addSource (id ev)
    (match states w !! cameraID ev with
     | None => mkState (now w) ∅ None
     | Some state => setLastTriggerTime (now w) state
     end).

(** The handles of the pending timeouts are below the next handle. *)
Definition handlesBounded (w : World) : Prop :=
  ∀ t, t ∈ timeouts w → handle t < nextHandle w.


(** Every pending grace timeout belongs to a camera whose state holds
    its timer and has no active source. *)
Definition coherent (w : World) : Prop :=
  ∀ t c, t ∈ timeouts w → callback t = CbUntrigger c →
    ∃ state, states w !! c = Some state
             ∧ untriggerDelayTimer state = Some (mkTimer (handle t))
             ∧ sources state = ∅.

(** No grace timeout of camera [c] is pending. *)
Definition noGrace (c : string) (w : World) : Prop :=
  ∀ t, t ∈ timeouts w → callback t ≠ CbUntrigger c.

(** No state without an active source and without a timer. *)
Definition noTombstones (w : World) : Prop :=
  ∀ c state, states w !! c = Some state → _isStateTriggered state = true.



(** ** The window of the throttle *)

(** The world with more calls in its trace. *)
Definition appendCalls (l : list Call) (w : World) : World :=
  {| now := now w; states := states w; timeouts := timeouts w;
     nextHandle := nextHandle w; throttled := throttled w;
     calls := calls w ++ l |}.

(** The grace timers held by a store have handles below [n]. *)
Definition timersBelow (n : nat) (m : gmap string CameraTriggerState) : Prop :=
  ∀ c state timer, m !! c = Some state →
    untriggerDelayTimer state = Some timer → timeoutHandle timer < n.

(** The grace timers held by the store have handles that were given out. *)
Definition timersBounded (w : World) : Prop :=
  timersBelow (nextHandle w) (states w).

(** The delivery of one accepted event at time [te.1] (or at once, when
    that time has passed). *)
Definition deliver (isTriggeredState : option string → bool) (api : Env)
    (w : World) (te : Q * CameraEvent) : World :=
  step isTriggeredState api (OpCameraEvent te.2 false)
    (step isTriggeredState api (OpAdvance te.1) w).

(** The throttle's window opened at [t1] with the timeout [h], which is
    pending and due when the window closes. *)
Record windowOpen (t1 : Q) (h : nat)
    (args : option CameraEvent) (fired : list CameraEvent) (w : World) : Prop :=
  mkWindowOpen {
    window_timer : timerId (throttled w) = Some h;
    window_invoke : lastInvokeTime (throttled w) = t1;
    window_call : ∃ tc, lastCallTime (throttled w) = Some tc
                        ∧ (t1 <= tc)%Q ∧ (tc <= now w)%Q;
    window_now : (now w < t1 + 1000)%Q;
    window_pending :
      List.find (λ t, bool_decide (handle t = h)) (timeouts w)
      = Some (mkTimeout h (t1 + 1000) CbThrottle);
    window_args : lastArgs (throttled w) = args;
    window_fired : triggerActionCalls w = fired;
    window_timers : timersBelow h (states w);
  }.

(** ** Sample data *)

(** An [isTriggeredState] for the examples: the states 'on' and 'open',
    which the tests of the manager use as triggered states. *)
Definition sampleIsTriggeredState (state : option string) : bool :=
  match state with
  | Some s => bool_decide (s = "on") || bool_decide (s = "open")
  | None => false
  end.

Definition sampleConfig (seconds : Q) (filter : bool) (t : TriggerAction)
    (u : UntriggerAction) (m : InteractionMode) : CardConfig :=
  mkConfig (mkView "live" (mkTriggers seconds filter (mkActions t u m))).

(** Camera 1 is selected and has no dependent camera; camera 2 has one
    trigger entity, which is on. *)
Definition sampleApi (cfg : option CardConfig) (throws : bool) : Env :=
  {| config := cfg; selectedCamera := Some "camera_1";
     dependentCameras := λ c, {[c]}; hasInteraction := false;
     hass := Some {[ "binary_sensor.motion_2" := "on" ]};
     cameras := [("camera_2", ["binary_sensor.motion_2"])];
     viewManagerThrows := λ _, throws |}.

Definition sampleEvent (c source : string) (t : EventType) : CameraEvent :=
  mkCameraEvent c source t None None None.

Definition sampleHighEvent : CameraEvent :=
  mkCameraEvent "camera_1" "event-1" EvNew (Some high) (Some false) (Some false).

(** Grace seconds 10, no filter, no trigger action, untrigger to the
    default view, any interaction state. *)
Definition graceApi (throws : bool) : Env :=
  sampleApi (Some (sampleConfig 10 false TriggerNone UntriggerDefault ModeAll)) throws.

(** Camera 1 triggered at time 0 and its source ended at time 1000: the
    grace timer, of handle 1, is due at time 11000. *)
Definition graceWorld : World :=
  step sampleIsTriggeredState (graceApi false)
    (OpCameraEvent (sampleEvent "camera_1" "e1" EvEnd) false)
    (step sampleIsTriggeredState (graceApi false) (OpAdvance 1000)
       (step sampleIsTriggeredState (graceApi false)
          (OpCameraEvent (sampleEvent "camera_1" "e1" EvNew) false)
          (initialWorld 0))).

(** No grace seconds, and a view manager that throws. *)
Definition failingApi : Env :=
  sampleApi (Some (sampleConfig 0 false TriggerNone UntriggerDefault ModeAll)) true.


(** Trigger action [live], no filter, grace seconds 10. *)
Definition liveApi : Env :=
  sampleApi (Some (sampleConfig 10 false TriggerLive UntriggerDefault ModeAll)) false.

Definition mediaApi : Env :=
  sampleApi (Some (sampleConfig 10 false TriggerMedia UntriggerDefault ModeAll)) false.

(** The same with [filter_selected_camera]. *)
Definition filteringApi : Env :=
  sampleApi (Some (sampleConfig 10 true TriggerLive UntriggerDefault ModeAll)) false.

Definition noConfigApi : Env := sampleApi None false.

(** A burst: camera 1 at time 0, camera 2 at time 100, camera 1 at 300. *)
Definition burstFirst : CameraEvent := sampleEvent "camera_1" "e1" EvNew.
Definition burstRest : list (Q * CameraEvent) :=
  [(100%Q, sampleEvent "camera_2" "e2" EvNew);
   (300%Q, sampleEvent "camera_1" "e3" EvNew)].

Definition afterBurst : World :=
  step sampleIsTriggeredState liveApi (OpTimeout 0)
    (step sampleIsTriggeredState liveApi (OpAdvance 1000)
       (foldl (deliver sampleIsTriggeredState liveApi)
          (step sampleIsTriggeredState liveApi (OpCameraEvent burstFirst false)
             (initialWorld 0))
          burstRest)).

(** ** The most recently triggered camera *)

(** lodash's [maxBy] on an array with a numeric iteratee: [baseExtremum]
    with the comparator [baseGt], which keeps the element found first
    among those of the greatest value. *)
Definition baseExtremumStep {A} (iteratee : A → Q) (acc : option (Q * A))
    (value : A) : option (Q * A) :=
  let current := iteratee value in
  match acc with
  | None => Some (current, value)
  | Some (computed, _) =>
      if Qlt_bool computed current then Some (current, value) else acc
  end.

Definition maxBy {A} (array : list A) (iteratee : A → Q) : option A :=
  snd <$> foldl (baseExtremumStep iteratee) None array.

(** [getMostRecentlyTriggeredCameraID], on [[...this._states.entries()]]:
    the entries of the store in the order in which the Map enumerates
    them. *)
Definition getMostRecentlyTriggeredCameraID
    (entries : list (string * CameraTriggerState)) : option string :=
  fst <$> maxBy (List.filter (λ entry, _isStateTriggered entry.2) entries)
            (λ entry, lastTriggerTime entry.2).

(** [entries] lists the entries of the store of [w], in some order. *)
Definition enumerates (entries : list (string * CameraTriggerState))
    (w : World) : Prop :=
  entries ≡ₚ map_to_list (states w).

(** No state was last triggered in the future. *)
Definition timesBelow (t : Q) (m : gmap string CameraTriggerState) : Prop :=
  ∀ c state, m !! c = Some state → (lastTriggerTime state <= t)%Q.

Definition timely (w : World) : Prop := timesBelow (now w) (states w).

(** The entries of the store after the burst of [afterBurst]. *)
Definition sampleEntries : list (string * CameraTriggerState) :=
  [("camera_1", mkState 300 {["e1"; "e3"]} None);
   ("camera_2", mkState 100 {["e2"]} None)].

(** ** What the condition state manager knows *)

Definition isConditionSetState (c : Call) : option (option (gset string)) :=
  match c with
  | ConditionSetState triggered => Some triggered
  | _ => None
  end.

(** The [triggered] value of the last [setState] call made to the
    condition state manager, if any was made. *)
Definition publishedTriggered (w : World) : option (option (gset string)) :=
  last (omap isConditionSetState (calls w)).

(** The value [_setConditionStateIfNecessary] computes from the store:
    [triggeredCameraIDs.size ? triggeredCameraIDs : undefined]. *)
Definition triggeredCondition (w : World) : option (gset string) :=
  if (size (getTriggeredCameraIDs w) =? 0)%nat then None
  else Some (getTriggeredCameraIDs w).

(** The condition state manager was last told the triggered cameras of
    the present store; before any call, no camera is triggered. *)
Definition conditionInSync (w : World) : Prop :=
  match publishedTriggered w with
  | Some triggered => triggered = triggeredCondition w
  | None => getTriggeredCameraIDs w = ∅
  end.

(** What the code between two publications may change: not the store,
    and nothing of what the condition state manager was told. *)
Record mute (w w' : World) : Prop := mkMute {
  mute_states : states w' = states w;
  mute_published :
    omap isConditionSetState (calls w') = omap isConditionSetState (calls w);
}.

(** ** The cameras an operation is about *)

(** The cameras whose state an operation may change: the camera of a
    camera event, the cameras of the events that the start-up scan
    synthesizes and accepts, and the camera of a grace timeout. *)
Definition touches (isTriggeredState : option string → bool) (api : Env)
    (op : Op) (w : World) (c : string) : Prop :=
  match op with
  | OpCameraEvent ev _ => cameraID ev = c
  | OpInitialCameraTriggers =>
      ∃ ev, ev ∈ acceptedEvents api (synthesized isTriggeredState api)
            ∧ cameraID ev = c
  | OpTimeout h =>
      ∃ t, t ∈ timeouts w ∧ handle t = h ∧ callback t = CbUntrigger c
  | OpAdvance _ => False
  end.

(** The calls that [_executeUntriggerAction] makes. *)
Definition untriggerCalls (api : Env) : list Call :=
  match (λ t, untrigger (actions t)) <$> triggersConfig api with
  | Some UntriggerDefault =>
      HasInteraction :: (if gate api then [SetViewDefault None] else [])
  | _ => []
  end.

(** The world after an untrigger of camera [c] that returns. *)
Definition untriggered (api : Env) (c : string) (w : World) : World :=
  record CardElementUpdate
    (publish (setStates (delete c)
                (appendCalls (untriggerCalls api) (cancelUntrigger c w)))).

(** Camera 1 triggered by one source at time 0, trigger action [live]. *)
Definition triggeredWorld : World :=
  step sampleIsTriggeredState liveApi (OpCameraEvent burstFirst false)
    (initialWorld 0).

(** * The cameras that produce the events

    [Camera] of [src/camera-manager/camera.ts] and [FrigateCamera] of
    [src/camera-manager/frigate/camera.ts].  The records hold the fields
    that the two classes read; the schemas themselves are not part of
    the sources at hand. *)

(** ** The configuration of a camera *)

(** [config.triggers.events]: ['events' | 'clips' | 'snapshots']. *)
Inductive TriggerEventKind := OnEvents | OnClips | OnSnapshots.

#[global] Instance TriggerEventKind_eq_dec : EqDecision TriggerEventKind.
Proof. solve_decision. Defined.

Module CameraTriggers.
Record t := mk {
  motion : bool;
  occupancy : bool;
  entities : list string;
  events : list TriggerEventKind;
}.
End CameraTriggers.

Module FrigateConfig.
Record t := mk {
  camera_name : option string;
  client_id : string;
  url : option string;
  zones : option (list string);
  labels : option (list string);
}.
End FrigateConfig.

Module Go2RTCConfig.
Record t := mk {
  url : option string;
  stream : option string;
}.
End Go2RTCConfig.

Module CameraConfig.
Record t := mk {
  id : option string;
  camera_entity : option string;
  triggers : CameraTriggers.t;
  frigate : FrigateConfig.t;
  go2rtc : option Go2RTCConfig.t;
}.

Definition setID (cameraID : option string) (config : t) : t :=
  {| id := cameraID; camera_entity := camera_entity config;
     triggers := triggers config; frigate := frigate config;
     go2rtc := go2rtc config |}.



End CameraConfig.

(** JavaScript truthiness of an optional array's [length]:
    [zones?.length]. *)
Definition truthy_length {A} (l : option (list A)) : bool :=
  match l with
  | Some (_ :: _) => true
  | _ => false
  end.

(** The errors that the cameras throw; [SyntaxError] is the one of the
    constructor [RegExp]. *)
Inductive CameraError :=
  CameraNoIDError | CameraInitializationError | SyntaxError.

(** What a method of a camera returns, or the error it throws. *)
Inductive Outcome (A : Type) :=
  | Value (a : A)
  | Raised (e : CameraError).
Arguments Value {A} a.
Arguments Raised {A} e.

#[global] Instance Outcome_ret : MRet Outcome := λ A a, Value a.
#[global] Instance Outcome_bind : MBind Outcome := λ A B f m,
  match m with
  | Value a => f a
  | Raised e => Raised e
  end.


(** ** [Camera] *)

Module HassStateDifference.
(** [difference.entityID] and [difference.newState.state]. *)
Record t := mk {
  entityID : string;
  newState : string;
}.
End HassStateDifference.

Module Camera.

(** The camera: its configuration, and whether an event callback was
    given to the constructor. *)
Record t := mk {
  _config : CameraConfig.t;
  _eventCallback : bool;
}.

(** [setID] *)
Definition setID (cameraID : string) (camera : t) : t :=
  {| _config := CameraConfig.setID (Some cameraID) (_config camera);
     _eventCallback := _eventCallback camera |}.

(** [getID] *)
Definition getID (camera : t) : Outcome string :=
  if truthy_string (CameraConfig.id (_config camera))
  then Value (default "" (CameraConfig.id (_config camera)))
  else Raised CameraNoIDError.

Section StateChange.
Variable isTriggeredState : option string → bool.

(** [_stateChangeHandler]: the event handed to the event callback, if
    there is a callback.  The argument of the optional call, and with it
    [getID], is evaluated only when the callback is there. *)
Definition _stateChangeHandler (camera : t)
    (difference : HassStateDifference.t) : Outcome (option CameraEvent) :=
  if _eventCallback camera then
    match getID camera with
    | Value cameraID =>
        Value (Some
          {| cameraID := cameraID;
             id := HassStateDifference.entityID difference;
             type := if isTriggeredState
                          (Some (HassStateDifference.newState difference))
                     then EvNew else EvEnd;
             fidelity := None; clip := None; snapshot := None |})
    | Raised e => Raised e
    end
  else Value None.
End StateChange.

End Camera.

(** ** [FrigateCamera] *)

Module FrigateEvent.
Record t := mk {
  id : string;
  camera : string;
  label : string;
  current_zones : list string;
  has_snapshot : bool;
  has_clip : bool;
  (** [snapshot?.frame_time] *)
  snapshot_frame_time : option Q;
}.
End FrigateEvent.

Module FrigateEventChange.
Record t := mk {
  type : EventType;
  before : FrigateEvent.t;
  after : FrigateEvent.t;
}.
End FrigateEventChange.

(** [a !== b] on two optional numbers. *)
Definition strictlyDiffer (a b : option Q) : bool :=
  match a, b with
  | Some x, Some y => negb (Qeq_bool x y)
  | None, None => false
  | _, _ => true
  end.

Module FrigateCamera.

(** [isBirdseye] *)
Definition isBirdseye (cameraConfig : CameraConfig.t) : bool :=
  bool_decide (FrigateConfig.camera_name (CameraConfig.frigate cameraConfig)
               = Some "birdseye").

(** The constants [snapshotChange] and [clipChange] of
    [_frigateEventHandler]. *)
Definition snapshotChange (ev : FrigateEventChange.t) : bool :=
  (negb (FrigateEvent.has_snapshot (FrigateEventChange.before ev))
   && FrigateEvent.has_snapshot (FrigateEventChange.after ev))
  || strictlyDiffer
       (FrigateEvent.snapshot_frame_time (FrigateEventChange.before ev))
       (FrigateEvent.snapshot_frame_time (FrigateEventChange.after ev)).

Definition clipChange (ev : FrigateEventChange.t) : bool :=
  negb (FrigateEvent.has_clip (FrigateEventChange.before ev))
  && FrigateEvent.has_clip (FrigateEventChange.after ev).

(** [_frigateEventHandler]: the event handed to the event callback, if
    any. *)
Definition _frigateEventHandler (camera : Camera.t)
    (ev : FrigateEventChange.t) : option CameraEvent :=
  let snapshotChange := snapshotChange ev in
  let clipChange := clipChange ev in
  let config := Camera._config camera in
  let cameraID := CameraConfig.id config in
  let after := FrigateEventChange.after ev in
  let zones := FrigateConfig.zones (CameraConfig.frigate config) in
  let labels := FrigateConfig.labels (CameraConfig.frigate config) in
  if negb (truthy_string cameraID) then None
  else if (truthy_length zones
           && negb (existsb
                      (λ zone, bool_decide (zone ∈ FrigateEvent.current_zones after))
                      (default [] zones)))
          || (truthy_length labels
              && negb (bool_decide (FrigateEvent.label after ∈ default [] labels)))
  then None
  else
    let eventsToTriggerOn := CameraTriggers.events (CameraConfig.triggers config) in
    if negb (bool_decide (OnEvents ∈ eventsToTriggerOn)
             || (bool_decide (OnSnapshots ∈ eventsToTriggerOn) && snapshotChange)
             || (bool_decide (OnClips ∈ eventsToTriggerOn) && clipChange))
    then None
    else if Camera._eventCallback camera then
      Some {| cameraID := default "" cameraID;
              id := FrigateEvent.id after;
              type := FrigateEventChange.type ev;
              fidelity := Some high;
              clip := Some (clipChange && bool_decide (OnClips ∈ eventsToTriggerOn));
              snapshot :=
                Some (snapshotChange
                      && bool_decide (OnSnapshots ∈ eventsToTriggerOn)) |}
    else None.

End FrigateCamera.

(** ** Sample cameras *)

(** Camera 2 of [sampleApi], with its motion sensor as trigger entity
    and an event callback. *)
Definition sampleCamera : Camera.t :=
  Camera.mk
    (CameraConfig.mk (Some "camera_2") None
       (CameraTriggers.mk false false ["binary_sensor.motion_2"] [OnEvents])
       (FrigateConfig.mk (Some "front_door") "frigate" None None None)
       None)
    true.

(** A Frigate event that gained a clip, for the camera [front_door]. *)
Definition sampleFrigateEvent (has_clip_before has_clip_after : bool)
    : FrigateEventChange.t :=
  FrigateEventChange.mk EvUpdate
    (FrigateEvent.mk "1700000000.1-abc" "front_door" "person" ["porch"]
       false has_clip_before None)
    (FrigateEvent.mk "1700000000.1-abc" "front_door" "person" ["porch"]
       false has_clip_after None).

(** The same camera triggering on clips only. *)
Definition clipCamera : Camera.t :=
  Camera.mk
    (CameraConfig.mk (Some "camera_2") None
       (CameraTriggers.mk false false [] [OnClips])
       (FrigateConfig.mk (Some "front_door") "frigate" None
          (Some ["porch"]) (Some ["person"]))
       None)
    true.

(** ** PTZ actions *)

Module PTZ.

(** The options of [executePTZAction]: [options?.phase] and
    [options?.preset]. *)
Record Options := mkOptions {
  phase : option string;
  preset : option string;
}.

(** The action that [FrigateCamera.executePTZAction] hands to the
    executor: [perform_action], [data.action], [data.argument] (absent
    for a stop) and [target.entity_id]. *)
Record PerformAction := mkPerformAction {
  perform_action : string;
  data_action : string;
  data_argument : option string;
  target_entity_id : string;
}.

End PTZ.

Section PTZActions.

(** The actions of the card configuration, and [getConfiguredPTZAction] of
    [src/camera-manager/utils/ptz.ts]; neither is part of the sources at
    hand. *)
Variable ActionConfig : Type.
Variable getConfiguredPTZAction :
  CameraConfig.t → string → option PTZ.Options → option ActionConfig.

(** What the executor was asked to execute. *)
Inductive Executed :=
  | ExecuteConfigured (actions : ActionConfig)
  | ExecutePerform (action : PTZ.PerformAction).

(** [Camera.executePTZAction]: the result, and the actions executed. *)
Definition Camera_executePTZAction (camera : Camera.t) (action : string)
    (options : option PTZ.Options) : bool * list Executed :=
  match getConfiguredPTZAction (Camera._config camera) action options with
  | Some configuredAction => (true, [ExecuteConfigured configuredAction])
  | None => (false, [])
  end.

(** [FrigateCamera.executePTZAction] *)
Definition FrigateCamera_executePTZAction (camera : Camera.t) (action : string)
    (options : option PTZ.Options) : bool * list Executed :=
  let super := Camera_executePTZAction camera action options in
  if super.1 then (true, super.2)
  else
    let cameraEntity := CameraConfig.camera_entity (Camera._config camera) in
    if (bool_decide (action = "preset")
        && negb (truthy_string (options ≫= PTZ.preset)))
       || negb (truthy_string cameraEntity)
    then (false, super.2)
    else
      let stop := bool_decide (options ≫= PTZ.phase = Some "stop") in
      (true,
       super.2 ++
       [ExecutePerform
          {| PTZ.perform_action := "frigate.ptz";
             PTZ.data_action :=
               if stop then "stop"
               else if bool_decide (action = "zoom_in")
                       || bool_decide (action = "zoom_out") then "zoom"
               else if bool_decide (action = "preset") then "preset"
               else "move";
             PTZ.data_argument :=
               if stop then None
               else if bool_decide (action = "zoom_in") then Some "in"
               else if bool_decide (action = "zoom_out") then Some "out"
               else if bool_decide (action = "preset") then options ≫= PTZ.preset
               else Some action;
             PTZ.target_entity_id := default "" cameraEntity |}]).

End PTZActions.

(** ** PTZ capabilities *)

(** [PTZMovementType] of [src/types.ts]. *)
Inductive PTZMovementType := Continuous | Relative.

Module PTZCapabilities.
(** The keys of [PTZCapabilities]; an absent key is [None]. *)
Record t := mk {
  left : option (list PTZMovementType);
  right : option (list PTZMovementType);
  up : option (list PTZMovementType);
  down : option (list PTZMovementType);
  zoomIn : option (list PTZMovementType);
  zoomOut : option (list PTZMovementType);
  presets : option (list string);
}.

Definition empty : t := mk None None None None None None None.

(** [{ ...under, ...over }]: the keys of [over] win. *)
Definition spread (under over : t) : t :=
  {| left := left over ∪ left under;
     right := right over ∪ right under;
     up := up over ∪ up under;
     down := down over ∪ down under;
     zoomIn := zoomIn over ∪ zoomIn under;
     zoomOut := zoomOut over ∪ zoomOut under;
     presets := presets over ∪ presets under |}.
End PTZCapabilities.

Module PTZInfo.
(** The answer of Frigate to the PTZ information request. *)
Record t := mk {
  features : option (list string);
  presets : option (list string);
}.
End PTZInfo.

Section FrigatePTZCapabilities.

(** [getPTZInfo] of [src/camera-manager/frigate/requests.ts], which is
    not part of the sources at hand: the answer to the request of the
    client and camera name, or its failure. *)
Variable getPTZInfo : string → string → option PTZInfo.t.

(** [_getPTZCapabilities]: a failed request is logged and gives null. *)
Definition _getPTZCapabilities (cameraConfig : CameraConfig.t)
    : option PTZCapabilities.t :=
  let frigate := CameraConfig.frigate cameraConfig in
  if negb (truthy_string (FrigateConfig.camera_name frigate))
     || FrigateCamera.isBirdseye cameraConfig
  then None
  else
    match getPTZInfo (FrigateConfig.client_id frigate)
            (default "" (FrigateConfig.camera_name frigate)) with
    | None => None
    | Some ptzInfo =>
        let panTilt :=
          if bool_decide ("pt" ∈ default [] (PTZInfo.features ptzInfo))
          then [Continuous] else [] in
        let zoom :=
          if bool_decide ("zoom" ∈ default [] (PTZInfo.features ptzInfo))
          then [Continuous] else [] in
        let presets := PTZInfo.presets ptzInfo in
        if negb (bool_decide (panTilt = []))
           || negb (bool_decide (zoom = []))
           || truthy_length presets
        then
          Some
            (PTZCapabilities.spread
               (PTZCapabilities.spread
                  (if negb (bool_decide (panTilt = [])) then
                     PTZCapabilities.mk (Some panTilt) (Some panTilt)
                       (Some panTilt) (Some panTilt) None None None
                   else PTZCapabilities.empty)
                  (if negb (bool_decide (zoom = [])) then
                     PTZCapabilities.mk None None None None
                       (Some zoom) (Some zoom) None
                   else PTZCapabilities.empty))
               (if truthy_length presets then
                  PTZCapabilities.mk None None None None None None presets
                else PTZCapabilities.empty))
        else None
    end.

End FrigatePTZCapabilities.

(** ** Raw capabilities *)

(** The values of a [CapabilitiesRaw] object: booleans, and the PTZ
    capabilities under the key [ptz]. *)
Inductive RawCapability :=
  | RawBool (b : bool)
  | RawPTZ (ptz : PTZCapabilities.t).

Section RawCapabilities.

(** [getPTZCapabilitiesFromCameraConfig] of
    [src/camera-manager/utils/ptz.ts] and [getPTZInfo], neither part of
    the sources at hand. *)
Variable getPTZCapabilitiesFromCameraConfig :
  CameraConfig.t → option PTZCapabilities.t.
Variable getPTZInfo : string → string → option PTZInfo.t.

(** [Camera._getRawCapabilities], on [options.capabilityOptions?.raw];
    the keys of the spread object win. *)
Definition Camera__getRawCapabilities (raw : option (gmap string RawCapability))
    : gmap string RawCapability :=
  default ∅ raw
  ∪ list_to_map
      [("live", RawBool true); ("menu", RawBool true);
       ("substream", RawBool true); ("trigger", RawBool true);
       ("remote-control-entity", RawBool true)].

(** The constant [combinedPTZ] of [FrigateCamera._getRawCapabilities]. *)
Definition combinedPTZ (config : CameraConfig.t) : option PTZCapabilities.t :=
  let frigatePTZ := _getPTZCapabilities getPTZInfo config in
  let configPTZ := getPTZCapabilitiesFromCameraConfig config in
  if bool_decide (is_Some configPTZ) || bool_decide (is_Some frigatePTZ) then
    Some (PTZCapabilities.spread (default PTZCapabilities.empty frigatePTZ)
            (default PTZCapabilities.empty configPTZ))
  else None.

(** [FrigateCamera._getRawCapabilities] *)
Definition FrigateCamera__getRawCapabilities (config : CameraConfig.t)
    (raw : option (gmap string RawCapability)) : gmap string RawCapability :=
  let base := Camera__getRawCapabilities raw in
  let birdseye := FrigateCamera.isBirdseye config in
  match combinedPTZ config with
  | Some combinedPTZ => {[ "ptz" := RawPTZ combinedPTZ ]}
  | None => ∅
  end
  ∪ list_to_map
      [("favorite-events", RawBool (negb birdseye));
       ("seek", RawBool (negb birdseye));
       ("clips", RawBool (negb birdseye));
       ("snapshots", RawBool (negb birdseye));
       ("recordings", RawBool (negb birdseye))]
  ∪ base.

End RawCapabilities.

(** The keys that Frigate decides, and those of every camera. *)
Definition frigateMediaKeys : list string :=
  ["favorite-events"; "seek"; "clips"; "snapshots"; "recordings"].
Definition cameraKeys : list string :=
  ["live"; "menu"; "substream"; "trigger"; "remote-control-entity"].

(** What a key of [{ ...under, ...over }] holds: the value of [over] when
    [over] has the key, else what [under] has. *)
Definition winsOver {A} (over under combined : option A) : Prop :=
  match over with
  | Some value => combined = Some value
  | None => combined = under
  end.

(** ** The initialisation of a Frigate camera *)


Module Entity.
(** An entity of the entity registry.  [unique_id] is the unique
    identifier when it is a string, [config_entry_id] and [disabled_by]
    are null or a string. *)
Record t := mk {
  entity_id : string;
  unique_id : option string;
  platform : string;
  config_entry_id : option string;
  disabled_by : option string;
}.
End Entity.

(** Whether the subject has [prefix] at its start, and what follows. *)
Fixpoint stripPrefix (prefix subject : string) : option string :=
  match prefix, subject with
  | EmptyString, _ => Some subject
  | String a prefix', String b subject' =>
      if Ascii.eqb a b then stripPrefix prefix' subject' else None
  | String _ _, EmptyString => None
  end.

(** No colon in the string: it matches [[^:]*] as a whole. *)
Fixpoint colonFree (s : string) : bool :=
  match s with
  | EmptyString => true
  | String a s' => negb (Ascii.eqb a ":"%char) && colonFree s'
  end.

(** The named group of the match of [/:camera:(?<camera>[^:]+)$/] that
    starts at the beginning of the subject: the subject is [:camera:]
    followed by one or more characters other than a colon, up to its
    end. *)
Definition cameraGroupAt (subject : string) : option string :=
  match stripPrefix ":camera:" subject with
  | Some name =>
      if negb (bool_decide (name = "")) && colonFree name then Some name
      else None
  | None => None
  end.

(** [unique_id.match(/:camera:(?<camera>[^:]+)$/)?.groups['camera']]: the
    match is looked for at the successive positions of the subject, from
    its beginning. *)
Fixpoint cameraGroup (subject : string) : option string :=
  match cameraGroupAt subject with
  | Some name => Some name
  | None =>
      match subject with
      | EmptyString => None
      | String _ subject' => cameraGroup subject'
      end
  end.

Section FrigateInitialization.

(** The entity registry ([getEntity] and [getMatchingEntities] of the
    entity registry manager), [getCameraEntityFromConfig] of
    [src/camera-manager/utils/camera-entity-from-config.ts], and the
    regular expressions of the JavaScript runtime; none is part of the
    sources at hand.  [regExp pattern] is [new RegExp(pattern)]: the
    test of a subject against the pattern
    ([subject.match(...)] is not null), or nothing when the pattern is
    not a regular expression and the constructor throws [SyntaxError]. *)
Variable getEntity : string → option Entity.t.
Variable getMatchingEntities : (Entity.t → bool) → list Entity.t.
Variable getCameraEntityFromConfig : CameraConfig.t → option string.
Variable regExp : string → option (string → bool).

(** [_getFrigateCameraNameFromEntity] *)
Definition _getFrigateCameraNameFromEntity (entity : Entity.t) : option string :=
  if bool_decide (Entity.platform entity = "frigate")
     && truthy_string (Entity.unique_id entity)
  then cameraGroup (default "" (Entity.unique_id entity))
  else None.






End FrigateInitialization.

(** ** Endpoints *)

Module Endpoint.
Record t := mk {
  endpoint : string;
  sign : option bool;
}.
End Endpoint.

Module CameraEndpoints.
(** The keys of [CameraEndpoints]; an absent key is [None]. *)
Record t := mk {
  ui : option Endpoint.t;
  go2rtc : option Endpoint.t;
  jsmpeg : option Endpoint.t;
  webrtcCard : option Endpoint.t;
}.
End CameraEndpoints.

Module ViewMedia.
(** [context.media]: the results of [getMediaType()] and
    [getStartTime()], for the dates of the caller. *)
Record t (Date : Type) := mk {
  getMediaType : option string;
  getStartTime : option Date;
}.
Arguments mk {Date}.
Arguments getMediaType {Date}.
Arguments getStartTime {Date}.
End ViewMedia.

Module CameraEndpointsContext.
Record t (Date : Type) := mk {
  media : option (ViewMedia.t Date);
  view : option string;
}.
Arguments mk {Date}.
Arguments media {Date}.
Arguments view {Date}.
End CameraEndpointsContext.

Section Endpoints.

(** Dates and [format] of the package date-fns, the media of a view with
    its methods [getMediaType] and [getStartTime], and
    [getGo2RTCStreamEndpoint] of
    [src/camera-manager/utils/go2rtc/endpoint.ts] applied to the
    configuration and to the [url] and [stream] that [FrigateCamera]
    gives it; none is part of the sources at hand. *)
Variable Date : Type.
Variable format : Date → string → string.
Variable getGo2RTCStreamEndpoint :
  CameraConfig.t → string → option string → option Endpoint.t.

(** [Camera._getWebRTCCardEndpoint] *)
Definition _getWebRTCCardEndpoint (config : CameraConfig.t) : option Endpoint.t :=
  if truthy_string (CameraConfig.camera_entity config)
  then Some (Endpoint.mk (default "" (CameraConfig.camera_entity config)) None)
  else None.

(** [Camera.getEndpoints], on the results of [_getUIEndpoint],
    [_getGo2RTCStreamEndpoint] and [_getWebRTCCardEndpoint], which a
    subclass may override. *)
Definition Camera_getEndpoints (ui go2rtc webrtcCard : option Endpoint.t)
    : option CameraEndpoints.t :=
  if bool_decide (is_Some ui) || bool_decide (is_Some go2rtc)
     || bool_decide (is_Some webrtcCard)
  then Some (CameraEndpoints.mk ui go2rtc None webrtcCard)
  else None.

(** [FrigateCamera._getJSMPEGEndpoint] *)
Definition _getJSMPEGEndpoint (config : CameraConfig.t) : option Endpoint.t :=
  let frigate := CameraConfig.frigate config in
  if negb (truthy_string (FrigateConfig.camera_name frigate)) then None
  else
    Some (Endpoint.mk
            (("/api/frigate/" +:+ FrigateConfig.client_id frigate)
             +:+ "/jsmpeg/" +:+ default "" (FrigateConfig.camera_name frigate))
            (Some true)).

(** [FrigateCamera._getGo2RTCStreamEndpoint]: [??] keeps a configured
    [stream] or [url], also an empty one. *)
Definition FrigateCamera__getGo2RTCStreamEndpoint (config : CameraConfig.t)
    : option Endpoint.t :=
  let frigate := CameraConfig.frigate config in
  let stream :=
    match CameraConfig.go2rtc config ≫= Go2RTCConfig.stream with
    | Some stream => Some stream
    | None => FrigateConfig.camera_name frigate
    end in
  let url :=
    match CameraConfig.go2rtc config ≫= Go2RTCConfig.url with
    | Some url => url
    | None => ("/api/frigate/" +:+ FrigateConfig.client_id frigate) +:+ "/mse"
    end in
  getGo2RTCStreamEndpoint config url stream.

(** [FrigateCamera._getUIEndpoint] *)
Definition FrigateCamera__getUIEndpoint (config : CameraConfig.t)
    (context : option (CameraEndpointsContext.t Date)) : option Endpoint.t :=
  let frigate := CameraConfig.frigate config in
  if negb (truthy_string (FrigateConfig.url frigate)) then None
  else
    let url := default "" (FrigateConfig.url frigate) in
    if negb (truthy_string (FrigateConfig.camera_name frigate))
    then Some (Endpoint.mk url None)
    else
      let camera_name := default "" (FrigateConfig.camera_name frigate) in
      let cameraURL := url +:+ "/#" +:+ camera_name in
      if bool_decide (context ≫= CameraEndpointsContext.view = Some "live")
      then Some (Endpoint.mk cameraURL None)
      else
        let eventsURL := url +:+ "/events?camera=" +:+ camera_name in
        let recordingsURL := url +:+ "/recording/" +:+ camera_name in
        let mediaType := (context ≫= CameraEndpointsContext.media) ≫= ViewMedia.getMediaType in
        if bool_decide (mediaType = Some "clip")
           || bool_decide (mediaType = Some "snapshot")
        then Some (Endpoint.mk eventsURL None)
        else if bool_decide (mediaType = Some "recording") then
          Some (Endpoint.mk
                  (recordingsURL
                   +:+ match (context ≫= CameraEndpointsContext.media) ≫= ViewMedia.getStartTime with
                       | Some startTime => "/" +:+ format startTime "yyyy-MM-dd/HH"
                       | None => ""
                       end)
                  None)
        else
          let v := context ≫= CameraEndpointsContext.view in
          if bool_decide (v = Some "clip") || bool_decide (v = Some "clips")
             || bool_decide (v = Some "snapshots")
             || bool_decide (v = Some "snapshot")
          then Some (Endpoint.mk eventsURL None)
          else if bool_decide (v = Some "recording")
                  || bool_decide (v = Some "recordings")
          then Some (Endpoint.mk recordingsURL None)
          else Some (Endpoint.mk cameraURL None).

(** [FrigateCamera.getEndpoints] *)
Definition FrigateCamera_getEndpoints (config : CameraConfig.t)
    (context : option (CameraEndpointsContext.t Date)) : option CameraEndpoints.t :=
  let base :=
    Camera_getEndpoints (FrigateCamera__getUIEndpoint config context)
      (FrigateCamera__getGo2RTCStreamEndpoint config)
      (_getWebRTCCardEndpoint config) in
  let jsmpeg := _getJSMPEGEndpoint config in
  if negb (bool_decide (is_Some base)) && negb (bool_decide (is_Some jsmpeg))
  then None
  else
    let base := default (CameraEndpoints.mk None None None None) base in
    Some (CameraEndpoints.mk (CameraEndpoints.ui base)
            (CameraEndpoints.go2rtc base)
            (jsmpeg ∪ CameraEndpoints.jsmpeg base)
            (CameraEndpoints.webrtcCard base)).

End Endpoints.

Arguments FrigateCamera__getUIEndpoint {Date}.
Arguments FrigateCamera_getEndpoints {Date}.

(** ** The grace timers and the event loop *)

(** No two pending timeouts share a handle. *)
Definition handlesDistinct (w : World) : Prop :=
  ∀ t t', t ∈ timeouts w → t' ∈ timeouts w → handle t = handle t' → t = t'.

(** The handle that the throttle holds was given out, and a pending
    timeout under this handle is the timeout of the throttle. *)
Definition throttleOwn (w : World) : Prop :=
  ∀ h, timerId (throttled w) = Some h →
    h < nextHandle w
    ∧ ∀ t, t ∈ timeouts w → handle t = h → callback t = CbThrottle.

(** Every timer of the store runs: its timeout is pending and untriggers
    the camera of the state that holds the timer. *)
Definition armed (w : World) : Prop :=
  ∀ c state timer, states w !! c = Some state →
    untriggerDelayTimer state = Some timer →
    ∃ t, t ∈ timeouts w ∧ handle t = timeoutHandle timer
         ∧ callback t = CbUntrigger c.

Record timersSound (w : World) : Prop := mkTimersSound {
  sound_bounded : handlesBounded w;
  sound_distinct : handlesDistinct w;
  sound_own : throttleOwn w;
  sound_armed : armed w;
}.

(** What the dispatcher side of the manager may do to the event loop:
    of the timeouts that are pending it clears at most the one whose
    handle the throttle holds, and the throttle keeps its handle, drops
    it, or takes a handle not used before. *)
Record sparing (w w' : World) : Prop := mkSparing {
  sparing_handles : nextHandle w ≤ nextHandle w';
  sparing_timerId :
    timerId (throttled w') = timerId (throttled w)
    ∨ timerId (throttled w') = None
    ∨ ∃ h, timerId (throttled w') = Some h
           ∧ nextHandle w ≤ h < nextHandle w';
  sparing_timeouts : ∀ t, t ∈ timeouts w → handle t < nextHandle w →
    timerId (throttled w) ≠ Some (handle t) → t ∈ timeouts w';
}.

(** What every piece of code keeps of the event loop: handles below the
    next handle, and no handle twice. *)
Definition tidy (w w' : World) : Prop :=
  handlesBounded w → handlesDistinct w →
  handlesBounded w' ∧ handlesDistinct w'.

(** ** Operations that overlap *)

(** [_untriggerAction] up to its [await]: the timer is deleted and
    [_executeUntriggerAction] is called, which makes its calls and hands
    back a promise; the completion is how that promise settles. *)
Definition _untriggerAction_begin (api : Env) (cameraID : string)
    : M (Completion bool) :=
  _deleteUntriggerDelayTimer cameraID;;
  settle (_executeUntriggerAction api).

(** [_untriggerAction] from its [await] on, once the promise has
    settled: a rejection is thrown on, otherwise the state is deleted. *)
Definition _untriggerAction_resume (cameraID : string)
    (settled : Completion bool) : M unit :=
  match settled with
  | Returned _ =>
      modify (setStates (delete cameraID));;
      _setConditionStateIfNecessary;;
      call CardElementUpdate
  | Thrown => throw
  end.

(** The expiry of the timeout [h] up to the [await] of
    [_untriggerAction], and the untrigger action that it leaves
    suspended there, if its callback is one. *)
Definition fireTimeout_begin (api : Env) (h : nat)
    : M (option (string * Completion bool)) :=
  w ← get;
  match List.find (λ t, bool_decide (handle t = h)) (timeouts w) with
  | Some t =>
      if Qle_bool (due t) (now w) then
        clearTimeout h;;
        match callback t with
        | CbUntrigger cameraID =>
            settled ← _untriggerAction_begin api cameraID;
            mret (Some (cameraID, settled))
        | CbThrottle =>
            Lodash.timerExpired (_triggerAction api) throttleSettings;;
            mret None
        end
      else mret None
  | None => mret None
  end.

(** The untrigger action that an expiry leaves suspended. *)
Definition leftSuspended (r : Completion (option (string * Completion bool)))
    : list (string * Completion bool) :=
  match r with
  | Returned (Some suspended) => [suspended]
  | _ => []
  end.

(** Worlds reached from a fresh manager when the untrigger action of an
    expired grace timer may stay suspended at its [await] while other
    operations run, with the untrigger actions that are suspended: each
    with its camera and with how the promise it awaits settles.  A
    suspended action resumes at any later time.  These are histories of
    the code, not all of them: the operations that run meanwhile run to
    their end. *)
Inductive reachableOverlapping (isTriggeredState : option string → bool)
    : World → list (string * Completion bool) → Prop :=
  | overlapping_initial t :
      reachableOverlapping isTriggeredState (initialWorld t) []
  | overlapping_step api op w suspended :
      reachableOverlapping isTriggeredState w suspended →
      reachableOverlapping isTriggeredState
        (step isTriggeredState api op w) suspended
  | overlapping_expire api h w suspended :
      reachableOverlapping isTriggeredState w suspended →
      reachableOverlapping isTriggeredState (fireTimeout_begin api h w).2
        (suspended ++ leftSuspended (fireTimeout_begin api h w).1)
  | overlapping_resume cameraID settled w before after :
      reachableOverlapping isTriggeredState w
        (before ++ (cameraID, settled) :: after) →
      reachableOverlapping isTriggeredState
        (_untriggerAction_resume cameraID settled w).2 (before ++ after).

(** The grace timer of camera 1 expires at time 11000; while its
    untrigger action awaits the navigation, the [end] event of camera 1
    is delivered once more; then the navigation is done and the
    untrigger action resumes. *)
Definition afterOverlap : World :=
  (_untriggerAction_resume "camera_1" (Returned true)
     (step sampleIsTriggeredState (graceApi false)
        (OpCameraEvent (sampleEvent "camera_1" "e1" EvEnd) false)
        (fireTimeout_begin (graceApi false) 1
           (step sampleIsTriggeredState (graceApi false) (OpAdvance 11000)
              graceWorld)).2)).2.

(** * Lemmas *)

Lemma Qlt_bool_iff x y : Qlt_bool x y = true ↔ (x < y)%Q.
Proof.
  unfold Qlt_bool. rewrite negb_true_iff. split.
  - intros H. apply Qnot_le_lt. intros Hle.
    apply Qle_bool_iff in Hle. congruence.
  - intros H. destruct (Qle_bool y x) eqn:E; [|done].
    apply Qle_bool_iff in E. exfalso. by apply (Qlt_not_le x y).
Qed.

(** ** Basic facts *)

Lemma world_eta w :
  {| now := now w; states := states w; timeouts := timeouts w;
     nextHandle := nextHandle w; throttled := throttled w; calls := calls w |} = w.
Proof. by destruct w. Qed.

Lemma setStates_id w : setStates (λ s, s) w = w.
Proof. apply world_eta. Qed.

Lemma alter_absent {A} (f : A → A) (k : string) (m : gmap string A) :
  m !! k = None → alter f k m = m.
Proof.
  intros H. apply map_eq. intros j. rewrite lookup_alter.
  case_decide; [subst; by rewrite H | done].
Qed.

Lemma bind_unfold {A B} (m : M A) (f : A → M B) w :
  (m ≫= f) w = match m w with
               | (Returned a, w') => f a w'
               | (Thrown, w') => (Thrown, w')
               end.
Proof. reflexivity. Qed.

Lemma size_zero_empty (X : gset string) : (size X =? 0)%nat = true ↔ X = ∅.
Proof. rewrite Nat.eqb_eq, size_empty_iff. by unfold_leibniz. Qed.

Lemma isStateTriggered_spec state :
  _isStateTriggered state = true ↔
  sources state ≠ ∅ ∨ is_Some (untriggerDelayTimer state).
Proof.
  unfold _isStateTriggered. rewrite orb_true_iff, negb_true_iff, bool_decide_eq_true.
  destruct (size (sources state) =? 0)%nat eqn:E.
  - apply size_zero_empty in E. split; intros [H|H]; auto; congruence.
  - split; intros [H|H]; auto. left. intros Heq.
    apply size_zero_empty in Heq. congruence.
Qed.

Lemma accepts_false_cases api cameraID :
  accepts api cameraID = false ↔
  config api = None
  ∨ truthy_string (selectedCamera api) = false
  ∨ ∃ tc, triggersConfig api = Some tc ∧ filter_selected_camera tc = true
          ∧ cameraID ∉ dependentCameras api (default "" (selectedCamera api)).
Proof.
  unfold accepts, triggersConfig. destruct (config api) as [c|]; simpl.
  - rewrite andb_false_iff, negb_false_iff, andb_true_iff, negb_true_iff,
      bool_decide_eq_false.
    split.
    + intros [H|[H1 H2]]; [by right; left|]. right; right. by eexists.
    + intros [H|[H|(tc & Htc & H1 & H2)]]; [done|by left|].
      right. by simplify_eq.
  - split; [by left|done].
Qed.

(** A rejected [new] or [update] event changes nothing. *)
Lemma handleCameraEvent_rejected api ev skipAction w :
  type ev ≠ EvEnd → accepts api (cameraID ev) = false →
  handleCameraEvent api ev skipAction w = (Returned false, w).
Proof.
  intros Hty Hacc. unfold handleCameraEvent, accepts in *.
  destruct (decide (type ev = EvEnd)); [done|].
  destruct (triggersConfig api) as [tc|]; [|done].
  destruct (truthy_string (selectedCamera api)); simpl in *; [|done].
  apply negb_false_iff in Hacc. by rewrite Hacc.
Qed.

(** ** The operations as explicit transformations of the world *)

Ltac munfold :=
  unfold mbind, M_bind, mret, M_ret, get, modify, call, throw, settle, await in *.

Lemma deleteTimer_eq c w :
  _deleteUntriggerDelayTimer c w = (Returned tt, cancelUntrigger c w).
Proof.
  unfold _deleteUntriggerDelayTimer, cancelUntrigger, Timer_stop, clearTimeout.
  munfold. simpl.
  destruct (states w !! c) as [st|]; simpl; [|done].
  by destruct (untriggerDelayTimer st).
Qed.

Lemma setConditionState_eq w :
  _setConditionStateIfNecessary w = (Returned tt, publish w).
Proof. reflexivity. Qed.

Lemma gate_eq api w :
  _hasAllowableInteractionStateForAction api w
  = (Returned (gate api), record HasInteraction w).
Proof. reflexivity. Qed.

Lemma setStates_same f w : f (states w) = states w → setStates f w = w.
Proof. intros H. unfold setStates. rewrite H. apply world_eta. Qed.

Lemma cancelUntrigger_unknown c w :
  states w !! c = None → cancelUntrigger c w = w.
Proof. intros H. unfold cancelUntrigger. by rewrite H. Qed.

Lemma startUntrigger_eq api c w :
  _startUntrigger api c w =
  match states (cancelUntrigger c w) !! c with
  | None => (Returned tt, cancelUntrigger c w)
  | Some _ =>
      if Qlt_bool 0 (untriggerSeconds api)
      then (Returned tt, startTimer c (untriggerSeconds api) (cancelUntrigger c w))
      else _untriggerAction api c (cancelUntrigger c w)
  end.
Proof.
  unfold _startUntrigger. rewrite bind_unfold, deleteTimer_eq, bind_unfold.
  unfold get at 1. fold (untriggerSeconds api).
  destruct (states (cancelUntrigger c w) !! c); [|done].
  by destruct (Qlt_bool 0 (untriggerSeconds api)).
Qed.

Lemma untriggerAction_eq api c w :
  _untriggerAction api c w =
  match _executeUntriggerAction api (cancelUntrigger c w) with
  | (Returned _, w1) =>
      (Returned tt, record CardElementUpdate (publish (setStates (delete c) w1)))
  | (Thrown, w1) => (Thrown, w1)
  end.
Proof.
  unfold _untriggerAction. rewrite bind_unfold, deleteTimer_eq, bind_unfold.
  by destruct (_executeUntriggerAction api (cancelUntrigger c w)) as [[r|] w1].
Qed.

Lemma handleCameraEvent_end_eq api ev skipAction w :
  type ev = EvEnd →
  handleCameraEvent api ev skipAction w =
  let w1 := setStates (alter (deleteSource (id ev)) (cameraID ev)) w in
  if sourcesExhausted (cameraID ev) w1 then
    match _startUntrigger api (cameraID ev) w1 with
    | (Returned _, w') => (Returned true, w')
    | (Thrown, w') => (Thrown, w')
    end
  else (Returned true, w1).
Proof.
  intros Hty. unfold handleCameraEvent, sourcesExhausted.
  destruct (decide (type ev = EvEnd)); [|done].
  rewrite bind_unfold. unfold modify at 1.
  rewrite bind_unfold. unfold get at 1. rewrite bind_unfold. simpl.
  set (w1 := setStates _ w).
  destruct (alter _ _ (states w) !! cameraID ev) as [st|]; [|done].
  by destruct (size (sources st) =? 0)%nat.
Qed.

Lemma handleCameraEvent_end_unknown api ev skipAction w :
  type ev = EvEnd → states w !! cameraID ev = None →
  handleCameraEvent api ev skipAction w = (Returned true, w).
Proof.
  intros Hty Hno. rewrite handleCameraEvent_end_eq by done. simpl.
  rewrite setStates_same by (by apply alter_absent).
  unfold sourcesExhausted. rewrite Hno.
  rewrite startUntrigger_eq, cancelUntrigger_unknown by done.
  by rewrite Hno.
Qed.

(** The completion of an [end] event is never "not accepted". *)
Lemma handleCameraEvent_end_completion api ev skipAction w :
  type ev = EvEnd →
  (handleCameraEvent api ev skipAction w).1 = Returned true
  ∨ (handleCameraEvent api ev skipAction w).1 = Thrown.
Proof.
  intros Hty. rewrite handleCameraEvent_end_eq by done. simpl.
  destruct (sourcesExhausted _ _); [|by left].
  destruct (_startUntrigger _ _ _) as [[[]|] w']; simpl; auto.
Qed.

Lemma viewManagerCall_returns api c w :
  viewManagerThrows api c = false →
  viewManagerCall api c w = (Returned tt, record c w).
Proof. intros H. unfold viewManagerCall. by rewrite H. Qed.

Lemma executeUntriggerAction_returns api w :
  (∀ c, viewManagerThrows api c = false) →
  (_executeUntriggerAction api w).1 = Returned true.
Proof.
  intros Hok. unfold _executeUntriggerAction.
  destruct (triggersConfig api) as [tc|]; simpl; [|done].
  destruct (untrigger (actions tc)); [done|].
  rewrite bind_unfold, gate_eq. destruct (gate api); [|done].
  rewrite bind_unfold, viewManagerCall_returns by done. done.
Qed.

Lemma untriggerAction_returns api c w :
  (∀ c, viewManagerThrows api c = false) →
  (_untriggerAction api c w).1 = Returned tt.
Proof.
  intros Hok. rewrite untriggerAction_eq.
  pose proof (executeUntriggerAction_returns api (cancelUntrigger c w) Hok) as H.
  destruct (_executeUntriggerAction api (cancelUntrigger c w)) as [r w1].
  simpl in H. by subst r.
Qed.

Lemma startUntrigger_returns api c w :
  (∀ c, viewManagerThrows api c = false) →
  (_startUntrigger api c w).1 = Returned tt.
Proof.
  intros Hok. rewrite startUntrigger_eq.
  destruct (states (cancelUntrigger c w) !! c); [|done].
  destruct (Qlt_bool _ _); [done|].
  by apply untriggerAction_returns.
Qed.

Lemma handleCameraEvent_end_returns api ev skipAction w :
  type ev = EvEnd → (∀ c, viewManagerThrows api c = false) →
  (handleCameraEvent api ev skipAction w).1 = Returned true.
Proof.
  intros Hty Hok. rewrite handleCameraEvent_end_eq by done. simpl.
  destruct (sourcesExhausted _ _); [|done].
  pose proof (startUntrigger_returns api (cameraID ev)
    (setStates (alter (deleteSource (id ev)) (cameraID ev)) w) Hok) as H.
  destruct (_startUntrigger _ _ _) as [r w']. simpl in H. by subst r.
Qed.

Lemma handleCameraEvent_new_eq api ev skipAction w :
  type ev ≠ EvEnd → accepts api (cameraID ev) = true →
  handleCameraEvent api ev skipAction w =
  if skipAction then (Returned true, acceptNew ev w)
  else match _throttledTriggerAction api ev (acceptNew ev w) with
       | (Returned _, w') => (Returned true, w')
       | (Thrown, w') => (Thrown, w')
       end.
Proof.
  intros Hty Hacc. unfold handleCameraEvent, accepts in *.
  destruct (decide (type ev = EvEnd)); [done|].
  destruct (triggersConfig api) as [tc|]; [|done].
  destruct (truthy_string (selectedCamera api)); simpl in *; [|done].
  apply negb_true_iff in Hacc. rewrite Hacc.
  rewrite bind_unfold. unfold get at 1.
  rewrite bind_unfold. unfold modify at 1.
  rewrite bind_unfold. unfold modify at 1.
  rewrite bind_unfold, deleteTimer_eq.
  rewrite bind_unfold, setConditionState_eq.
  rewrite bind_unfold. fold (touch ev w). fold (acceptNew ev w).
  by destruct skipAction.
Qed.

Lemma viewManagerCalls_record c w :
  viewManagerCalls (record c w)
  = viewManagerCalls w ++ (if isViewManagerCall c then [c] else []).
Proof.
  unfold viewManagerCalls. simpl. rewrite List.filter_app. simpl.
  by destruct (isViewManagerCall c).
Qed.

Lemma viewManagerCalls_publish w : viewManagerCalls (publish w) = viewManagerCalls w.
Proof. unfold publish. rewrite viewManagerCalls_record. simpl. apply app_nil_r. Qed.

Lemma gate_refines_isActionAllowed api cfg :
  config api = Some cfg →
  gate api = isActionAllowed (interaction_mode (actions (triggers (view cfg))))
               (hasInteraction api).
Proof.
  intros H. unfold gate, triggersConfig. rewrite H. simpl.
  destruct (interaction_mode _), (hasInteraction api); reflexivity.
Qed.

Lemma triggerAction_eq api ev w :
  _triggerAction api ev w =
  if suppressed api ev then (Returned tt, w)
  else
    let w1 := record HasInteraction w in
    match (if gate api then dispatch api ev else None) with
    | Some c =>
        if viewManagerThrows api c then (Thrown, record c w1)
        else (Returned tt, record CardElementUpdate (record c w1))
    | None => (Returned tt, record CardElementUpdate w1)
    end.
Proof.
  unfold _triggerAction, suppressed, dispatch.
  destruct (_ && _); [done|].
  rewrite bind_unfold, gate_eq, bind_unfold. simpl.
  destruct (gate api); [|done].
  destruct (triggerAction api) as [[]|]; try done;
    try (unfold viewManagerCall; by destruct (viewManagerThrows api _)).
  destruct (bool_decide (fidelity ev = Some high)); [|done].
  unfold viewManagerCall; by destruct (viewManagerThrows api _).
Qed.

Lemma triggerAction_suppressed api ev w :
  suppressed api ev = true → _triggerAction api ev w = (Returned tt, w).
Proof. intros H. unfold _triggerAction. unfold suppressed in H. by rewrite H. Qed.

Section Preserves.
Context (R : relation World) `{!PreOrder R}.

Lemma preserves_ret {A} (a : A) : preserves R (mret a).
Proof. intros w. reflexivity. Qed.

Lemma preserves_get : preserves R get.
Proof. intros w. reflexivity. Qed.

Lemma preserves_throw {A} : preserves R (@throw A).
Proof. intros w. reflexivity. Qed.

Lemma preserves_await p : preserves R (await p).
Proof. intros w. destruct p as [[]|]; reflexivity. Qed.

Lemma preserves_modify f : (∀ w, R w (f w)) → preserves R (modify f).
Proof. intros H w. apply H. Qed.

Lemma preserves_bind {A B} (m : M A) (f : A → M B) :
  preserves R m → (∀ a, preserves R (f a)) → preserves R (m ≫= f).
Proof.
  intros Hm Hf w. rewrite bind_unfold. specialize (Hm w).
  destruct (m w) as [[a|] w1]; simpl in *; [|done].
  etrans; [exact Hm|apply Hf].
Qed.

Lemma preserves_settle {A} (m : M A) : preserves R m → preserves R (settle m).
Proof.
  intros Hm w. unfold settle. specialize (Hm w). by destruct (m w).
Qed.

Lemma preserves_forEach {A S} (l : list A) (f : A → S → M S) s :
  (∀ x s, preserves R (f x s)) → preserves R (forEach l f s).
Proof.
  intros Hf. revert s. induction l as [|x l IH]; intros s; simpl.
  - apply preserves_ret.
  - apply preserves_bind; [apply Hf|apply IH].
Qed.
End Preserves.

#[global] Instance quiet_preorder : PreOrder quiet.
Proof.
  split.
  - intros w. split; auto.
  - intros w1 w2 w3 [Hs1 Hn1 Hh1 Ht1 Hc1] [Hs2 Hn2 Hh2 Ht2 Hc2].
    split; try congruence; [lia|].
    intros t Ht. destruct (Ht2 t Ht) as [H|[H1 H2]].
    + destruct (Ht1 t H) as [H'|[H1 H2]]; [by left|right; split; [done|lia]].
    + right. split; [done|lia].
Qed.

#[global] Instance fresh_preorder : PreOrder fresh.
Proof.
  split.
  - intros w. split; auto.
  - intros w1 w2 w3 [Hh1 Ht1] [Hh2 Ht2]. split; [lia|].
    intros t Ht. destruct (Ht2 t Ht) as [H|H].
    + destruct (Ht1 t H) as [H'|H']; [by left|right; lia].
    + right. lia.
Qed.

Lemma quiet_fresh w w' : quiet w w' → fresh w w'.
Proof.
  intros [_ _ Hh Ht _]. split; [done|].
  intros t H. destruct (Ht t H) as [?|[_ ?]]; auto.
Qed.

Lemma quiet_record c w : isThrottledCall c = None → quiet w (record c w).
Proof.
  intros Hc. split; simpl; auto.
  unfold throttledCalls. simpl. rewrite omap_app. simpl. rewrite Hc.
  apply app_nil_r.
Qed.

Lemma quiet_setThrottled f w : quiet w (setThrottled f w).
Proof. split; simpl; auto. Qed.

Lemma preserves_quiet_call c :
  isThrottledCall c = None → preserves quiet (call c).
Proof. intros Hc. apply preserves_modify. intros w. by apply quiet_record. Qed.

Lemma preserves_quiet_viewManagerCall api c :
  isThrottledCall c = None → preserves quiet (viewManagerCall api c).
Proof.
  intros Hc w. unfold viewManagerCall.
  destruct (viewManagerThrows api c); by apply quiet_record.
Qed.

Lemma preserves_quiet_setTimeout delay :
  preserves quiet (setTimeout CbThrottle delay).
Proof.
  intros w. split; simpl; auto.
  intros t [Ht|Ht]%elem_of_app; [by left|].
  apply list_elem_of_singleton in Ht. subst t. right. simpl. split; [done|lia].
Qed.

Lemma preserves_quiet_clearTimeout h : preserves quiet (clearTimeout h).
Proof.
  apply preserves_modify. intros w. split; simpl; auto.
  intros t Ht. left. apply list_elem_of_filter in Ht. tauto.
Qed.

Lemma preserves_quiet_publish : preserves quiet _setConditionStateIfNecessary.
Proof. intros w. rewrite setConditionState_eq. by apply quiet_record. Qed.

Lemma preserves_quiet_gate api :
  preserves quiet (_hasAllowableInteractionStateForAction api).
Proof. intros w. rewrite gate_eq. by apply quiet_record. Qed.

Ltac preserves_quiet :=
  repeat
    match goal with
    | |- PreOrder _ => apply _
    | |- preserves _ (mbind _ _) => apply preserves_bind; [..|intros ?]
    | |- preserves _ (mret _) => apply preserves_ret
    | |- preserves _ get => apply preserves_get
    | |- preserves _ throw => apply preserves_throw
    | |- preserves _ (await _) => apply preserves_await
    | |- preserves _ (settle _) => apply preserves_settle
    | |- preserves _ (setTimeout CbThrottle _) => apply preserves_quiet_setTimeout
    | |- preserves _ (clearTimeout _) => apply preserves_quiet_clearTimeout
    | |- preserves _ _setConditionStateIfNecessary => apply preserves_quiet_publish
    | |- preserves _ (_hasAllowableInteractionStateForAction _) =>
        apply preserves_quiet_gate
    | |- preserves _ (viewManagerCall _ _) =>
        apply preserves_quiet_viewManagerCall; reflexivity
    | |- preserves _ (call _) => apply preserves_quiet_call; reflexivity
    | |- preserves _ (modify (setThrottled _)) =>
        apply preserves_modify; intros ?; apply quiet_setThrottled
    | |- preserves _ (match ?x with _ => _ end) => destruct x
    | |- preserves _ (let _ := _ in _) => cbv zeta
    end.

Lemma preserves_quiet_triggerAction api ev : preserves quiet (_triggerAction api ev).
Proof. unfold _triggerAction. preserves_quiet. Qed.

Lemma preserves_quiet_executeUntriggerAction api :
  preserves quiet (_executeUntriggerAction api).
Proof. unfold _executeUntriggerAction. preserves_quiet. Qed.

Section QuietDebounce.
Variable func : CameraEvent → M unit.
Variable settings : Lodash.Settings.
Hypothesis func_quiet : ∀ ev, preserves quiet (func ev).

Lemma preserves_quiet_invokeFunc time :
  preserves quiet (Lodash.invokeFunc func time).
Proof using func_quiet. unfold Lodash.invokeFunc. preserves_quiet. apply func_quiet. Qed.

Lemma preserves_quiet_leadingEdge time :
  preserves quiet (Lodash.leadingEdge func settings time).
Proof using func_quiet.
  unfold Lodash.leadingEdge. preserves_quiet. apply preserves_quiet_invokeFunc.
Qed.

Lemma preserves_quiet_trailingEdge time :
  preserves quiet (Lodash.trailingEdge func settings time).
Proof using func_quiet.
  unfold Lodash.trailingEdge. preserves_quiet. apply preserves_quiet_invokeFunc.
Qed.

Lemma preserves_quiet_timerExpired :
  preserves quiet (Lodash.timerExpired func settings).
Proof using func_quiet.
  unfold Lodash.timerExpired. preserves_quiet. apply preserves_quiet_trailingEdge.
Qed.

Lemma preserves_quiet_debounced ev :
  preserves quiet (Lodash.debounced func settings ev).
Proof using func_quiet.
  unfold Lodash.debounced. preserves_quiet;
    solve [apply preserves_quiet_leadingEdge | apply preserves_quiet_invokeFunc].
Qed.
End QuietDebounce.

Lemma throttledTriggerAction_quiet api ev w :
  quiet (record (ThrottledTriggerActionCall ev) w)
        (_throttledTriggerAction api ev w).2.
Proof.
  unfold _throttledTriggerAction. rewrite bind_unfold. unfold call, modify. simpl.
  set (w1 := record _ w).
  assert (preserves quiet
            (Lodash.debounced (_triggerAction api) throttleSettings ev
             ≫= λ promise, await promise)) as H.
  { preserves_quiet. apply preserves_quiet_debounced.
    apply preserves_quiet_triggerAction. }
  apply (H w1).
Qed.

Lemma throttledTriggerAction_states api ev w :
  states (_throttledTriggerAction api ev w).2 = states w.
Proof. by destruct (throttledTriggerAction_quiet api ev w). Qed.

Lemma throttledTriggerAction_throttledCalls api ev w :
  throttledCalls (_throttledTriggerAction api ev w).2 = throttledCalls w ++ [ev].
Proof.
  destruct (throttledTriggerAction_quiet api ev w) as [_ _ _ _ ->].
  unfold throttledCalls. simpl. by rewrite omap_app.
Qed.

Lemma scanned_nil api acc w : scanned api [] acc w = (acc, w).
Proof.
  unfold scanned. simpl. destruct acc as [t [e|]]; simpl; by rewrite orb_false_r.
Qed.

Lemma scanned_app api evs1 evs2 acc w :
  scanned api (evs1 ++ evs2) acc w
  = scanned api evs2 (scanned api evs1 acc w).1 (scanned api evs1 acc w).2.
Proof.
  unfold scanned, acceptedEvents. simpl.
  rewrite List.filter_app, foldl_app. f_equal. f_equal.
  - destruct evs1, evs2; simpl; rewrite ?orb_false_r, ?orb_true_r; done.
  - destruct (acc.2); [done|].
    by destruct (List.filter _ evs1).
Qed.

Lemma synthesizedFor_eq isTriggeredState api c es :
  synthesizedFor isTriggeredState api (c, es)
  = (λ entityID, mkCameraEvent c entityID EvNew None None None)
    <$> List.filter (λ entityID, isTriggeredState (hass api ≫= (.!! entityID))) es.
Proof. reflexivity. Qed.

Lemma scanned_singleton api ev acc w :
  scanned api [ev] acc w
  = if accepts api (cameraID ev)
    then ((true, Some (default ev acc.2)), acceptNew ev w)
    else ((true, acc.2), w).
Proof.
  unfold scanned, acceptedEvents. cbn [List.filter].
  destruct acc as [t s]. rewrite orb_true_r.
  destruct (accepts api (cameraID ev)); by destruct s.
Qed.

Lemma scan_entities isTriggeredState api c entities acc w :
  forEach entities (inspectEntity isTriggeredState api c) acc w
  = (Returned (scanned api (synthesizedFor isTriggeredState api (c, entities)) acc w).1,
     (scanned api (synthesizedFor isTriggeredState api (c, entities)) acc w).2).
Proof.
  revert acc w. induction entities as [|e entities IH]; intros [t s] w.
  - rewrite synthesizedFor_eq. cbn [forEach List.filter fmap list_fmap].
    by rewrite scanned_nil.
  - rewrite synthesizedFor_eq. cbn [forEach List.filter]. rewrite bind_unfold.
    unfold inspectEntity at 1.
    destruct (isTriggeredState (hass api ≫= (.!! e))) eqn:Htrig.
    + cbv zeta. rewrite bind_unfold.
      set (event := mkCameraEvent c e EvNew None None None).
      rewrite fmap_cons. fold event.
      change (event :: ?l) with ([event] ++ l). rewrite scanned_app.
      rewrite <- synthesizedFor_eq, scanned_singleton.
      change (cameraID event) with c.
      destruct (accepts api c) eqn:Hacc.
      * rewrite handleCameraEvent_new_eq by done. cbn [mret M_ret]. by rewrite IH.
      * rewrite handleCameraEvent_rejected by done. cbn [mret M_ret]. by rewrite IH.
    + cbn [mret M_ret]. by rewrite IH, synthesizedFor_eq.
Qed.

Lemma scan_cameras isTriggeredState api cams acc w :
  forEach cams
    (λ '(cameraID, entities),
       forEach entities (inspectEntity isTriggeredState api cameraID)) acc w
  = (Returned (scanned api (flat_map (synthesizedFor isTriggeredState api) cams) acc w).1,
     (scanned api (flat_map (synthesizedFor isTriggeredState api) cams) acc w).2).
Proof.
  revert acc w. induction cams as [|[c es] cams IH]; intros acc w.
  - cbn [forEach flat_map]. by rewrite scanned_nil.
  - cbn [forEach flat_map]. rewrite bind_unfold, scan_entities, IH.
    by rewrite scanned_app.
Qed.

Lemma handleInitialCameraTriggers_eq isTriggeredState api w :
  handleInitialCameraTriggers isTriggeredState api w =
  let evs := synthesized isTriggeredState api in
  let w1 := foldl (λ w ev, acceptNew ev w) w (acceptedEvents api evs) in
  match head (acceptedEvents api evs) with
  | Some ev =>
      match _throttledTriggerAction api ev w1 with
      | (Returned _, w') => (Returned (negb (bool_decide (evs = []))), w')
      | (Thrown, w') => (Thrown, w')
      end
  | None => (Returned (negb (bool_decide (evs = []))), w1)
  end.
Proof.
  unfold handleInitialCameraTriggers. rewrite bind_unfold, scan_cameras.
  fold (synthesized isTriggeredState api). unfold scanned. simpl.
  destruct (head _) as [ev|]; [|done].
  rewrite bind_unfold. by destruct (_throttledTriggerAction _ _ _) as [[[]|] w'].
Qed.

Lemma anyTriggered_synthesized isTriggeredState api :
  anyTriggered isTriggeredState api
  = negb (bool_decide (synthesized isTriggeredState api = [])).
Proof.
  unfold anyTriggered, synthesized. induction (cameras api) as [|[c es] cams IH].
  - done.
  - simpl. rewrite IH. clear IH.
    assert (existsb (λ e, isTriggeredState (hass api ≫= (.!! e))) es
            = negb (bool_decide (synthesizedFor isTriggeredState api (c, es) = []))) as ->.
    { unfold synthesizedFor. simpl. induction es as [|e es IH]; [done|].
      simpl. destruct (isTriggeredState _); [done|]. by rewrite IH. }
    destruct (synthesizedFor _ _ _); [done|]. done.
Qed.

(** ** The store after an accepted event *)

Lemma elem_of_getTriggeredCameraIDs c w :
  c ∈ getTriggeredCameraIDs w ↔
  ∃ state, states w !! c = Some state ∧ _isStateTriggered state = true.
Proof.
  unfold getTriggeredCameraIDs. rewrite elem_of_dom. split.
  - intros [st Hst]. apply map_lookup_filter_Some in Hst as [H1 H2]. eauto.
  - intros (st & H1 & H2). exists st. by apply map_lookup_filter_Some.
Qed.

Lemma isTriggered_spec w :
  isTriggered w = true ↔ ∃ c, c ∈ getTriggeredCameraIDs w.
Proof.
  unfold isTriggered. rewrite existsb_exists. split.
  - intros (st & Hin & Htrig). apply list_elem_of_In, list_elem_of_fmap in Hin
      as ([c st'] & -> & Hin).
    apply elem_of_map_to_list in Hin. exists c.
    apply elem_of_getTriggeredCameraIDs. eauto.
  - intros (c & (st & Hst & Htrig)%elem_of_getTriggeredCameraIDs).
    exists st. split; [|done]. apply list_elem_of_In, list_elem_of_fmap.
    exists (c, st). split; [done|]. by apply elem_of_map_to_list.
Qed.

Lemma active_triggered c w : active c w → c ∈ getTriggeredCameraIDs w.
Proof.
  intros (st & Hst & Hne). apply elem_of_getTriggeredCameraIDs.
  exists st. split; [done|]. apply isStateTriggered_spec. by left.
Qed.

Lemma clearTimer_id state :
  untriggerDelayTimer state = None → clearTimer state = state.
Proof. destruct state as [t s u]. simpl. by intros ->. Qed.

Lemma cancelUntrigger_states c w :
  states (cancelUntrigger c w) = alter clearTimer c (states w).
Proof.
  unfold cancelUntrigger.
  destruct (states w !! c) as [st|] eqn:Hst; simpl.
  - destruct (untriggerDelayTimer st) eqn:Ht; [done|].
    apply map_eq. intros j. rewrite lookup_alter. case_decide; [|done].
    subst j. rewrite Hst. simpl. by rewrite clearTimer_id.
  - by rewrite alter_absent.
Qed.

Lemma cancelUntrigger_lookup c w :
  states (cancelUntrigger c w) !! c = clearTimer <$> states w !! c.
Proof.
  rewrite cancelUntrigger_states, lookup_alter. by case_decide.
Qed.

Lemma cancelUntrigger_lookup_ne c c' w :
  c ≠ c' → states (cancelUntrigger c w) !! c' = states w !! c'.
Proof.
  intros Hne. rewrite cancelUntrigger_states, lookup_alter. by case_decide.
Qed.

Lemma touch_lookup ev w :
  states (touch ev w) !! cameraID ev = Some (touched ev w).
Proof.
  unfold touch, touched. simpl. rewrite lookup_alter. case_decide; [|done].
  destruct (states w !! cameraID ev) as [st|] eqn:Hst.
  - rewrite lookup_alter. case_decide; [|done]. by rewrite Hst.
  - by rewrite lookup_insert_eq.
Qed.

Lemma touch_lookup_ne ev c w :
  cameraID ev ≠ c → states (touch ev w) !! c = states w !! c.
Proof.
  intros Hne. unfold touch. simpl. rewrite lookup_alter. case_decide; [done|].
  destruct (states w !! cameraID ev) as [st|] eqn:Hst.
  - rewrite lookup_alter. by case_decide.
  - by rewrite lookup_insert_ne.
Qed.

Lemma acceptNew_lookup ev w :
  states (acceptNew ev w) !! cameraID ev = Some (clearTimer (touched ev w)).
Proof.
  unfold acceptNew, publish. simpl. by rewrite cancelUntrigger_lookup, touch_lookup.
Qed.

Lemma acceptNew_lookup_ne ev c w :
  cameraID ev ≠ c → states (acceptNew ev w) !! c = states w !! c.
Proof.
  intros Hne. unfold acceptNew, publish. simpl.
  by rewrite cancelUntrigger_lookup_ne, touch_lookup_ne.
Qed.

Lemma touched_sources ev w :
  sources (touched ev w)
  = {[id ev]} ∪ from_option sources ∅ (states w !! cameraID ev).
Proof. unfold touched. by destruct (states w !! cameraID ev). Qed.

Lemma acceptNew_active ev w : active (cameraID ev) (acceptNew ev w).
Proof.
  eexists. split; [apply acceptNew_lookup|].
  change (sources (clearTimer ?s)) with (sources s).
  rewrite touched_sources. set_solver.
Qed.

Lemma acceptNew_active_mono ev c w : active c w → active c (acceptNew ev w).
Proof.
  intros (st & Hst & Hne).
  destruct (decide (cameraID ev = c)) as [<-|Hc]; [apply acceptNew_active|].
  exists st. by rewrite acceptNew_lookup_ne.
Qed.

Lemma cancelUntrigger_calls c w : calls (cancelUntrigger c w) = calls w.
Proof. unfold cancelUntrigger. by destruct (_ ≫= _). Qed.

Lemma cancelUntrigger_throttled c w : throttled (cancelUntrigger c w) = throttled w.
Proof. unfold cancelUntrigger. by destruct (_ ≫= _). Qed.

Lemma cancelUntrigger_now c w : now (cancelUntrigger c w) = now w.
Proof. unfold cancelUntrigger. by destruct (_ ≫= _). Qed.

Lemma cancelUntrigger_nextHandle c w : nextHandle (cancelUntrigger c w) = nextHandle w.
Proof. unfold cancelUntrigger. by destruct (_ ≫= _). Qed.

Lemma acceptNew_throttledCalls ev w :
  throttledCalls (acceptNew ev w) = throttledCalls w.
Proof.
  unfold acceptNew, publish, throttledCalls. simpl.
  rewrite omap_app, cancelUntrigger_calls. simpl. apply app_nil_r.
Qed.

Lemma acceptNew_throttled ev w : throttled (acceptNew ev w) = throttled w.
Proof. unfold acceptNew, publish. simpl. by rewrite cancelUntrigger_throttled. Qed.

Lemma foldl_acceptNew_active evs c w :
  active c w ∨ (∃ ev, ev ∈ evs ∧ cameraID ev = c) →
  active c (foldl (λ w ev, acceptNew ev w) w evs).
Proof.
  revert w. induction evs as [|ev evs IH]; intros w [H|(ev' & Hin & Hc)]; simpl.
  - done.
  - by apply not_elem_of_nil in Hin.
  - apply IH. left. by apply acceptNew_active_mono.
  - apply elem_of_cons in Hin as [->|Hin].
    + apply IH. left. subst c. apply acceptNew_active.
    + apply IH. right. eauto.
Qed.

Lemma foldl_acceptNew_throttledCalls evs w :
  throttledCalls (foldl (λ w ev, acceptNew ev w) w evs) = throttledCalls w.
Proof.
  revert w. induction evs as [|ev evs IH]; intros w; simpl; [done|].
  by rewrite IH, acceptNew_throttledCalls.
Qed.

Lemma foldl_acceptNew_throttled evs w :
  throttled (foldl (λ w ev, acceptNew ev w) w evs) = throttled w.
Proof.
  revert w. induction evs as [|ev evs IH]; intros w; simpl; [done|].
  by rewrite IH, acceptNew_throttled.
Qed.

Lemma elem_of_synthesized isTriggeredState api c es e :
  (c, es) ∈ cameras api → e ∈ es →
  isTriggeredState (hass api ≫= (.!! e)) = true →
  mkCameraEvent c e EvNew None None None ∈ synthesized isTriggeredState api.
Proof.
  intros Hc He Ht. unfold synthesized. apply list_elem_of_In, in_flat_map.
  exists (c, es). split; [by apply list_elem_of_In|].
  apply list_elem_of_In. rewrite synthesizedFor_eq. apply list_elem_of_fmap.
  exists e. split; [done|]. apply list_elem_of_In, filter_In.
  split; [by apply list_elem_of_In|done].
Qed.

Lemma elem_of_acceptedEvents api ev evs :
  ev ∈ acceptedEvents api evs ↔ ev ∈ evs ∧ accepts api (cameraID ev) = true.
Proof. unfold acceptedEvents. by rewrite !list_elem_of_In, filter_In. Qed.

Lemma acceptedEvents_none api evs :
  (∀ ev, ev ∈ evs → accepts api (cameraID ev) = false) →
  acceptedEvents api evs = [].
Proof.
  intros H. destruct (acceptedEvents api evs) as [|ev l] eqn:E; [done|].
  assert (ev ∈ acceptedEvents api evs) as Hin by (rewrite E; left).
  apply elem_of_acceptedEvents in Hin as [Hin Hacc].
  rewrite H in Hacc; done.
Qed.

(** ** The promise returned by the throttled dispatcher *)

Lemma invokeFunc_completion func time ev w :
  (∀ ev w, (func ev w).1 = Returned tt) →
  lastArgs (throttled w) = Some ev →
  (Lodash.invokeFunc func time w).1 = Returned (Some true).
Proof.
  intros Hfunc Hargs. unfold Lodash.invokeFunc. munfold. simpl. rewrite Hargs.
  specialize (Hfunc ev).
  match goal with |- context [func ev ?w1] =>
    specialize (Hfunc w1); destruct (func ev w1) as [[[]|] w2] end; done.
Qed.

Lemma debounced_completion func settings ev w :
  (∀ ev w, (func ev w).1 = Returned tt) →
  Lodash.leading settings = true →
  ∃ r, (Lodash.debounced func settings ev w).1 = Returned r
       ∧ (r = Some true ∨ r = result (throttled w)).
Proof.
  intros Hfunc Hlead. unfold Lodash.debounced.
  rewrite bind_unfold. unfold get at 1.
  rewrite bind_unfold. unfold modify at 1.
  rewrite bind_unfold. unfold modify at 1.
  rewrite bind_unfold. unfold get at 1.
  set (w1 := setThrottled _ (setThrottled _ w)).
  assert (lastArgs (throttled w1) = Some ev) as Hargs by done.
  assert (result (throttled w1) = result (throttled w)) as Hres by done.
  assert (timerId (throttled w1) = timerId (throttled w)) as Htid by done.
  destruct (Lodash.shouldInvoke settings (now w) (throttled w)),
    (timerId (throttled w1)) as [h|] eqn:Hh, (Lodash.maxWait settings) as [mw|].
  - exists (Some true). split; [|by left].
    rewrite bind_unfold. unfold clearTimeout, modify at 1.
    rewrite bind_unfold. unfold setTimeout at 1.
    rewrite bind_unfold. unfold modify at 1.
    by apply invokeFunc_completion with ev.
  - exists (result (throttled w)). split; [|by right]. by munfold.
  - exists (Some true). split; [|by left].
    unfold Lodash.leadingEdge. rewrite Hlead.
    rewrite bind_unfold. unfold modify at 1.
    rewrite bind_unfold. unfold setTimeout at 1.
    rewrite bind_unfold. unfold modify at 1.
    by apply invokeFunc_completion with ev.
  - exists (Some true). split; [|by left].
    unfold Lodash.leadingEdge. rewrite Hlead.
    rewrite bind_unfold. unfold modify at 1.
    rewrite bind_unfold. unfold setTimeout at 1.
    rewrite bind_unfold. unfold modify at 1.
    by apply invokeFunc_completion with ev.
  - exists (result (throttled w)). split; [|by right]. by munfold.
  - exists (result (throttled w)). split; [|by right]. by munfold.
  - exists (result (throttled w)). split; [|by right]. by munfold.
  - exists (result (throttled w)). split; [|by right]. by munfold.
Qed.

Lemma triggerAction_returns api ev w :
  (∀ c, viewManagerThrows api c = false) →
  (_triggerAction api ev w).1 = Returned tt.
Proof.
  intros Hok. rewrite triggerAction_eq.
  destruct (suppressed api ev); [done|]. simpl.
  destruct (if gate api then dispatch api ev else None) as [c|]; [|done].
  by rewrite Hok.
Qed.

Lemma throttledTriggerAction_returns api ev w :
  (∀ c, viewManagerThrows api c = false) →
  result (throttled w) ≠ Some false →
  (_throttledTriggerAction api ev w).1 = Returned tt.
Proof.
  intros Hok Hres. unfold _throttledTriggerAction.
  rewrite bind_unfold. unfold call, modify at 1. rewrite bind_unfold.
  set (w1 := record _ w).
  destruct (debounced_completion (_triggerAction api) throttleSettings ev w1)
    as (r & Hr & Hcases); [intros; by apply triggerAction_returns|done|].
  destruct (Lodash.debounced _ _ _ w1) as [c w2]. simpl in Hr. subst c.
  destruct Hcases as [->| ->]; [done|].
  simpl. by destruct (result (throttled w)) as [[]|].
Qed.

(** ** Handles of timeouts are never used twice *)

Lemma preserves_fresh_quiet {A} (m : M A) : preserves quiet m → preserves fresh m.
Proof. intros H w. apply quiet_fresh, H. Qed.

Lemma fresh_setStates f w : fresh w (setStates f w).
Proof. split; simpl; auto. Qed.

Lemma fresh_setNow t w : fresh w (setNow t w).
Proof. split; simpl; auto. Qed.

Lemma fresh_record c w : fresh w (record c w).
Proof. split; simpl; auto. Qed.

Lemma preserves_fresh_setTimeout cb delay : preserves fresh (setTimeout cb delay).
Proof.
  intros w. split; simpl; auto.
  intros t [Ht|Ht]%elem_of_app; [by left|].
  apply list_elem_of_singleton in Ht. subst t. right. simpl. lia.
Qed.

Lemma preserves_fresh_clearTimeout h : preserves fresh (clearTimeout h).
Proof. apply preserves_fresh_quiet, preserves_quiet_clearTimeout. Qed.

Lemma preserves_fresh_throttledTriggerAction api ev :
  preserves fresh (_throttledTriggerAction api ev).
Proof.
  intros w. etrans; [apply (fresh_record (ThrottledTriggerActionCall ev))|].
  apply quiet_fresh, throttledTriggerAction_quiet.
Qed.

Ltac preserves_fresh :=
  repeat
    match goal with
    | |- PreOrder _ => apply _
    | |- preserves _ (mbind _ _) => apply preserves_bind; [..|intros ?]
    | |- preserves _ (mret _) => apply preserves_ret
    | |- preserves _ get => apply preserves_get
    | |- preserves _ throw => apply preserves_throw
    | |- preserves _ (setTimeout _ _) => apply preserves_fresh_setTimeout
    | |- preserves _ (clearTimeout _) => apply preserves_fresh_clearTimeout
    | |- preserves _ (Timer_start _ _) => unfold Timer_start
    | |- preserves _ (Timer_stop _) => unfold Timer_stop
    | |- preserves _ _setConditionStateIfNecessary =>
        apply preserves_fresh_quiet, preserves_quiet_publish
    | |- preserves _ (_executeUntriggerAction _) =>
        apply preserves_fresh_quiet, preserves_quiet_executeUntriggerAction
    | |- preserves _ (_throttledTriggerAction _ _) =>
        apply preserves_fresh_throttledTriggerAction
    | |- preserves _ (Lodash.timerExpired _ _) =>
        apply preserves_fresh_quiet, preserves_quiet_timerExpired,
          preserves_quiet_triggerAction
    | |- preserves _ (call _) =>
        apply preserves_modify; intros ?; apply fresh_record
    | |- preserves _ (modify (setStates _)) =>
        apply preserves_modify; intros ?; apply fresh_setStates
    | |- preserves _ (modify (setNow _)) =>
        apply preserves_modify; intros ?; apply fresh_setNow
    | |- preserves _ (match ?x with _ => _ end) => destruct x
    | |- preserves _ (let _ := _ in _) => cbv zeta
    end.

Lemma preserves_fresh_deleteTimer c : preserves fresh (_deleteUntriggerDelayTimer c).
Proof. unfold _deleteUntriggerDelayTimer. preserves_fresh. Qed.

Lemma preserves_fresh_untriggerAction api c : preserves fresh (_untriggerAction api c).
Proof.
  unfold _untriggerAction. preserves_fresh. apply preserves_fresh_deleteTimer.
Qed.

Lemma preserves_fresh_startUntrigger api c : preserves fresh (_startUntrigger api c).
Proof.
  unfold _startUntrigger. preserves_fresh;
    solve [apply preserves_fresh_deleteTimer | apply preserves_fresh_untriggerAction].
Qed.

Lemma preserves_fresh_handleCameraEvent api ev skipAction :
  preserves fresh (handleCameraEvent api ev skipAction).
Proof.
  unfold handleCameraEvent. preserves_fresh;
    solve [apply preserves_fresh_deleteTimer | apply preserves_fresh_startUntrigger].
Qed.

Lemma preserves_fresh_handleInitialCameraTriggers isTriggeredState api :
  preserves fresh (handleInitialCameraTriggers isTriggeredState api).
Proof.
  unfold handleInitialCameraTriggers. apply preserves_bind; [apply _|..].
  - apply preserves_forEach; [apply _|]. intros [c es] s.
    apply preserves_forEach; [apply _|]. intros e [t su].
    unfold inspectEntity. preserves_fresh.
    apply preserves_fresh_handleCameraEvent.
  - intros [t su]. preserves_fresh.
Qed.

Lemma preserves_fresh_fireTimeout api h : preserves fresh (fireTimeout api h).
Proof.
  unfold fireTimeout, runCallback. preserves_fresh.
  apply preserves_fresh_untriggerAction.
Qed.

Lemma preserves_fresh_advance t : preserves fresh (advance t).
Proof. unfold advance. preserves_fresh. Qed.

(** Every operation leaves the handles in use untouched or retires them,
    and takes the handles of new timeouts from the unused ones. *)
Lemma step_fresh isTriggeredState api op w :
  fresh w (step isTriggeredState api op w).
Proof.
  unfold step. revert w. change (preserves fresh (perform isTriggeredState api op)).
  destruct op; simpl; preserves_fresh.
  - apply preserves_fresh_handleCameraEvent.
  - apply preserves_fresh_handleInitialCameraTriggers.
  - apply preserves_fresh_fireTimeout.
  - apply preserves_fresh_advance.
Qed.

Lemma fresh_handlesBounded w w' : fresh w w' → handlesBounded w → handlesBounded w'.
Proof.
  intros [Hh Ht] Hb t Hin. destruct (Ht t Hin) as [H|H]; [|lia].
  specialize (Hb t H). lia.
Qed.

Lemma reachable_handlesBounded isTriggeredState w :
  reachable isTriggeredState w → handlesBounded w.
Proof.
  induction 1 as [t|api op w Hw IH].
  - intros t' Hin. by apply not_elem_of_nil in Hin.
  - eapply fresh_handlesBounded; [apply step_fresh|done].
Qed.


(** ** The untrigger path, step by step *)

Lemma executeUntriggerAction_quiet api w : quiet w (_executeUntriggerAction api w).2.
Proof. apply preserves_quiet_executeUntriggerAction. Qed.

Lemma untriggerAction_states api c w :
  states (_untriggerAction api c w).2
  = match (_untriggerAction api c w).1 with
    | Returned _ => delete c (states w)
    | Thrown => alter clearTimer c (states w)
    end.
Proof.
  rewrite untriggerAction_eq.
  destruct (executeUntriggerAction_quiet api (cancelUntrigger c w)) as [Hst _ _ _ _].
  destruct (_executeUntriggerAction api (cancelUntrigger c w)) as [[r|] w1];
    simpl in *; rewrite Hst, cancelUntrigger_states; [|done].
  apply delete_alter_eq.
Qed.

Lemma cancelUntrigger_timeouts c w t :
  t ∈ timeouts (cancelUntrigger c w) ↔
  t ∈ timeouts w
  ∧ ∀ state timer, states w !! c = Some state →
      untriggerDelayTimer state = Some timer → handle t ≠ timeoutHandle timer.
Proof.
  unfold cancelUntrigger. destruct (states w !! c) as [st|]; simpl.
  - destruct (untriggerDelayTimer st) as [tm|] eqn:Htm; simpl.
    + rewrite list_elem_of_filter. split.
      * intros [H1 H2]. split; [done|]. intros st' tm' ? ?. by simplify_eq.
      * intros [H1 H2]. split; [|done]. by apply (H2 st tm).
    + split; [|tauto]. intros H. split; [done|]. intros st' tm' ? ?.
      by simplify_eq.
  - split; [|tauto]. intros H. split; [done|]. by intros.
Qed.

Lemma coherent_quiet w w' : quiet w w' → coherent w → coherent w'.
Proof.
  intros [Hst _ _ Ht _] Hco t c Hin Hcb.
  destruct (Ht t Hin) as [H|[H _]]; [|congruence].
  rewrite Hst. by apply Hco.
Qed.

Lemma noGrace_quiet c w w' : quiet w w' → noGrace c w → noGrace c w'.
Proof.
  intros [_ _ _ Ht _] Hno t Hin.
  destruct (Ht t Hin) as [H|[H _]]; [by apply Hno|congruence].
Qed.

Lemma coherent_cancelUntrigger c w :
  coherent w → coherent (cancelUntrigger c w) ∧ noGrace c (cancelUntrigger c w).
Proof.
  intros Hco.
  assert (noGrace c (cancelUntrigger c w)) as Hno.
  { intros t [Hin Hne]%cancelUntrigger_timeouts Hcb.
    destruct (Hco t c Hin Hcb) as (st & Hst & Htm & _).
    by apply (Hne st _ Hst Htm). }
  split; [|done]. intros t c' Hin Hcb.
  assert (c ≠ c') as Hc by (intros ->; by apply (Hno t)).
  apply cancelUntrigger_timeouts in Hin as [Hin _].
  rewrite cancelUntrigger_lookup_ne by done. by apply Hco.
Qed.

Lemma coherent_setStates c f w :
  coherent w → noGrace c w →
  (∀ c', c ≠ c' → f (states w) !! c' = states w !! c') →
  coherent (setStates f w).
Proof.
  intros Hco Hno Hf t c' Hin Hcb. simpl in *.
  assert (c ≠ c') as Hc by (intros ->; by apply (Hno t)).
  rewrite Hf by done. by apply Hco.
Qed.

Lemma coherent_record call w : coherent w → coherent (record call w).
Proof. intros Hco t c Hin Hcb. by apply Hco. Qed.

Lemma coherent_setNow t w : coherent w → coherent (setNow t w).
Proof. intros Hco t' c Hin Hcb. by apply Hco. Qed.

Lemma coherent_deleteSource s c w :
  coherent w → coherent (setStates (alter (deleteSource s) c) w).
Proof.
  intros Hco t c' Hin Hcb. simpl in *.
  destruct (Hco t c' Hin Hcb) as (st & Hst & Htm & Hsrc).
  rewrite lookup_alter. case_decide; [|eauto].
  subst c'. rewrite Hst. simpl. eexists. split; [done|]. simpl.
  split; [done|]. rewrite Hsrc. by apply empty_difference_L.
Qed.

Lemma coherent_acceptNew ev w : coherent w → coherent (acceptNew ev w).
Proof.
  intros Hco. apply coherent_record. intros t c' Hin Hcb.
  apply cancelUntrigger_timeouts in Hin as [Hin Hne].
  simpl in Hin. destruct (Hco t c' Hin Hcb) as (st & Hst & Htm & Hsrc).
  destruct (decide (cameraID ev = c')) as [<-|Hc].
  - exfalso. apply (Hne (touched ev w) (mkTimer (handle t))); [apply touch_lookup| |done].
    unfold touched. by rewrite Hst.
  - rewrite cancelUntrigger_lookup_ne, touch_lookup_ne by done. eauto.
Qed.

Lemma coherent_startTimer c seconds w state :
  coherent w → noGrace c w →
  states w !! c = Some state → sources state = ∅ →
  coherent (startTimer c seconds w).
Proof.
  intros Hco Hno Hst Hsrc t c' Hin Hcb. simpl in *.
  apply elem_of_app in Hin as [Hin|Hin].
  - assert (c ≠ c') as Hc by (intros ->; by apply (Hno t)).
    rewrite lookup_alter. case_decide; [done|]. by apply Hco.
  - apply list_elem_of_singleton in Hin. subst t. simpl in *.
    injection Hcb as <-. rewrite lookup_alter. case_decide; [|done].
    rewrite Hst. simpl. eauto.
Qed.

Lemma coherent_untriggerAction api c w :
  coherent w → coherent (_untriggerAction api c w).2.
Proof.
  intros Hco. rewrite untriggerAction_eq.
  destruct (coherent_cancelUntrigger c w Hco) as [Hco1 Hno1].
  pose proof (executeUntriggerAction_quiet api (cancelUntrigger c w)) as Hq.
  destruct (_executeUntriggerAction api (cancelUntrigger c w)) as [[r|] w1];
    simpl in *; [|by apply (coherent_quiet _ _ Hq)].
  do 2 apply coherent_record. apply coherent_setStates with c.
  - by apply (coherent_quiet _ _ Hq).
  - by apply (noGrace_quiet _ _ _ Hq).
  - intros c' Hc. by rewrite lookup_delete_ne.
Qed.

Lemma coherent_startUntrigger api c w :
  coherent w → sourcesExhausted c w = true →
  coherent (_startUntrigger api c w).2.
Proof.
  intros Hco Hex. rewrite startUntrigger_eq.
  destruct (coherent_cancelUntrigger c w Hco) as [Hco1 Hno1].
  destruct (states (cancelUntrigger c w) !! c) as [st|] eqn:Hst; [|done].
  destruct (Qlt_bool 0 (untriggerSeconds api)).
  - simpl. apply coherent_startTimer with st; [done..|].
    rewrite cancelUntrigger_lookup in Hst. unfold sourcesExhausted in Hex.
    destruct (states w !! c) as [st0|]; [|done]. simpl in Hst.
    injection Hst as <-. simpl. by apply size_zero_empty.
  - by apply coherent_untriggerAction.
Qed.

Lemma coherent_throttledTriggerAction api ev w :
  coherent w → coherent (_throttledTriggerAction api ev w).2.
Proof.
  intros Hco.
  apply (coherent_quiet _ _ (throttledTriggerAction_quiet api ev w)).
  by apply coherent_record.
Qed.

Lemma coherent_handleCameraEvent api ev skipAction w :
  coherent w → coherent (handleCameraEvent api ev skipAction w).2.
Proof.
  intros Hco. destruct (decide (type ev = EvEnd)) as [Hty|Hty].
  - rewrite handleCameraEvent_end_eq by done. cbv zeta.
    pose proof (coherent_deleteSource (id ev) (cameraID ev) w Hco) as Hco1.
    destruct (sourcesExhausted _ _) eqn:Hex; [|done].
    pose proof (coherent_startUntrigger api _ _ Hco1 Hex) as Hco2.
    by destruct (_startUntrigger _ _ _) as [[[]|] w'].
  - destruct (accepts api (cameraID ev)) eqn:Hacc.
    + rewrite handleCameraEvent_new_eq by done.
      pose proof (coherent_acceptNew ev w Hco) as Hco1.
      destruct skipAction; [done|].
      pose proof (coherent_throttledTriggerAction api ev _ Hco1) as Hco2.
      by destruct (_throttledTriggerAction _ _ _) as [[[]|] w'].
    + by rewrite handleCameraEvent_rejected.
Qed.

Lemma coherent_foldl_acceptNew evs w :
  coherent w → coherent (foldl (λ w ev, acceptNew ev w) w evs).
Proof.
  revert w. induction evs as [|ev evs IH]; intros w Hco; simpl; [done|].
  by apply IH, coherent_acceptNew.
Qed.

Lemma coherent_handleInitialCameraTriggers isTriggeredState api w :
  coherent w → coherent (handleInitialCameraTriggers isTriggeredState api w).2.
Proof.
  intros Hco. rewrite handleInitialCameraTriggers_eq. cbv zeta.
  pose proof (coherent_foldl_acceptNew
    (acceptedEvents api (synthesized isTriggeredState api)) w Hco) as Hco1.
  destruct (head _) as [ev|]; [|done].
  pose proof (coherent_throttledTriggerAction api ev _ Hco1) as Hco2.
  by destruct (_throttledTriggerAction _ _ _) as [[[]|] w'].
Qed.

Lemma fireTimeout_eq api h w :
  fireTimeout api h w =
  match List.find (λ t, bool_decide (handle t = h)) (timeouts w) with
  | Some t =>
      if Qle_bool (due t) (now w) then
        runCallback api (callback t)
          (setTimeouts (filter (λ t, handle t ≠ h)) w)
      else (Returned tt, w)
  | None => (Returned tt, w)
  end.
Proof.
  unfold fireTimeout. rewrite bind_unfold. unfold get at 1.
  destruct (List.find _ _) as [t|]; [|done].
  by destruct (Qle_bool _ _).
Qed.

Lemma coherent_clearTimeout h w :
  coherent w → coherent (setTimeouts (filter (λ t, handle t ≠ h)) w).
Proof.
  intros Hco t c Hin Hcb. simpl in *.
  apply list_elem_of_filter in Hin as [_ Hin]. by apply Hco.
Qed.

Lemma timerExpired_quiet api w :
  quiet w (Lodash.timerExpired (_triggerAction api) throttleSettings w).2.
Proof. apply preserves_quiet_timerExpired, preserves_quiet_triggerAction. Qed.

Lemma coherent_fireTimeout api h w :
  coherent w → coherent (fireTimeout api h w).2.
Proof.
  intros Hco. rewrite fireTimeout_eq.
  destruct (List.find _ _) as [t|]; [|done].
  destruct (Qle_bool _ _); [|done].
  pose proof (coherent_clearTimeout h w Hco) as Hco1.
  destruct (callback t) as [c|]; simpl.
  - by apply coherent_untriggerAction.
  - by apply (coherent_quiet _ _ (timerExpired_quiet api _)).
Qed.

Lemma coherent_step isTriggeredState api op w :
  coherent w → coherent (step isTriggeredState api op w).
Proof.
  intros Hco. unfold step. destruct op as [ev skip| |h|t]; simpl.
  - rewrite bind_unfold.
    pose proof (coherent_handleCameraEvent api ev skip w Hco).
    by destruct (handleCameraEvent _ _ _ _) as [[r|] w'].
  - rewrite bind_unfold.
    pose proof (coherent_handleInitialCameraTriggers isTriggeredState api w Hco).
    by destruct (handleInitialCameraTriggers _ _ _) as [[r|] w'].
  - by apply coherent_fireTimeout.
  - unfold advance. rewrite bind_unfold. unfold get at 1.
    destruct (Qle_bool _ _); [|done]. by apply coherent_setNow.
Qed.

Lemma reachable_coherent isTriggeredState w :
  reachable isTriggeredState w → coherent w.
Proof.
  induction 1 as [t|api op w Hw IH].
  - intros t' c Hin. by apply not_elem_of_nil in Hin.
  - by apply coherent_step.
Qed.

(** ** The store after the untrigger path *)

Lemma alter_clearTimer_idemp c (m : gmap string CameraTriggerState) :
  alter clearTimer c (alter clearTimer c m) = alter clearTimer c m.
Proof.
  apply map_eq. intros j. rewrite !lookup_alter.
  repeat case_decide; try done. by destruct (m !! c).
Qed.

Lemma startUntrigger_states api c w :
  states (_startUntrigger api c w).2
  = match states w !! c with
    | None => states w
    | Some _ =>
        if Qlt_bool 0 (untriggerSeconds api) then
          alter (setTimer (mkTimer (nextHandle w))) c (alter clearTimer c (states w))
        else
          match (_startUntrigger api c w).1 with
          | Returned _ => delete c (states w)
          | Thrown => alter clearTimer c (states w)
          end
    end.
Proof.
  rewrite startUntrigger_eq, cancelUntrigger_lookup.
  destruct (states w !! c) as [st|] eqn:Hst; simpl.
  - destruct (Qlt_bool 0 (untriggerSeconds api)).
    + simpl. by rewrite cancelUntrigger_states, cancelUntrigger_nextHandle.
    + rewrite untriggerAction_states.
      destruct (_untriggerAction _ _ _).1; rewrite cancelUntrigger_states.
      * apply delete_alter_eq.
      * apply alter_clearTimer_idemp.
  - by rewrite cancelUntrigger_states, alter_absent.
Qed.

Lemma startUntrigger_completion api c w :
  (_startUntrigger api c w).1 = Returned tt ∨ (_startUntrigger api c w).1 = Thrown.
Proof. destruct (_startUntrigger api c w).1 as [[]|]; auto. Qed.

Lemma handleCameraEvent_end_states api ev skipAction w :
  type ev = EvEnd →
  let r := handleCameraEvent api ev skipAction w in
  let m1 := alter (deleteSource (id ev)) (cameraID ev) (states w) in
  states r.2
  = match m1 !! cameraID ev with
    | None => m1
    | Some state =>
        if (size (sources state) =? 0) then
          if Qlt_bool 0 (untriggerSeconds api) then
            alter (setTimer (mkTimer (nextHandle w))) (cameraID ev)
              (alter clearTimer (cameraID ev) m1)
          else
            match r.1 with
            | Returned _ => delete (cameraID ev) m1
            | Thrown => alter clearTimer (cameraID ev) m1
            end
        else m1
    end.
Proof.
  intros Hty. cbv zeta. rewrite handleCameraEvent_end_eq by done. cbv zeta.
  set (w1 := setStates _ w). unfold sourcesExhausted.
  change (states w1) with (alter (deleteSource (id ev)) (cameraID ev) (states w)).
  pose proof (startUntrigger_states api (cameraID ev) w1) as Hst.
  change (states w1) with (alter (deleteSource (id ev)) (cameraID ev) (states w)) in Hst.
  change (nextHandle w1) with (nextHandle w) in Hst.
  destruct (alter _ _ (states w) !! cameraID ev) as [st|] eqn:Hlk.
  - destruct (size (sources st) =? 0); [|done].
    destruct (_startUntrigger api (cameraID ev) w1) as [[[]|] w']; simpl in *; done.
  - by destruct (_startUntrigger api (cameraID ev) w1) as [[[]|] w'].
Qed.

(** Cameras other than the one of the event keep their state. *)
Lemma handleCameraEvent_other_cameras api ev skipAction c w :
  cameraID ev ≠ c →
  states (handleCameraEvent api ev skipAction w).2 !! c = states w !! c.
Proof.
  intros Hc. destruct (decide (type ev = EvEnd)) as [Hty|Hty].
  - rewrite handleCameraEvent_end_states by done.
    assert (alter (deleteSource (id ev)) (cameraID ev) (states w) !! c
            = states w !! c) as H1.
    { rewrite lookup_alter. by case_decide. }
    repeat case_match;
      rewrite ?lookup_delete_ne by done;
      repeat (rewrite lookup_alter; case_decide; [done|]); done.
  - destruct (accepts api (cameraID ev)) eqn:Hacc.
    + rewrite handleCameraEvent_new_eq by done.
      destruct skipAction; [by apply acceptNew_lookup_ne|].
      pose proof (throttledTriggerAction_states api ev (acceptNew ev w)) as Hst.
      destruct (_throttledTriggerAction _ _ _) as [[[]|] w']; simpl in *;
        rewrite Hst; by apply acceptNew_lookup_ne.
    + by rewrite handleCameraEvent_rejected.
Qed.

Lemma setTimer_triggered timer state : _isStateTriggered (setTimer timer state) = true.
Proof. apply isStateTriggered_spec. right. simpl. eauto. Qed.

Lemma noTombstones_acceptNew ev w : noTombstones w → noTombstones (acceptNew ev w).
Proof.
  intros Hno c st. destruct (decide (cameraID ev = c)) as [<-|Hc].
  - rewrite acceptNew_lookup. intros [= <-]. apply isStateTriggered_spec. left.
    change (sources (clearTimer ?s)) with (sources s).
    rewrite touched_sources. set_solver.
  - rewrite acceptNew_lookup_ne by done. apply Hno.
Qed.

Lemma noTombstones_foldl_acceptNew evs w :
  noTombstones w → noTombstones (foldl (λ w ev, acceptNew ev w) w evs).
Proof.
  revert w. induction evs as [|ev evs IH]; intros w Hno; simpl; [done|].
  by apply IH, noTombstones_acceptNew.
Qed.

Lemma noTombstones_states w w' :
  states w' = states w → noTombstones w → noTombstones w'.
Proof. unfold noTombstones. by intros ->. Qed.

Lemma noTombstones_handleCameraEvent api ev skipAction w :
  noTombstones w →
  (handleCameraEvent api ev skipAction w).1 ≠ Thrown ∨ type ev ≠ EvEnd →
  noTombstones (handleCameraEvent api ev skipAction w).2.
Proof.
  intros Hno Hret c st. destruct (decide (cameraID ev = c)) as [<-|Hc];
    [|rewrite handleCameraEvent_other_cameras by done; apply Hno].
  destruct (decide (type ev = EvEnd)) as [Hty|Hty].
  - destruct Hret as [Hret|]; [|done].
    rewrite handleCameraEvent_end_states by done.
    destruct (alter _ _ (states w) !! cameraID ev) as [st1|] eqn:Hlk.
    + destruct (size (sources st1) =? 0) eqn:Hsz.
      * destruct (Qlt_bool 0 (untriggerSeconds api)).
        -- rewrite lookup_alter. case_decide; [|done].
           rewrite lookup_alter. case_decide; [|done]. rewrite Hlk. simpl.
           intros [= <-]. apply setTimer_triggered.
        -- destruct (handleCameraEvent _ _ _ _).1; [|done].
           by rewrite lookup_delete_eq.
      * rewrite Hlk. intros [= <-]. unfold _isStateTriggered. by rewrite Hsz.
    + by rewrite Hlk.
  - destruct (accepts api (cameraID ev)) eqn:Hacc.
    + pose proof (noTombstones_acceptNew ev w Hno) as Hno1.
      rewrite handleCameraEvent_new_eq by done.
      destruct skipAction; [apply Hno1|].
      pose proof (throttledTriggerAction_states api ev (acceptNew ev w)) as Hst.
      destruct (_throttledTriggerAction _ _ _) as [[[]|] w']; simpl in *;
        rewrite Hst; apply Hno1.
    + rewrite handleCameraEvent_rejected by done. apply Hno.
Qed.

Lemma noTombstones_handleInitialCameraTriggers isTriggeredState api w :
  noTombstones w →
  noTombstones (handleInitialCameraTriggers isTriggeredState api w).2.
Proof.
  intros Hno. rewrite handleInitialCameraTriggers_eq. cbv zeta.
  pose proof (noTombstones_foldl_acceptNew
    (acceptedEvents api (synthesized isTriggeredState api)) w Hno) as Hno1.
  destruct (head _) as [ev|]; [|done].
  pose proof (throttledTriggerAction_states api ev
    (foldl (λ w ev, acceptNew ev w) w
       (acceptedEvents api (synthesized isTriggeredState api)))) as Hst.
  destruct (_throttledTriggerAction _ _ _) as [[[]|] w']; simpl in *;
    by apply (noTombstones_states _ _ Hst).
Qed.

Lemma noTombstones_fireTimeout api h w :
  noTombstones w → (fireTimeout api h w).1 ≠ Thrown →
  noTombstones (fireTimeout api h w).2.
Proof.
  intros Hno. rewrite fireTimeout_eq.
  destruct (List.find _ _) as [t|]; [|done].
  destruct (Qle_bool _ _); [|done].
  set (w1 := setTimeouts _ w).
  destruct (callback t) as [c|]; simpl.
  - intros Hret c' st. rewrite untriggerAction_states.
    destruct (_untriggerAction api c w1).1; [|done].
    destruct (decide (c = c')) as [<-|Hc];
      [by rewrite lookup_delete_eq|rewrite lookup_delete_ne by done].
    apply Hno.
  - intros _. apply (noTombstones_states w); [|done].
    by destruct (timerExpired_quiet api w1).
Qed.

Lemma noTombstones_step isTriggeredState api op w :
  noTombstones w →
  (perform isTriggeredState api op w).1 = Returned tt →
  noTombstones (step isTriggeredState api op w).
Proof.
  intros Hno. unfold step. destruct op as [ev skip| |h|t]; simpl.
  - rewrite bind_unfold.
    pose proof (noTombstones_handleCameraEvent api ev skip w Hno) as H.
    destruct (handleCameraEvent _ _ _ _) as [[r|] w']; simpl in *; [|done].
    intros _. apply H. by left.
  - rewrite bind_unfold.
    pose proof (noTombstones_handleInitialCameraTriggers isTriggeredState api w Hno).
    by destruct (handleInitialCameraTriggers _ _ _) as [[r|] w'].
  - intros Hret. apply noTombstones_fireTimeout; [done|]. by rewrite Hret.
  - intros _. unfold advance. rewrite bind_unfold. unfold get at 1.
    by destruct (Qle_bool _ _).
Qed.

(** ** A throwing view manager *)

Lemma step_cameraEvent isTriggeredState api ev skipAction w :
  step isTriggeredState api (OpCameraEvent ev skipAction) w
  = (handleCameraEvent api ev skipAction w).2.
Proof.
  unfold step. simpl. rewrite bind_unfold.
  by destruct (handleCameraEvent _ _ _ _) as [[r|] w'].
Qed.

Lemma step_initialCameraTriggers isTriggeredState api w :
  step isTriggeredState api OpInitialCameraTriggers w
  = (handleInitialCameraTriggers isTriggeredState api w).2.
Proof.
  unfold step. simpl. rewrite bind_unfold.
  by destruct (handleInitialCameraTriggers _ _ _) as [[r|] w'].
Qed.

Lemma step_timeout isTriggeredState api h w :
  step isTriggeredState api (OpTimeout h) w = (fireTimeout api h w).2.
Proof. reflexivity. Qed.

Lemma step_advance isTriggeredState api t w :
  step isTriggeredState api (OpAdvance t) w
  = if Qle_bool (now w) t then setNow t w else w.
Proof.
  unfold step. simpl. unfold advance. rewrite bind_unfold. unfold get at 1.
  by destruct (Qle_bool _ _).
Qed.







Lemma find_handle_elem_of h (l : list Timeout) t :
  List.find (λ t, bool_decide (handle t = h)) l = Some t → t ∈ l ∧ handle t = h.
Proof.
  intros [Hin Hh]%find_some. split; [by apply list_elem_of_In|].
  by apply bool_decide_eq_true in Hh.
Qed.


(** ** Grace timers *)


Lemma find_handle_last (l : list Timeout) timeout :
  (∀ t, t ∈ l → handle t ≠ handle timeout) →
  List.find (λ t, bool_decide (handle t = handle timeout)) (l ++ [timeout])
  = Some timeout.
Proof.
  intros H. induction l as [|t l IH]; simpl.
  - by rewrite bool_decide_eq_true_2.
  - rewrite bool_decide_eq_false_2 by (apply H; left).
    apply IH. intros t' Hin. apply H. by right.
Qed.




Lemma advance_states isTriggeredState api t w :
  states (step isTriggeredState api (OpAdvance t) w) = states w.
Proof. rewrite step_advance. by destruct (Qle_bool _ _). Qed.





Lemma handleCameraEvent_new_states api ev skipAction w :
  type ev ≠ EvEnd → accepts api (cameraID ev) = true →
  states (handleCameraEvent api ev skipAction w).2 = states (acceptNew ev w).
Proof.
  intros Hty Hacc. rewrite handleCameraEvent_new_eq by done.
  destruct skipAction; [done|].
  pose proof (throttledTriggerAction_states api ev (acceptNew ev w)) as Hst.
  by destruct (_throttledTriggerAction _ _ _) as [[[]|] w'].
Qed.


Lemma handleCameraEvent_new_now api ev skipAction w :
  type ev ≠ EvEnd → accepts api (cameraID ev) = true →
  now (handleCameraEvent api ev skipAction w).2 = now w.
Proof.
  intros Hty Hacc. rewrite handleCameraEvent_new_eq by done.
  assert (now (acceptNew ev w) = now w) as Hn.
  { unfold acceptNew, publish. simpl. by rewrite cancelUntrigger_now. }
  destruct skipAction; [done|].
  destruct (throttledTriggerAction_quiet api ev (acceptNew ev w)) as [_ Hq _ _ _].
  destruct (_throttledTriggerAction _ _ _) as [[[]|] w']; simpl in *; congruence.
Qed.


Lemma acceptNew_nextHandle ev w : nextHandle (acceptNew ev w) = nextHandle w.
Proof. unfold acceptNew, publish. simpl. by rewrite cancelUntrigger_nextHandle. Qed.

(** ** A repeated [end] event *)



Lemma triggerAction_calls api ev w :
  ∃ l, (_triggerAction api ev w).2 = appendCalls l w
       ∧ omap isTriggerActionCall l = [].
Proof.
  rewrite triggerAction_eq. destruct (suppressed api ev).
  { exists []. split; [|done]. unfold appendCalls. simpl.
    by rewrite app_nil_r, world_eta. }
  cbv zeta. destruct (if gate api then dispatch api ev else None) as [c|] eqn:Hd.
  - assert (isTriggerActionCall c = None) as Hc.
    { destruct (gate api); [|done]. unfold dispatch in Hd.
      repeat case_match; by simplify_eq. }
    destruct (viewManagerThrows api c).
    + exists [HasInteraction; c]. split; [|by simpl; rewrite Hc].
      unfold appendCalls, record. simpl. by rewrite <- app_assoc.
    + exists [HasInteraction; c; CardElementUpdate].
      split; [|by simpl; rewrite Hc].
      unfold appendCalls, record. simpl. by rewrite <- !app_assoc.
  - exists [HasInteraction; CardElementUpdate]. split; [|done].
    unfold appendCalls, record. simpl. by rewrite <- app_assoc.
Qed.

Lemma throttled_leading api ev w :
  timerId (throttled w) = None →
  Lodash.shouldInvoke throttleSettings (now w) (throttled w) = true →
  ∃ l r,
    (_throttledTriggerAction api ev w).2
    = {| now := now w; states := states w;
         timeouts := timeouts w
                     ++ [mkTimeout (nextHandle w) (now w + throttleWait) CbThrottle];
         nextHandle := S (nextHandle w);
         throttled := {| lastArgs := None; lastCallTime := Some (now w);
                         lastInvokeTime := now w;
                         timerId := Some (nextHandle w); result := r |};
         calls := calls w
                  ++ [ThrottledTriggerActionCall ev; TriggerActionCall ev] ++ l |}
    ∧ omap isTriggerActionCall l = [].
Proof.
  intros Htid Hinv.
  unfold _throttledTriggerAction, Lodash.debounced.
  rewrite bind_unfold. unfold call, modify at 1.
  rewrite bind_unfold, bind_unfold. unfold get at 1.
  change (now (record _ w)) with (now w).
  change (throttled (record _ w)) with (throttled w). rewrite Hinv.
  rewrite bind_unfold. unfold modify at 1.
  rewrite bind_unfold. unfold modify at 1.
  rewrite bind_unfold. unfold get at 1.
  cbn [throttled setThrottled timerId Lodash.setLastCallTime Lodash.setLastArgs record].
  rewrite Htid.
  unfold Lodash.leadingEdge. 
  rewrite bind_unfold. unfold modify at 1.
  rewrite bind_unfold. unfold setTimeout at 1.
  rewrite bind_unfold. unfold modify at 1.
  change (Lodash.leading throttleSettings) with true. cbv iota.
  unfold Lodash.invokeFunc.
  rewrite bind_unfold. unfold get at 1.
  cbn [throttled setThrottled lastArgs Lodash.setLastCallTime Lodash.setLastArgs Lodash.setTimerId Lodash.setLastInvokeTime ].
  rewrite bind_unfold. unfold modify at 1.
  rewrite bind_unfold. unfold modify at 1.
  rewrite bind_unfold, bind_unfold. unfold call, modify at 1.
  unfold settle.
  match goal with |- context [_triggerAction api ev ?W] =>
    destruct (triggerAction_calls api ev W) as (l & Heq & Hl);
    destruct (_triggerAction api ev W) as [c w'] end.
  simpl in Heq. subst w'. 
  exists l, (Some match c with Returned _ => true | Thrown => false end).
  split; [|done].
  rewrite bind_unfold. unfold modify at 1. unfold mret, M_ret.
  destruct c as [[]|]; unfold await, appendCalls, record, setThrottled; simpl;
    by rewrite <- !app_assoc.
Qed.

(** The throttle's window is open: a timeout is pending and neither the
    wait since the last call nor the wait since the last invocation has
    elapsed. *)
Lemma throttled_within_window api ev w h :
  timerId (throttled w) = Some h →
  Lodash.shouldInvoke throttleSettings (now w) (throttled w) = false →
  (_throttledTriggerAction api ev w).2
  = {| now := now w; states := states w; timeouts := timeouts w;
       nextHandle := nextHandle w;
       throttled := Lodash.setLastCallTime (now w)
                      (Lodash.setLastArgs (Some ev) (throttled w));
       calls := calls w ++ [ThrottledTriggerActionCall ev] |}.
Proof.
  intros Htid Hinv.
  unfold _throttledTriggerAction, Lodash.debounced.
  rewrite bind_unfold. unfold call, modify at 1.
  rewrite bind_unfold, bind_unfold. unfold get at 1.
  change (now (record _ w)) with (now w).
  change (throttled (record _ w)) with (throttled w). rewrite Hinv.
  rewrite bind_unfold. unfold modify at 1.
  rewrite bind_unfold. unfold modify at 1.
  rewrite bind_unfold. unfold get at 1.
  cbn [throttled setThrottled timerId Lodash.setLastCallTime Lodash.setLastArgs record].
  rewrite Htid. unfold mret, M_ret.
  cbn [result Lodash.setLastCallTime Lodash.setLastArgs].
  by destruct (result (throttled w)) as [[]|].
Qed.

Lemma timerExpired_trailing api w :
  Lodash.shouldInvoke throttleSettings (now w) (throttled w) = true →
  ∃ l r,
    (Lodash.timerExpired (_triggerAction api) throttleSettings w).2
    = match lastArgs (throttled w) with
      | Some ev =>
          {| now := now w; states := states w; timeouts := timeouts w;
             nextHandle := nextHandle w;
             throttled := {| lastArgs := None;
                             lastCallTime := lastCallTime (throttled w);
                             lastInvokeTime := now w;
                             timerId := None; result := r |};
             calls := calls w ++ [TriggerActionCall ev] ++ l |}
      | None => setThrottled (Lodash.setTimerId None) w
      end
    ∧ omap isTriggerActionCall l = [].
Proof.
  intros Hinv. unfold Lodash.timerExpired.
  rewrite bind_unfold. unfold get at 1. rewrite Hinv.
  rewrite bind_unfold. unfold Lodash.trailingEdge.
  rewrite bind_unfold. unfold modify at 1.
  rewrite bind_unfold. unfold get at 1.
  change (Lodash.trailing throttleSettings) with true.
  cbn [throttled setThrottled lastArgs Lodash.setTimerId andb].
  destruct (lastArgs (throttled w)) as [ev|] eqn:Hargs.
  - rewrite bool_decide_eq_true_2 by eauto.
    unfold Lodash.invokeFunc.
    rewrite bind_unfold. unfold get at 1.
    cbn [throttled setThrottled lastArgs Lodash.setTimerId]. rewrite Hargs.
    rewrite bind_unfold. unfold modify at 1.
    rewrite bind_unfold. unfold modify at 1.
    rewrite bind_unfold, bind_unfold. unfold call, modify at 1.
    unfold settle.
    match goal with |- context [_triggerAction api ev ?W] =>
      destruct (triggerAction_calls api ev W) as (l & Heq & Hl);
      destruct (_triggerAction api ev W) as [c w'] end.
    simpl in Heq. subst w'.
    exists l, (Some match c with Returned _ => true | Thrown => false end).
    split; [|done].
    rewrite bind_unfold. unfold modify at 1. unfold mret, M_ret.
    unfold appendCalls, record, setThrottled. simpl.
    by rewrite <- !app_assoc.
  - rewrite bool_decide_eq_false_2 by (by intros [? ?]).
    exists [], None. split; [|done].
    rewrite bind_unfold. unfold modify at 1. unfold mret, M_ret. simpl.
    destruct w as [n s t h d c]. simpl in *. destruct d. simpl in *. by subst.
Qed.

Lemma throttleSettings_eq :
  throttleSettings
  = {| Lodash.wait := 1000; Lodash.leading := true;
       Lodash.maxWait := Some 1000%Q; Lodash.trailing := true |}.
Proof. reflexivity. Qed.

Lemma shouldInvoke_false_iff time d :
  Lodash.shouldInvoke throttleSettings time d = false ↔
  ∃ tc, lastCallTime d = Some tc
        ∧ (time - tc < 1000)%Q ∧ (0 <= time - tc)%Q
        ∧ (time - lastInvokeTime d < 1000)%Q.
Proof.
  unfold Lodash.shouldInvoke. rewrite throttleSettings_eq. simpl.
  destruct (lastCallTime d) as [tc|]; [|split; [done|by intros (? & ? & _)]].
  rewrite !orb_false_iff. split.
  - intros [[H1 H2] H3]. exists tc. split; [done|].
    repeat split.
    + apply Qnot_le_lt. intros H. apply Qle_bool_iff in H. congruence.
    + apply Qnot_lt_le. intros H. apply Qlt_bool_iff in H. congruence.
    + apply Qnot_le_lt. intros H. apply Qle_bool_iff in H. congruence.
  - intros (tc' & [= <-] & H1 & H2 & H3). repeat split.
    + destruct (Qle_bool _ _) eqn:E; [|done]. apply Qle_bool_iff in E. lra.
    + destruct (Qlt_bool _ _) eqn:E; [|done]. apply Qlt_bool_iff in E. lra.
    + destruct (Qle_bool _ _) eqn:E; [|done]. apply Qle_bool_iff in E. lra.
Qed.

Lemma shouldInvoke_expired time d :
  (1000 <= time - lastInvokeTime d)%Q →
  Lodash.shouldInvoke throttleSettings time d = true.
Proof.
  intros H. destruct (Lodash.shouldInvoke _ _ _) eqn:E; [done|].
  apply shouldInvoke_false_iff in E as (tc & _ & _ & _ & H'). lra.
Qed.

(** ** The handles of the grace timers *)

Lemma timersBelow_mono n n' m : n ≤ n' → timersBelow n m → timersBelow n' m.
Proof. intros Hle H c st tm Hst Htm. specialize (H c st tm Hst Htm). lia. Qed.

Lemma timersBelow_alter n f c m :
  (∀ state, untriggerDelayTimer (f state) = untriggerDelayTimer state
            ∨ untriggerDelayTimer (f state) = None) →
  timersBelow n m → timersBelow n (alter f c m).
Proof.
  intros Hf H c' st tm. rewrite lookup_alter. case_decide; [|apply H].
  subst c'. destruct (m !! c) as [st0|] eqn:Hst0; [|done]. simpl.
  intros [= <-] Htm. destruct (Hf st0) as [Heq|Heq]; [|congruence].
  apply (H c st0 tm Hst0). congruence.
Qed.

Lemma timersBelow_delete n c m : timersBelow n m → timersBelow n (delete c m).
Proof.
  intros H c' st tm. rewrite lookup_delete. case_decide; [done|apply H].
Qed.

Lemma timersBelow_touch n ev w :
  timersBelow n (states w) → timersBelow n (states (touch ev w)).
Proof.
  intros H. unfold touch. simpl. apply timersBelow_alter; [by left|].
  destruct (states w !! cameraID ev) eqn:Hst.
  - apply timersBelow_alter; [by left|done].
  - intros c st tm. rewrite lookup_insert. case_decide; [|apply H].
    by intros [= <-].
Qed.

Lemma timersBelow_cancelUntrigger n c w :
  timersBelow n (states w) → timersBelow n (states (cancelUntrigger c w)).
Proof.
  intros H. rewrite cancelUntrigger_states.
  apply timersBelow_alter; [by right|done].
Qed.

Lemma timersBelow_acceptNew n ev w :
  timersBelow n (states w) → timersBelow n (states (acceptNew ev w)).
Proof.
  intros H. unfold acceptNew. change (states (publish ?w)) with (states w).
  by apply timersBelow_cancelUntrigger, timersBelow_touch.
Qed.

Lemma timersBounded_quiet w w' : quiet w w' → timersBounded w → timersBounded w'.
Proof.
  intros [Hst _ Hh _ _] H. unfold timersBounded. rewrite Hst.
  by apply (timersBelow_mono (nextHandle w)).
Qed.

Lemma timersBounded_acceptNew ev w : timersBounded w → timersBounded (acceptNew ev w).
Proof.
  intros H. unfold timersBounded. rewrite acceptNew_nextHandle.
  by apply timersBelow_acceptNew.
Qed.

Lemma timersBounded_cancelUntrigger c w :
  timersBounded w → timersBounded (cancelUntrigger c w).
Proof.
  intros H. unfold timersBounded. rewrite cancelUntrigger_nextHandle.
  by apply timersBelow_cancelUntrigger.
Qed.

Lemma timersBounded_startTimer c seconds w :
  timersBounded w → timersBounded (startTimer c seconds w).
Proof.
  intros H c' st tm. simpl. rewrite lookup_alter. case_decide.
  - subst c'. destruct (states w !! c) as [st0|]; [|done]. simpl.
    intros [= <-] [= <-]. simpl. lia.
  - intros Hst Htm. specialize (H c' st tm Hst Htm). lia.
Qed.

Lemma timersBounded_untriggerAction api c w :
  timersBounded w → timersBounded (_untriggerAction api c w).2.
Proof.
  intros H. rewrite untriggerAction_eq.
  pose proof (timersBounded_cancelUntrigger c w H) as H1.
  pose proof (executeUntriggerAction_quiet api (cancelUntrigger c w)) as Hq.
  pose proof (timersBounded_quiet _ _ Hq H1) as H2.
  destruct (_executeUntriggerAction api (cancelUntrigger c w)) as [[r|] w1];
    simpl in *; [|done].
  by apply timersBelow_delete.
Qed.

Lemma timersBounded_startUntrigger api c w :
  timersBounded w → timersBounded (_startUntrigger api c w).2.
Proof.
  intros H. rewrite startUntrigger_eq.
  pose proof (timersBounded_cancelUntrigger c w H) as H1.
  destruct (states (cancelUntrigger c w) !! c); [|done].
  destruct (Qlt_bool 0 (untriggerSeconds api)).
  - by apply timersBounded_startTimer.
  - by apply timersBounded_untriggerAction.
Qed.

Lemma timersBounded_throttledTriggerAction api ev w :
  timersBounded w → timersBounded (_throttledTriggerAction api ev w).2.
Proof.
  intros H. by apply (timersBounded_quiet _ _ (throttledTriggerAction_quiet api ev w)).
Qed.

Lemma timersBounded_handleCameraEvent api ev skipAction w :
  timersBounded w → timersBounded (handleCameraEvent api ev skipAction w).2.
Proof.
  intros H. destruct (decide (type ev = EvEnd)) as [Hty|Hty].
  - rewrite handleCameraEvent_end_eq by done. cbv zeta.
    assert (timersBounded (setStates (alter (deleteSource (id ev)) (cameraID ev)) w))
      as H1 by (apply timersBelow_alter; [by left|done]).
    destruct (sourcesExhausted _ _); [|done].
    pose proof (timersBounded_startUntrigger api (cameraID ev) _ H1) as H2.
    by destruct (_startUntrigger _ _ _) as [[[]|] w'].
  - destruct (accepts api (cameraID ev)) eqn:Hacc.
    + rewrite handleCameraEvent_new_eq by done.
      pose proof (timersBounded_acceptNew ev w H) as H1.
      destruct skipAction; [done|].
      pose proof (timersBounded_throttledTriggerAction api ev _ H1) as H2.
      by destruct (_throttledTriggerAction _ _ _) as [[[]|] w'].
    + by rewrite handleCameraEvent_rejected.
Qed.

Lemma timersBounded_foldl_acceptNew evs w :
  timersBounded w → timersBounded (foldl (λ w ev, acceptNew ev w) w evs).
Proof.
  revert w. induction evs as [|ev evs IH]; intros w H; simpl; [done|].
  by apply IH, timersBounded_acceptNew.
Qed.

Lemma timersBounded_handleInitialCameraTriggers isTriggeredState api w :
  timersBounded w →
  timersBounded (handleInitialCameraTriggers isTriggeredState api w).2.
Proof.
  intros H. rewrite handleInitialCameraTriggers_eq. cbv zeta.
  pose proof (timersBounded_foldl_acceptNew
    (acceptedEvents api (synthesized isTriggeredState api)) w H) as H1.
  destruct (head _) as [ev|]; [|done].
  pose proof (timersBounded_throttledTriggerAction api ev _ H1) as H2.
  by destruct (_throttledTriggerAction _ _ _) as [[[]|] w'].
Qed.

Lemma timersBounded_fireTimeout api h w :
  timersBounded w → timersBounded (fireTimeout api h w).2.
Proof.
  intros H. rewrite fireTimeout_eq.
  destruct (List.find _ _) as [t|]; [|done].
  destruct (Qle_bool _ _); [|done].
  assert (timersBounded (setTimeouts (filter (λ t, handle t ≠ h)) w)) as H1 by done.
  destruct (callback t) as [c|]; simpl.
  - by apply timersBounded_untriggerAction.
  - by apply (timersBounded_quiet _ _ (timerExpired_quiet api _)).
Qed.

Lemma timersBounded_step isTriggeredState api op w :
  timersBounded w → timersBounded (step isTriggeredState api op w).
Proof.
  intros H. unfold step. destruct op as [ev skip| |h|t]; simpl.
  - rewrite bind_unfold.
    pose proof (timersBounded_handleCameraEvent api ev skip w H).
    by destruct (handleCameraEvent _ _ _ _) as [[r|] w'].
  - rewrite bind_unfold.
    pose proof (timersBounded_handleInitialCameraTriggers isTriggeredState api w H).
    by destruct (handleInitialCameraTriggers _ _ _) as [[r|] w'].
  - by apply timersBounded_fireTimeout.
  - unfold advance. rewrite bind_unfold. unfold get at 1.
    by destruct (Qle_bool _ _).
Qed.

Lemma reachable_timersBounded isTriggeredState w :
  reachable isTriggeredState w → timersBounded w.
Proof.
  induction 1 as [t|api op w Hw IH].
  - intros c st tm. simpl. by rewrite lookup_empty.
  - by apply timersBounded_step.
Qed.

Lemma find_handle_filter h h' (l : list Timeout) :
  h' ≠ h →
  List.find (λ t, bool_decide (handle t = h)) (filter (λ t, handle t ≠ h') l)
  = List.find (λ t, bool_decide (handle t = h)) l.
Proof.
  intros Hne. induction l as [|t l IH]; [done|].
  rewrite filter_cons. destruct (decide (handle t = h')) as [Hh|Hh].
  - rewrite decide_False by tauto. rewrite IH. simpl.
    rewrite bool_decide_eq_false_2; [done|congruence].
  - rewrite decide_True by done. simpl. by rewrite IH.
Qed.

Lemma cancelUntrigger_find h c w :
  timersBelow h (states w) →
  List.find (λ t, bool_decide (handle t = h)) (timeouts (cancelUntrigger c w))
  = List.find (λ t, bool_decide (handle t = h)) (timeouts w).
Proof.
  intros H. unfold cancelUntrigger.
  destruct (states w !! c) as [st|] eqn:Hst; [|done]. simpl.
  destruct (untriggerDelayTimer st) as [tm|] eqn:Htm; [|done]. simpl.
  apply find_handle_filter. specialize (H c st tm Hst Htm). lia.
Qed.

Lemma acceptNew_find h ev w :
  timersBelow h (states w) →
  List.find (λ t, bool_decide (handle t = h)) (timeouts (acceptNew ev w))
  = List.find (λ t, bool_decide (handle t = h)) (timeouts w).
Proof.
  intros H. unfold acceptNew. change (timeouts (publish ?w)) with (timeouts w).
  rewrite cancelUntrigger_find by (by apply timersBelow_touch). done.
Qed.

Lemma acceptNew_timeouts ev w t :
  t ∈ timeouts (acceptNew ev w) → t ∈ timeouts w.
Proof.
  unfold acceptNew. change (timeouts (publish ?w)) with (timeouts w).
  by intros [Hin _]%cancelUntrigger_timeouts.
Qed.

Lemma acceptNew_now ev w : now (acceptNew ev w) = now w.
Proof. unfold acceptNew, publish. simpl. by rewrite cancelUntrigger_now. Qed.

Lemma acceptNew_triggerActionCalls ev w :
  triggerActionCalls (acceptNew ev w) = triggerActionCalls w.
Proof.
  unfold acceptNew, publish, triggerActionCalls. simpl.
  rewrite omap_app, cancelUntrigger_calls. simpl. apply app_nil_r.
Qed.

(** ** Bursts within the window of the throttle *)

Lemma triggerActionCalls_app w l :
  triggerActionCalls (appendCalls l w)
  = triggerActionCalls w ++ omap isTriggerActionCall l.
Proof. unfold triggerActionCalls. simpl. apply omap_app. Qed.

Lemma step_accepted isTriggeredState api ev w :
  type ev ≠ EvEnd → accepts api (cameraID ev) = true →
  step isTriggeredState api (OpCameraEvent ev false) w
  = (_throttledTriggerAction api ev (acceptNew ev w)).2.
Proof.
  intros Hty Hacc. rewrite step_cameraEvent, handleCameraEvent_new_eq by done.
  by destruct (_throttledTriggerAction _ _ _) as [[[]|] w'].
Qed.

Lemma deliver_within_window isTriggeredState api t1 h args fired w te :
  windowOpen t1 h args fired w →
  (te.1 < t1 + 1000)%Q →
  type te.2 ≠ EvEnd → accepts api (cameraID te.2) = true →
  windowOpen t1 h (Some te.2) fired (deliver isTriggeredState api w te).
Proof.
  intros [Htid Hinv (tc & Htc & Htc1 & Htc2) Hnow Hpend Hargs Hfired Htm] Ht Hty Hacc.
  unfold deliver. destruct te as [t ev]. simpl in *.
  set (wa := step isTriggeredState api (OpAdvance t) w).
  assert (states wa = states w ∧ timeouts wa = timeouts w
          ∧ throttled wa = throttled w ∧ calls wa = calls w
          ∧ (now w <= now wa)%Q ∧ (now wa < t1 + 1000)%Q) as (Hs & Hts & Hth & Hcs & Hn1 & Hn2).
  { unfold wa. rewrite step_advance. destruct (Qle_bool (now w) t) eqn:E.
    - apply Qle_bool_iff in E. simpl. repeat split; try done.
    - repeat split; try done. apply Qle_refl. }
  rewrite step_accepted by done.
  assert (throttled (acceptNew ev wa) = throttled w) as Hth'.
  { by rewrite acceptNew_throttled. }
  assert (now (acceptNew ev wa) = now wa) as Hnow' by apply acceptNew_now.
  assert (triggerActionCalls (acceptNew ev wa) = triggerActionCalls w) as Hfired'.
  { rewrite acceptNew_triggerActionCalls. unfold triggerActionCalls. by rewrite Hcs. }
  rewrite (throttled_within_window api ev (acceptNew ev wa) h).
  - split;
      cbn [now states timeouts nextHandle throttled calls timerId lastInvokeTime
           lastCallTime lastArgs Lodash.setLastCallTime Lodash.setLastArgs].
    + by rewrite Hth'.
    + by rewrite Hth'.
    + exists (now (acceptNew ev wa)). split; [done|].
      rewrite Hnow'. split; [lra|apply Qle_refl].
    + by rewrite Hnow'.
    + rewrite acceptNew_find by (by rewrite Hs). by rewrite Hts.
    + done.
    + rewrite <- Hfired, <- Hfired'. unfold triggerActionCalls. cbn [calls].
      rewrite omap_app. simpl. apply app_nil_r.
    + apply timersBelow_acceptNew. by rewrite Hs.
  - by rewrite Hth'.
  - apply shouldInvoke_false_iff. exists tc.
    rewrite Hth', Hinv, Hnow'. split; [done|]. lra.
Qed.

Lemma last_cons_from_option {A} (x : A) l args :
  from_option Some args (last (x :: l)) = from_option Some (Some x) (last l).
Proof.
  destruct l as [|y l]; [done|]. change (last (x :: y :: l)) with (last (y :: l)).
  destruct (last (y :: l)) eqn:E; [done|]. by apply last_None in E.
Qed.

Lemma burst_within_window isTriggeredState api t1 h rest :
  ∀ args fired w,
  windowOpen t1 h args fired w →
  Forall (λ te : Q * CameraEvent,
            (te.1 < t1 + 1000)%Q ∧ type te.2 ≠ EvEnd
            ∧ accepts api (cameraID te.2) = true) rest →
  windowOpen t1 h (from_option Some args (last (snd <$> rest))) fired
    (foldl (deliver isTriggeredState api) w rest).
Proof.
  induction rest as [|te rest IH]; intros args fired w Hw Hall; [done|].
  apply Forall_cons in Hall as [(Ht & Hty & Hacc) Hall]. cbn [foldl].
  pose proof (deliver_within_window isTriggeredState api _ _ _ _ _ te Hw Ht Hty Hacc)
    as Hw'.
  specialize (IH _ _ _ Hw' Hall).
  rewrite fmap_cons, last_cons_from_option. exact IH.
Qed.

Lemma from_option_Some_None {A} (o : option A) : from_option Some None o = o.
Proof. by destruct o. Qed.

Lemma foldl_acceptNew_now evs w :
  now (foldl (λ w ev, acceptNew ev w) w evs) = now w.
Proof.
  revert w. induction evs as [|ev evs IH]; intros w; simpl; [done|].
  by rewrite IH, acceptNew_now.
Qed.

Lemma foldl_acceptNew_triggerActionCalls evs w :
  triggerActionCalls (foldl (λ w ev, acceptNew ev w) w evs) = triggerActionCalls w.
Proof.
  revert w. induction evs as [|ev evs IH]; intros w; simpl; [done|].
  by rewrite IH, acceptNew_triggerActionCalls.
Qed.

Lemma throttledTriggerAction_leading_calls api ev w :
  timerId (throttled w) = None →
  Lodash.shouldInvoke throttleSettings (now w) (throttled w) = true →
  triggerActionCalls (_throttledTriggerAction api ev w).2
  = triggerActionCalls w ++ [ev].
Proof.
  intros Htid Hinv.
  destruct (throttled_leading api ev w Htid Hinv) as (l & r & -> & Hl).
  unfold triggerActionCalls. cbn [calls].
  rewrite !omap_app, Hl, app_nil_r. reflexivity.
Qed.

Example graceWorld_timeouts :
  timeouts graceWorld
  = [mkTimeout 0 1000 CbThrottle; mkTimeout 1 11000 (CbUntrigger "camera_1")].
Proof. vm_compute. reflexivity. Qed.

Example graceWorld_state :
  states graceWorld !! "camera_1" = Some (mkState 0 ∅ (Some (mkTimer 1))).
Proof. vm_compute. reflexivity. Qed.

Lemma graceWorld_reachable : reachable sampleIsTriggeredState graceWorld.
Proof. unfold graceWorld. repeat apply reachable_step. apply reachable_initial. Qed.

(** ** The completion of an [end] event *)

Lemma executeUntriggerAction_thrown api w :
  (_executeUntriggerAction api w).1 = Thrown →
  viewManagerThrows api (SetViewDefault None) = true.
Proof.
  unfold _executeUntriggerAction.
  destruct (triggersConfig api) as [tc|]; simpl; [|done].
  destruct (untrigger (actions tc)); [done|].
  rewrite bind_unfold, gate_eq. destruct (gate api); [|done].
  rewrite bind_unfold. unfold viewManagerCall.
  by destruct (viewManagerThrows api (SetViewDefault None)).
Qed.

Lemma handleCameraEvent_end_thrown api ev skipAction w :
  type ev = EvEnd →
  (handleCameraEvent api ev skipAction w).1 = Thrown →
  viewManagerThrows api (SetViewDefault None) = true.
Proof.
  intros Hty. rewrite handleCameraEvent_end_eq by done. cbv zeta.
  destruct (sourcesExhausted _ _); [|done].
  rewrite startUntrigger_eq.
  destruct (states (cancelUntrigger _ _) !! _); [|done].
  destruct (Qlt_bool _ _); [done|].
  rewrite untriggerAction_eq.
  pose proof (executeUntriggerAction_thrown api
    (cancelUntrigger (cameraID ev) (cancelUntrigger (cameraID ev)
       (setStates (alter (deleteSource (id ev)) (cameraID ev)) w)))) as H.
  destruct (_executeUntriggerAction _ _) as [[r|] w1]; simpl in *; [done|].
  intros _. by apply H.
Qed.

(** ** Operations that overlap *)

Lemma untriggerAction_split api c w :
  _untriggerAction api c w
  = (_untriggerAction_begin api c ≫= _untriggerAction_resume c) w.
Proof.
  unfold _untriggerAction, _untriggerAction_begin, _untriggerAction_resume.
  rewrite !bind_unfold.
  destruct (_deleteUntriggerDelayTimer c w) as [[[]|] w1]; [|done].
  rewrite !bind_unfold. unfold settle.
  by destruct (_executeUntriggerAction api w1) as [[r|] w2].
Qed.

Lemma fireTimeout_split api h w :
  fireTimeout api h w
  = (suspended ← fireTimeout_begin api h;
     match suspended with
     | Some (c, settled) => _untriggerAction_resume c settled
     | None => mret tt
     end) w.
Proof.
  unfold fireTimeout, fireTimeout_begin. rewrite !bind_unfold. unfold get.
  destruct (List.find _ _) as [t|]; [|done].
  destruct (Qle_bool _ _); [|done].
  rewrite !bind_unfold. unfold clearTimeout, modify. unfold runCallback.
  destruct (callback t) as [c|]; simpl.
  - rewrite untriggerAction_split, !bind_unfold.
    by destruct (_untriggerAction_begin api c _) as [[r|] w1].
  - rewrite !bind_unfold.
    by destruct (Lodash.timerExpired _ _ _) as [[[]|] w1].
Qed.

Lemma reachable_overlapping isTriggeredState w :
  reachable isTriggeredState w → reachableOverlapping isTriggeredState w [].
Proof.
  induction 1 as [t|api op w Hw IH].
  - apply overlapping_initial.
  - by apply overlapping_step.
Qed.

Lemma afterOverlap_reachable :
  reachableOverlapping sampleIsTriggeredState afterOverlap [].
Proof.
  unfold afterOverlap.
  apply (overlapping_resume sampleIsTriggeredState "camera_1" (Returned true)
           _ [] []).
  apply overlapping_step.
  set (w0 := step sampleIsTriggeredState (graceApi false) (OpAdvance 11000)
               graceWorld).
  assert (leftSuspended (fireTimeout_begin (graceApi false) 1 w0).1
          = [("camera_1", Returned true)]) as Hleft by (vm_compute; reflexivity).
  rewrite <- Hleft.
  apply (overlapping_expire sampleIsTriggeredState (graceApi false) 1 w0 []).
  apply reachable_overlapping, reachable_step, graceWorld_reachable.
Qed.

Example afterOverlap_timeouts :
  timeouts afterOverlap
  = [mkTimeout 0 1000 CbThrottle; mkTimeout 2 21000 (CbUntrigger "camera_1")].
Proof. vm_compute. reflexivity. Qed.

Example afterOverlap_states : states afterOverlap = ∅.
Proof. vm_compute. reflexivity. Qed.



(** * The claims *)







(** C3, as the code has it.  The trigger action goes through one
    throttle per manager, whatever the camera, with a window of 1000
    milliseconds, on the leading and on the trailing edge.  Take any world
    reached from a fresh manager in which the throttle is at rest, and a
    burst of accepted [new] or [update] events, the first at the present
    time and the others before the window closes: [_triggerAction] is
    invoked at once for the first event; it is not invoked for any other
    event while the window is open; and when the timeout of the throttle
    expires, at the end of the window or later, it is invoked once more
    for the last event of the burst if the burst had more than one event,
    and not at all otherwise. *)
Theorem throttle_leading_and_trailing isTriggeredState api e1 rest T w :
  reachable isTriggeredState w →
  timerId (throttled w) = None →
  Lodash.shouldInvoke throttleSettings (now w) (throttled w) = true →
  type e1 ≠ EvEnd → accepts api (cameraID e1) = true →
  Forall (λ te : Q * CameraEvent,
            (te.1 < now w + throttleWait)%Q ∧ type te.2 ≠ EvEnd
            ∧ accepts api (cameraID te.2) = true) rest →
  (now w + throttleWait <= T)%Q →
  let w1 := step isTriggeredState api (OpCameraEvent e1 false) w in
  let wn := foldl (deliver isTriggeredState api) w1 rest in
  let wT := step isTriggeredState api (OpTimeout (nextHandle w))
              (step isTriggeredState api (OpAdvance T) wn) in
  triggerActionCalls w1 = triggerActionCalls w ++ [e1]
  ∧ triggerActionCalls wn = triggerActionCalls w1
  ∧ triggerActionCalls wT
    = triggerActionCalls wn ++ option_list (last (snd <$> rest))
  ∧ timerId (throttled wT) = None.
Proof.
  intros Hreach Htid Hinv Hty1 Hacc1 Hall HT w1 wn wT.
  pose proof (reachable_handlesBounded _ _ Hreach) as Hb.
  pose proof (reachable_timersBounded _ _ Hreach) as Htb.
  unfold throttleWait in *.
  set (Tm := mkTimeout (nextHandle w) (now w + 1000) CbThrottle).
  (* the leading edge *)
  assert (windowOpen (now w) (nextHandle w) None
            (triggerActionCalls w ++ [e1]) w1) as Hw1.
  { unfold w1. rewrite step_accepted by done.
    set (W := acceptNew e1 w) in *.
    assert (throttled W = throttled w) as Hth by apply acceptNew_throttled.
    assert (nextHandle W = nextHandle w) as Hnh by apply acceptNew_nextHandle.
    assert (now W = now w) as Hnow by apply acceptNew_now.
    assert (triggerActionCalls W = triggerActionCalls w) as Hfired
      by apply acceptNew_triggerActionCalls.
    destruct (throttled_leading api e1 W) as (l & r & -> & Hl).
    - by rewrite Hth.
    - by rewrite Hth, Hnow.
    - split;
        cbn [now states timeouts nextHandle throttled calls timerId lastInvokeTime
             lastCallTime lastArgs].
      + by rewrite Hnh.
      + done.
      + exists (now W). split; [done|]. rewrite Hnow. split; apply Qle_refl.
      + rewrite Hnow. lra.
      + rewrite Hnh, Hnow. apply (find_handle_last (timeouts W) Tm).
        intros t Hin%acceptNew_timeouts. specialize (Hb t Hin). simpl. lia.
      + done.
      + rewrite <- Hfired. unfold triggerActionCalls. cbn [calls].
        rewrite !omap_app, Hl, app_nil_r. reflexivity.
      + by apply timersBelow_acceptNew. }
  pose proof (burst_within_window isTriggeredState api _ _ rest _ _ _ Hw1 Hall)
    as Hwn.
  fold wn in Hwn. rewrite from_option_Some_None in Hwn.
  destruct Hw1 as [_ _ _ _ _ _ Hf1 _].
  destruct Hwn as [Htidn Hinvn _ Hnown Hpendn Hargsn Hfn _].
  fold Tm in Hpendn.
  split; [done|]. split; [by rewrite Hfn, Hf1|].
  (* the trailing edge *)
  set (wa := step isTriggeredState api (OpAdvance T) wn) in *.
  assert (wa = setNow T wn) as Hwa.
  { unfold wa. rewrite step_advance.
    assert (Qle_bool (now wn) T = true) as ->; [|done].
    apply Qle_bool_iff. lra. }
  assert (wT = (Lodash.timerExpired (_triggerAction api) throttleSettings
                  (setTimeouts (filter (λ t, handle t ≠ nextHandle w))
                     (setNow T wn))).2) as ->.
  { unfold wT. rewrite step_timeout, fireTimeout_eq.
    rewrite Hwa. cbn [timeouts now setNow]. rewrite Hpendn.
    assert (Qle_bool (due Tm) T = true) as ->; [|done].
    apply Qle_bool_iff. simpl. lra. }
  set (W := setTimeouts _ _).
  destruct (timerExpired_trailing api W) as (l & r & -> & Hl).
  { apply shouldInvoke_expired. unfold W. simpl. rewrite Hinvn. lra. }
  unfold W. cbn [throttled setTimeouts setNow]. rewrite Hargsn.
  destruct (last (snd <$> rest)) as [ev|].
  - split; [|done]. unfold triggerActionCalls. cbn [calls].
    rewrite !omap_app, Hl, app_nil_r. reflexivity.
  - split; [|done]. unfold triggerActionCalls. cbn [calls setThrottled].
    by rewrite app_nil_r.
Qed.

(** C3 on a burst of three events on two cameras in a manager that
    starts. *)
Lemma throttle_leading_and_trailing_witness :
  triggerActionCalls afterBurst
  = [burstFirst] ++ [] ++ [sampleEvent "camera_1" "e3" EvNew].
Proof.
  destruct (throttle_leading_and_trailing sampleIsTriggeredState liveApi
              burstFirst burstRest 1000 (initialWorld 0))
    as (H1 & H2 & H3 & _).
  - apply reachable_initial.
  - reflexivity.
  - reflexivity.
  - done.
  - by vm_compute.
  - repeat constructor; try done; try (by vm_compute).
  - by vm_compute.
  - unfold afterBurst. etrans; [exact H3|]. rewrite H2, H1. reflexivity.
Defined.

(** C3 as stated fails.  With a throttle at rest the first event of a
    burst is dispatched at once, on the leading edge, and a burst of three
    events within one window leads to two invocations of
    [_triggerAction], for its first and for its last event, not to a
    single one for the last event. *)
Lemma throttle_dispatches_on_leading_edge :
  triggerActionCalls
    (step sampleIsTriggeredState liveApi (OpCameraEvent burstFirst false)
       (initialWorld 0))
  = [burstFirst]
  ∧ triggerActionCalls afterBurst
    = [burstFirst; sampleEvent "camera_1" "e3" EvNew]
  ∧ triggerActionCalls afterBurst ≠ [sampleEvent "camera_1" "e3" EvNew].
Proof. vm_compute. repeat split; done. Qed.

(** C4, as the code has it.  [handleCameraEvent] returns false and leaves
    the world as it was for a [new] or [update] event when there is no
    trigger configuration, no selected camera, or when
    [filter_selected_camera] is set and the camera of the event is not
    among the dependent cameras of the selected camera.  An [end] event is
    never filtered: it never completes with false, it returns true
    whenever the view manager does not throw, and for a camera without
    state it returns true and changes nothing.  It does not always return
    true: the untrigger navigation is awaited before [return true], and
    the event completes by returning true or by throwing, which it does
    only when the navigation to the default view throws. *)
Theorem handleCameraEvent_filtering api ev skipAction w :
  (type ev ≠ EvEnd →
   (config api = None
    ∨ truthy_string (selectedCamera api) = false
    ∨ ∃ tc, triggersConfig api = Some tc ∧ filter_selected_camera tc = true
            ∧ cameraID ev ∉ dependentCameras api (default "" (selectedCamera api))) →
   handleCameraEvent api ev skipAction w = (Returned false, w))
  ∧ (type ev = EvEnd →
     (handleCameraEvent api ev skipAction w).1 ≠ Returned false
     ∧ ((∀ c, viewManagerThrows api c = false) →
        (handleCameraEvent api ev skipAction w).1 = Returned true)
     ∧ (states w !! cameraID ev = None →
        handleCameraEvent api ev skipAction w = (Returned true, w))
     ∧ ((handleCameraEvent api ev skipAction w).1 = Returned true
        ∨ (handleCameraEvent api ev skipAction w).1 = Thrown)
     ∧ ((handleCameraEvent api ev skipAction w).1 = Thrown →
        viewManagerThrows api (SetViewDefault None) = true)).
Proof.
  split.
  - intros Hty Hrej. apply handleCameraEvent_rejected; [done|].
    by apply accepts_false_cases.
  - intros Hty. split; [|split; [|split; [|split]]].
    + destruct (handleCameraEvent_end_completion api ev skipAction w Hty)
        as [H|H]; rewrite H; discriminate.
    + by apply handleCameraEvent_end_returns.
    + by apply handleCameraEvent_end_unknown.
    + by apply handleCameraEvent_end_completion.
    + by apply handleCameraEvent_end_thrown.
Qed.

(** C4 on a [new] event of a camera that the filter rejects, and on an
    [end] event without configuration for a camera without state. *)
Lemma handleCameraEvent_filtering_witness :
  handleCameraEvent filteringApi (sampleEvent "camera_2" "e1" EvNew) false
    (initialWorld 0)
  = (Returned false, initialWorld 0)
  ∧ handleCameraEvent noConfigApi (sampleEvent "camera_1" "e1" EvEnd) false
      (initialWorld 0)
    = (Returned true, initialWorld 0).
Proof.
  split.
  - apply (handleCameraEvent_filtering filteringApi
             (sampleEvent "camera_2" "e1" EvNew) false (initialWorld 0));
      [done|]. right. right. eexists. split; [reflexivity|]. split; [done|].
    by vm_compute.
  - by apply (handleCameraEvent_filtering noConfigApi
                (sampleEvent "camera_1" "e1" EvEnd) false (initialWorld 0)).
Defined.

(** C4 as stated fails.  Camera 1 is triggered by one source, there are
    no grace seconds and the view manager throws on the navigation to the
    default view.  The [end] event of that source does not return true:
    [_startUntrigger] goes on to [_untriggerAction], whose navigation
    throws, and [handleCameraEvent] completes by throwing. *)
Lemma end_event_does_not_return :
  let w := step sampleIsTriggeredState failingApi
             (OpCameraEvent (sampleEvent "camera_1" "e1" EvNew) false)
             (initialWorld 0) in
  let r := handleCameraEvent failingApi (sampleEvent "camera_1" "e1" EvEnd)
             false w in
  r.1 = Thrown ∧ r.1 ≠ Returned true
  ∧ viewManagerCalls r.2 = [SetViewDefault None].
Proof. vm_compute. repeat split; done. Qed.

(** C5, as the code has it.  After [handleInitialCameraTriggers], whether
    or not its trigger action throws, every configured camera with a
    trigger entity in a triggered state whose synthesized event passes
    the filter is among the triggered cameras, and the throttled trigger
    action has been called exactly once, with the first accepted event in
    the order of the enumeration, when some event is accepted and not at
    all otherwise.  When the throttle is at rest, as in a manager that
    starts, that call invokes [_triggerAction] at once, for that event
    and for no other. *)
Theorem handleInitialCameraTriggers_marks_accepted isTriggeredState api w :
  let w' := (handleInitialCameraTriggers isTriggeredState api w).2 in
  let first := head (acceptedEvents api (synthesized isTriggeredState api)) in
  (∀ c es e, (c, es) ∈ cameras api → e ∈ es →
     isTriggeredState (hass api ≫= (.!! e)) = true →
     accepts api c = true →
     c ∈ getTriggeredCameraIDs w')
  ∧ throttledCalls w' = throttledCalls w ++ option_list first
  ∧ (timerId (throttled w) = None →
     Lodash.shouldInvoke throttleSettings (now w) (throttled w) = true →
     triggerActionCalls w' = triggerActionCalls w ++ option_list first).
Proof.
  cbv zeta. rewrite handleInitialCameraTriggers_eq. cbv zeta.
  set (evs := synthesized isTriggeredState api).
  set (w1 := foldl _ w _).
  assert (∀ c es e, (c, es) ∈ cameras api → e ∈ es →
     isTriggeredState (hass api ≫= (.!! e)) = true →
     accepts api c = true → active c w1) as Hactive.
  { intros c es e Hc He Ht Hacc. apply foldl_acceptNew_active. right.
    exists (mkCameraEvent c e EvNew None None None). split; [|done].
    apply elem_of_acceptedEvents. split; [|done].
    by apply elem_of_synthesized with es. }
  assert (throttledCalls w1 = throttledCalls w) as Hcalls
    by apply foldl_acceptNew_throttledCalls.
  assert (triggerActionCalls w1 = triggerActionCalls w) as Hfired
    by apply foldl_acceptNew_triggerActionCalls.
  assert (throttled w1 = throttled w) as Hth by apply foldl_acceptNew_throttled.
  assert (now w1 = now w) as Hnow by apply foldl_acceptNew_now.
  destruct (head (acceptedEvents api evs)) as [ev|] eqn:Hhead.
  - pose proof (throttledTriggerAction_states api ev w1) as Hst.
    pose proof (throttledTriggerAction_throttledCalls api ev w1) as Hthc.
    pose proof (throttledTriggerAction_leading_calls api ev w1) as Hlead.
    rewrite Hth, Hnow, Hfired in Hlead.
    assert (∀ c es e, (c, es) ∈ cameras api → e ∈ es →
       isTriggeredState (hass api ≫= (.!! e)) = true →
       accepts api c = true →
       c ∈ getTriggeredCameraIDs (_throttledTriggerAction api ev w1).2) as Hall.
    { intros c es e Hc He Ht Hacc. apply active_triggered.
      destruct (Hactive c es e Hc He Ht Hacc) as (st & H1 & H2).
      exists st. by rewrite Hst. }
    rewrite Hcalls in Hthc.
    by destruct (_throttledTriggerAction api ev w1) as [[[]|] w'].
  - simpl. split; [|split].
    + intros c es e Hc He Ht Hacc. apply active_triggered. eauto.
    + by rewrite Hcalls, app_nil_r.
    + intros _ _. by rewrite Hfired, app_nil_r.
Qed.

(** C5 without filter: camera 2 is marked, and its event is the one given
    to the throttled trigger action. *)
Lemma handleInitialCameraTriggers_marks_accepted_witness :
  "camera_2" ∈ getTriggeredCameraIDs
    (handleInitialCameraTriggers sampleIsTriggeredState liveApi (initialWorld 0)).2
  ∧ throttledCalls
      (handleInitialCameraTriggers sampleIsTriggeredState liveApi (initialWorld 0)).2
    = [mkCameraEvent "camera_2" "binary_sensor.motion_2" EvNew None None None].
Proof.
  destruct (handleInitialCameraTriggers_marks_accepted sampleIsTriggeredState
              liveApi (initialWorld 0)) as (H1 & H2 & _).
  split.
  - apply (H1 "camera_2" ["binary_sensor.motion_2"] "binary_sensor.motion_2");
      [left|left|by vm_compute|by vm_compute].
  - rewrite H2. by vm_compute.
Defined.

(** C5 as stated fails.  Camera 2 has a trigger entity that is on, but
    with [filter_selected_camera] set and camera 1 selected its event is
    rejected: after [handleInitialCameraTriggers] camera 2 is not among
    the triggered cameras, and the trigger action was not called. *)
Lemma initial_triggers_filtered_camera_not_marked :
  let w' := (handleInitialCameraTriggers sampleIsTriggeredState filteringApi
               (initialWorld 0)).2 in
  ("camera_2", ["binary_sensor.motion_2"]) ∈ cameras filteringApi
  ∧ sampleIsTriggeredState (hass filteringApi ≫= lookup "binary_sensor.motion_2")
    = true
  ∧ ("camera_2" ∉ getTriggeredCameraIDs w')
  ∧ throttledCalls w' = [].
Proof.
  cbv zeta. split; [left|]. split; [by vm_compute|]. split; [|by vm_compute].
  assert (getTriggeredCameraIDs
            (handleInitialCameraTriggers sampleIsTriggeredState filteringApi
               (initialWorld 0)).2 = ∅) as ->; [by vm_compute|].
  apply not_elem_of_empty.
Qed.

(** C6. For an event of fidelity [high] with neither clip nor snapshot,
    [_triggerAction] returns at once, before the action gate is evaluated
    and without any call, unless the trigger action is [live], or is
    [default] with the default view [live].  With the action [media] it
    returns at once; with the action [live] the gate is evaluated and,
    when it allows, the view manager is asked for the live view of the
    camera of the event. *)
Theorem triggerAction_high_fidelity api ev w :
  fidelity ev = Some high →
  truthy_bool (clip ev) = false →
  truthy_bool (snapshot ev) = false →
  let live := SetViewByParameters "live" (cameraID ev) in
  let default := SetViewDefault (Some (cameraID ev)) in
  (¬ (triggerAction api = Some TriggerLive
      ∨ (triggerAction api = Some TriggerDefault
         ∧ defaultView api = Some "live")) →
   _triggerAction api ev w = (Returned tt, w))
  ∧ (triggerAction api = Some TriggerMedia →
     _triggerAction api ev w = (Returned tt, w))
  ∧ (triggerAction api = Some TriggerLive →
     calls (_triggerAction api ev w).2
     = calls w ++ [HasInteraction]
       ++ (if gate api then [live] else [])
       ++ (if gate api && viewManagerThrows api live then []
           else [CardElementUpdate]))
  ∧ (triggerAction api = Some TriggerDefault →
     defaultView api = Some "live" →
     calls (_triggerAction api ev w).2
     = calls w ++ [HasInteraction]
       ++ (if gate api then [default] else [])
       ++ (if gate api && viewManagerThrows api default then []
           else [CardElementUpdate])).
Proof.
  intros Hhigh Hclip Hsnap live default.
  assert (suppressed api ev
          = negb (bool_decide (triggerAction api = Some TriggerLive)
                  || (bool_decide (triggerAction api = Some TriggerDefault)
                      && bool_decide (defaultView api = Some "live")))) as Hsup.
  { unfold suppressed. rewrite Hhigh, Hclip, Hsnap.
    by rewrite bool_decide_eq_true_2. }
  split; [|split; [|split]].
  - intros Hnot. apply triggerAction_suppressed. rewrite Hsup.
    apply negb_true_iff, orb_false_iff. split.
    + apply bool_decide_eq_false. tauto.
    + apply andb_false_iff.
      destruct (decide (triggerAction api = Some TriggerDefault)) as [E|E].
      * right. apply bool_decide_eq_false. tauto.
      * left. by apply bool_decide_eq_false.
  - intros Hmedia. apply triggerAction_suppressed. by rewrite Hsup, Hmedia.
  - intros Hlive. rewrite triggerAction_eq, Hsup, Hlive. simpl.
    unfold dispatch. rewrite Hlive. fold live.
    destruct (gate api); simpl; [|by rewrite <- app_assoc].
    destruct (viewManagerThrows api live); simpl; by rewrite <- !app_assoc.
  - intros Hdef Hview. rewrite triggerAction_eq, Hsup, Hdef, Hview. simpl.
    unfold dispatch. rewrite Hdef. fold default.
    destruct (gate api); simpl; [|by rewrite <- app_assoc].
    destruct (viewManagerThrows api default); simpl; by rewrite <- !app_assoc.
Qed.

(** C6 on a high-fidelity event without media, with the trigger actions
    [media] and [live]. *)
Lemma triggerAction_high_fidelity_witness :
  _triggerAction mediaApi sampleHighEvent (initialWorld 0)
  = (Returned tt, initialWorld 0)
  ∧ calls (_triggerAction liveApi sampleHighEvent (initialWorld 0)).2
    = [HasInteraction; SetViewByParameters "live" "camera_1"; CardElementUpdate].
Proof.
  split.
  - by apply (triggerAction_high_fidelity mediaApi sampleHighEvent (initialWorld 0)).
  - destruct (triggerAction_high_fidelity liveApi sampleHighEvent (initialWorld 0))
      as (_ & _ & H & _); [done..|]. by rewrite H.
Defined.






(** C9. Without a configuration the action gate is false whatever the
    interaction state, although the gate of the specification, a function
    of the mode and the interaction state alone, is true for the mode
    [all]; and neither [_triggerAction] nor the untrigger path
    ([_executeUntriggerAction], [_untriggerAction]) calls the view
    manager. *)
Theorem gate_without_configuration api ev c w :
  config api = None →
  _hasAllowableInteractionStateForAction api w
  = (Returned false, record HasInteraction w)
  ∧ isActionAllowed ModeAll (hasInteraction api) = true
  ∧ viewManagerCalls (_triggerAction api ev w).2 = viewManagerCalls w
  ∧ _executeUntriggerAction api w = (Returned true, w)
  ∧ viewManagerCalls (_untriggerAction api c w).2 = viewManagerCalls w.
Proof.
  intros Hno.
  assert (triggersConfig api = None) as Htc.
  { unfold triggersConfig. by rewrite Hno. }
  assert (gate api = false) as Hgate by (unfold gate; by rewrite Htc).
  assert (_executeUntriggerAction api = λ w, (Returned true, w)) as Hexec.
  { unfold _executeUntriggerAction. by rewrite Htc. }
  split; [|split; [|split; [|split]]].
  - by rewrite gate_eq, Hgate.
  - reflexivity.
  - rewrite triggerAction_eq, Hgate.
    destruct (suppressed api ev); [done|]. simpl.
    rewrite !viewManagerCalls_record. simpl. by rewrite !app_nil_r.
  - by rewrite Hexec.
  - rewrite untriggerAction_eq, Hexec. simpl.
    rewrite viewManagerCalls_record, viewManagerCalls_publish. simpl.
    rewrite app_nil_r. unfold viewManagerCalls, cancelUntrigger.
    by destruct (_ ≫= _).
Qed.

(** C9 with collaborators that have no configuration. *)
Lemma gate_without_configuration_witness :
  _hasAllowableInteractionStateForAction noConfigApi (initialWorld 0)
  = (Returned false, record HasInteraction (initialWorld 0))
  ∧ viewManagerCalls
      (_triggerAction noConfigApi (sampleEvent "camera_1" "e1" EvNew)
         (initialWorld 0)).2 = [].
Proof.
  destruct (gate_without_configuration noConfigApi
              (sampleEvent "camera_1" "e1" EvNew) "camera_1" (initialWorld 0))
    as (H1 & _ & H3 & _); [done|].
  by split.
Defined.

(** C10, as the code has it.  When [handleInitialCameraTriggers] returns,
    it returns whether some trigger entity of some configured camera is
    in a triggered state: its completion is that boolean unless the
    single trigger action, which it awaits before [return triggered],
    throws; and it is that boolean whenever the view manager does not
    throw and the promise kept by the throttle is not a rejected one.
    The filter plays no part in it: when every synthesized event is
    rejected, the operation returns that boolean and leaves the world as
    it was, so that no camera is marked as triggered and nothing is
    dispatched. *)
Theorem handleInitialCameraTriggers_result isTriggeredState api w :
  ((handleInitialCameraTriggers isTriggeredState api w).1
   = Returned (anyTriggered isTriggeredState api)
   ∨ (handleInitialCameraTriggers isTriggeredState api w).1 = Thrown)
  ∧ ((∀ c, viewManagerThrows api c = false) →
     result (throttled w) ≠ Some false →
     (handleInitialCameraTriggers isTriggeredState api w).1
     = Returned (anyTriggered isTriggeredState api))
  ∧ ((∀ ev, ev ∈ synthesized isTriggeredState api →
            accepts api (cameraID ev) = false) →
     handleInitialCameraTriggers isTriggeredState api w
     = (Returned (anyTriggered isTriggeredState api), w)).
Proof.
  rewrite handleInitialCameraTriggers_eq, anyTriggered_synthesized. cbv zeta.
  split; [|split].
  - destruct (head _) as [ev|]; [|by left].
    destruct (_throttledTriggerAction _ _ _) as [[[]|] w']; auto.
  - intros Hok Hres. destruct (head _) as [ev|]; [|done].
    match goal with |- context [_throttledTriggerAction api ev ?w1] =>
      pose proof (throttledTriggerAction_returns api ev w1 Hok) as H end.
    rewrite foldl_acceptNew_throttled in H. specialize (H Hres).
    destruct (_throttledTriggerAction _ _ _) as [c w']. simpl in H. by subst c.
  - intros Hrej. by rewrite acceptedEvents_none.
Qed.

(** C10 when the only synthesized event is rejected by the filter: the
    result is true and the world is as it was. *)
Lemma handleInitialCameraTriggers_result_witness :
  handleInitialCameraTriggers sampleIsTriggeredState filteringApi (initialWorld 0)
  = (Returned true, initialWorld 0).
Proof.
  apply (handleInitialCameraTriggers_result sampleIsTriggeredState filteringApi
           (initialWorld 0)).
  intros ev Hin. apply list_elem_of_singleton in Hin. subst ev. by vm_compute.
Defined.

(** C10 as stated fails.  The trigger entity of camera 2 is on, the
    trigger action is [live] and the view manager throws.  The start-up
    scan accepts the event of camera 2 and awaits its trigger action,
    whose navigation throws: the operation does not return true, it
    completes by throwing, with camera 2 marked as triggered. *)
Lemma initial_triggers_do_not_return :
  let api := sampleApi
               (Some (sampleConfig 10 false TriggerLive UntriggerDefault ModeAll))
               true in
  let r := handleInitialCameraTriggers sampleIsTriggeredState api
             (initialWorld 0) in
  anyTriggered sampleIsTriggeredState api = true
  ∧ r.1 = Thrown ∧ r.1 ≠ Returned true
  ∧ states r.2 !! "camera_2"
    = Some (mkState 0 {["binary_sensor.motion_2"]} None).
Proof. vm_compute. repeat split; done. Qed.

(** * Further properties of the code *)

(** ** The most recently triggered camera *)

Lemma baseExtremum_from {A} (f : A → Q) (l : list A) x0 :
  ∃ x l1 l2,
    foldl (baseExtremumStep f) (Some (f x0, x0)) l = Some (f x, x)
    ∧ x0 :: l = l1 ++ x :: l2
    ∧ (∀ y, y ∈ l1 → (f y < f x)%Q)
    ∧ (∀ y, y ∈ l2 → (f y <= f x)%Q).
Proof.
  induction l as [|a l IH] using rev_ind.
  - exists x0, [], []. repeat split; try done.
    + intros y Hy. by apply not_elem_of_nil in Hy.
    + intros y Hy. by apply not_elem_of_nil in Hy.
  - destruct IH as (x & l1 & l2 & Hfold & Hsplit & H1 & H2).
    rewrite foldl_app. simpl. rewrite Hfold. unfold baseExtremumStep at 1.
    destruct (Qlt_bool (f x) (f a)) eqn:E.
    + apply Qlt_bool_iff in E. exists a, (x0 :: l), []. repeat split; try done.
      * intros y Hy. rewrite Hsplit in Hy.
        apply elem_of_app in Hy as [Hy|Hy].
        -- specialize (H1 y Hy). lra.
        -- apply elem_of_cons in Hy as [->|Hy]; [done|].
           specialize (H2 y Hy). lra.
      * intros y Hy. by apply not_elem_of_nil in Hy.
    + exists x, l1, (l2 ++ [a]). repeat split; try done.
      * rewrite app_comm_cons, Hsplit, <- app_assoc. done.
      * intros y [Hy|Hy]%elem_of_app; [by apply H2|].
        apply list_elem_of_singleton in Hy. subst y.
        apply Qnot_lt_le. intros Hlt. apply Qlt_bool_iff in Hlt. congruence.
Qed.

Lemma maxBy_nil {A} (f : A → Q) : maxBy [] f = None.
Proof. reflexivity. Qed.

Lemma maxBy_cons {A} (f : A → Q) x0 l :
  ∃ x l1 l2,
    maxBy (x0 :: l) f = Some x
    ∧ x0 :: l = l1 ++ x :: l2
    ∧ (∀ y, y ∈ l1 → (f y < f x)%Q)
    ∧ (∀ y, y ∈ l2 → (f y <= f x)%Q).
Proof.
  destruct (baseExtremum_from f l x0) as (x & l1 & l2 & Hfold & H).
  exists x, l1, l2. split; [|done].
  unfold maxBy. simpl. change (baseExtremumStep f None x0) with (Some (f x0, x0)).
  by rewrite Hfold.
Qed.

Lemma enumerates_elem_of entries w c state :
  enumerates entries w →
  (c, state) ∈ entries ↔ states w !! c = Some state.
Proof.
  intros H. unfold enumerates in H. rewrite H. apply elem_of_map_to_list.
Qed.

Lemma filter_app_cons_inv {A} (P : A → bool) (l l1 l2 : list A) x :
  List.filter P l = l1 ++ x :: l2 →
  ∃ before after,
    l = before ++ x :: after
    ∧ List.filter P before = l1 ∧ List.filter P after = l2.
Proof.
  revert l1. induction l as [|a l IH]; intros l1 H; simpl in H.
  - by destruct l1.
  - destruct (P a) eqn:Pa.
    + destruct l1 as [|b l1]; simpl in H.
      * injection H as -> H. exists [], l. by rewrite H.
      * injection H as -> H. destruct (IH _ H) as (b' & a' & -> & H1 & H2).
        exists (b :: b'), a'. simpl. rewrite Pa, H1. done.
    + destruct (IH _ H) as (b' & a' & -> & H1 & H2).
      exists (a :: b'), a'. simpl. rewrite Pa. done.
Qed.

Lemma filter_nil_iff {A} (P : A → bool) (l : list A) :
  List.filter P l = [] ↔ ∀ x, x ∈ l → P x = false.
Proof.
  induction l as [|a l IH]; simpl.
  - split; [|done]. intros _ x Hx. by apply not_elem_of_nil in Hx.
  - destruct (P a) eqn:Pa.
    + split; [done|]. intros H. specialize (H a (list_elem_of_here _ _)). congruence.
    + rewrite IH. split.
      * intros H x [->|Hx]%elem_of_cons; auto.
      * intros H x Hx. apply H. by right.
Qed.

Lemma elem_of_List_filter {A} (P : A → bool) (l : list A) x :
  x ∈ List.filter P l ↔ x ∈ l ∧ P x = true.
Proof. rewrite !list_elem_of_In. apply filter_In. Qed.

Lemma mostRecent_None entries w :
  enumerates entries w →
  getMostRecentlyTriggeredCameraID entries = None ↔ getTriggeredCameraIDs w = ∅.
Proof.
  intros Hen. unfold getMostRecentlyTriggeredCameraID.
  destruct (List.filter _ entries) as [|x0 l] eqn:Hf.
  - split; [intros _|done]. apply set_eq. intros c. split; [|set_solver].
    intros (st & Hst & Htr)%elem_of_getTriggeredCameraIDs.
    apply (enumerates_elem_of _ _ _ _ Hen) in Hst.
    pose proof (proj1 (filter_nil_iff _ _) Hf _ Hst) as Hno. simpl in *. congruence.
  - destruct (maxBy_cons (λ entry : string * CameraTriggerState,
                            lastTriggerTime entry.2) x0 l)
      as (x & l1 & l2 & -> & _). split; [done|]. intros Hemp. exfalso.
    assert (x0 ∈ List.filter (λ entry : string * CameraTriggerState,
                                _isStateTriggered entry.2) entries) as Hin.
    { rewrite Hf. left. }
    apply elem_of_List_filter in Hin as [Hin Htr]. destruct x0 as [c st].
    apply (enumerates_elem_of _ _ _ _ Hen) in Hin.
    assert (c ∈ getTriggeredCameraIDs w) as Hc.
    { apply elem_of_getTriggeredCameraIDs. eauto. }
    rewrite Hemp in Hc. by apply not_elem_of_empty in Hc.
Qed.

Lemma mostRecent_Some entries w c :
  enumerates entries w →
  getMostRecentlyTriggeredCameraID entries = Some c →
  ∃ state before after,
    entries = before ++ (c, state) :: after
    ∧ c ∈ getTriggeredCameraIDs w
    ∧ (∀ c' state', states w !! c' = Some state' →
         _isStateTriggered state' = true →
         (lastTriggerTime state' <= lastTriggerTime state)%Q)
    ∧ (∀ c' state', (c', state') ∈ before →
         _isStateTriggered state' = true →
         (lastTriggerTime state' < lastTriggerTime state)%Q).
Proof.
  intros Hen Hc. unfold getMostRecentlyTriggeredCameraID in Hc.
  destruct (List.filter _ entries) as [|x0 l] eqn:Hf; [done|].
  destruct (maxBy_cons (λ entry : string * CameraTriggerState,
                          lastTriggerTime entry.2) x0 l)
    as (x & l1 & l2 & Hmax & Hsplit & H1 & H2).
  rewrite Hmax in Hc. destruct x as [c0 st]. simpl in Hc. injection Hc as ->.
  rewrite Hsplit in Hf.
  destruct (filter_app_cons_inv _ _ _ _ _ Hf) as (before & after & -> & Hb & Ha).
  assert ((c, st) ∈ List.filter (λ entry : string * CameraTriggerState,
                                   _isStateTriggered entry.2)
                      (before ++ (c, st) :: after)) as Hin.
  { rewrite Hf. apply elem_of_app. right. left. }
  apply elem_of_List_filter in Hin as [Hin Htr]. simpl in Htr.
  exists st, before, after. split; [done|]. split.
  { apply elem_of_getTriggeredCameraIDs. exists st. split; [|done].
    by apply (enumerates_elem_of _ _ _ _ Hen). }
  split.
  - intros c' st' Hst' Htr'.
    apply (enumerates_elem_of _ _ _ _ Hen) in Hst'.
    assert ((c', st') ∈ l1 ++ (c, st) :: l2) as Hin'.
    { rewrite <- Hf. apply elem_of_List_filter. done. }
    apply elem_of_app in Hin' as [Hin'|Hin'].
    + specialize (H1 _ Hin'). simpl in H1. lra.
    + apply elem_of_cons in Hin' as [[= -> ->]|Hin']; [apply Qle_refl|].
      apply (H2 _ Hin').
  - intros c' st' Hin' Htr'. apply (H1 (c', st')).
    rewrite <- Hb. apply elem_of_List_filter. done.
Qed.

Lemma mostRecent_None_isTriggered entries w :
  enumerates entries w →
  getMostRecentlyTriggeredCameraID entries = None ↔ isTriggered w = false.
Proof.
  intros Hen. rewrite (mostRecent_None _ _ Hen). split.
  - intros Hemp. destruct (isTriggered w) eqn:E; [|done].
    apply isTriggered_spec in E as [c Hc]. rewrite Hemp in Hc.
    by apply not_elem_of_empty in Hc.
  - intros Hno. apply set_eq. intros c. split; [|set_solver]. intros Hc.
    assert (isTriggered w = true) by (apply isTriggered_spec; eauto). congruence.
Qed.

(** ** No state is last triggered in the future *)

Lemma timesBelow_mono t t' m : (t <= t')%Q → timesBelow t m → timesBelow t' m.
Proof. intros Hle H c st Hst. specialize (H c st Hst). lra. Qed.

Lemma timesBelow_alter t f c m :
  (∀ state, lastTriggerTime (f state) = lastTriggerTime state
            ∨ (lastTriggerTime (f state) <= t)%Q) →
  timesBelow t m → timesBelow t (alter f c m).
Proof.
  intros Hf H c' st. rewrite lookup_alter. case_decide; [|apply H].
  subst c'. destruct (m !! c) as [st0|] eqn:Hst0; [|done]. simpl.
  intros [= <-]. destruct (Hf st0) as [Heq|Hle]; [|done].
  rewrite Heq. by apply (H c).
Qed.

Lemma timesBelow_delete t c m : timesBelow t m → timesBelow t (delete c m).
Proof. intros H c' st. rewrite lookup_delete. case_decide; [done|apply H]. Qed.

Lemma timely_touch ev w : timely w → timely (touch ev w).
Proof.
  intros H. unfold timely, touch. simpl. apply timesBelow_alter; [by left|].
  destruct (states w !! cameraID ev) eqn:Hst.
  - apply timesBelow_alter; [|done]. intros st. right. apply Qle_refl.
  - intros c st. rewrite lookup_insert. case_decide; [|apply H].
    intros [= <-]. apply Qle_refl.
Qed.

Lemma timely_cancelUntrigger c w : timely w → timely (cancelUntrigger c w).
Proof.
  intros H. unfold timely. rewrite cancelUntrigger_states, cancelUntrigger_now.
  apply timesBelow_alter; [by left|done].
Qed.

Lemma timely_acceptNew ev w : timely w → timely (acceptNew ev w).
Proof. intros H. by apply timely_cancelUntrigger, timely_touch. Qed.

Lemma timely_quiet w w' : quiet w w' → timely w → timely w'.
Proof. intros [Hst Hnow _ _ _] H. unfold timely. by rewrite Hst, Hnow. Qed.

Lemma timely_startTimer c seconds w : timely w → timely (startTimer c seconds w).
Proof. intros H. apply timesBelow_alter; [by left|done]. Qed.

Lemma timely_untriggerAction api c w :
  timely w → timely (_untriggerAction api c w).2.
Proof.
  intros H. rewrite untriggerAction_eq.
  pose proof (timely_cancelUntrigger c w H) as H1.
  pose proof (executeUntriggerAction_quiet api (cancelUntrigger c w)) as Hq.
  pose proof (timely_quiet _ _ Hq H1) as H2.
  destruct (_executeUntriggerAction api (cancelUntrigger c w)) as [[r|] w1];
    simpl in *; [|done].
  by apply timesBelow_delete.
Qed.

Lemma timely_startUntrigger api c w :
  timely w → timely (_startUntrigger api c w).2.
Proof.
  intros H. rewrite startUntrigger_eq.
  pose proof (timely_cancelUntrigger c w H) as H1.
  destruct (states (cancelUntrigger c w) !! c); [|done].
  destruct (Qlt_bool 0 (untriggerSeconds api)).
  - by apply timely_startTimer.
  - by apply timely_untriggerAction.
Qed.

Lemma timely_throttledTriggerAction api ev w :
  timely w → timely (_throttledTriggerAction api ev w).2.
Proof.
  intros H. by apply (timely_quiet _ _ (throttledTriggerAction_quiet api ev w)).
Qed.

Lemma timely_handleCameraEvent api ev skipAction w :
  timely w → timely (handleCameraEvent api ev skipAction w).2.
Proof.
  intros H. destruct (decide (type ev = EvEnd)) as [Hty|Hty].
  - rewrite handleCameraEvent_end_eq by done. cbv zeta.
    assert (timely (setStates (alter (deleteSource (id ev)) (cameraID ev)) w))
      as H1 by (apply timesBelow_alter; [by left|done]).
    destruct (sourcesExhausted _ _); [|done].
    pose proof (timely_startUntrigger api (cameraID ev) _ H1) as H2.
    by destruct (_startUntrigger _ _ _) as [[[]|] w'].
  - destruct (accepts api (cameraID ev)) eqn:Hacc.
    + rewrite handleCameraEvent_new_eq by done.
      pose proof (timely_acceptNew ev w H) as H1.
      destruct skipAction; [done|].
      pose proof (timely_throttledTriggerAction api ev _ H1) as H2.
      by destruct (_throttledTriggerAction _ _ _) as [[[]|] w'].
    + by rewrite handleCameraEvent_rejected.
Qed.

Lemma timely_foldl_acceptNew evs w :
  timely w → timely (foldl (λ w ev, acceptNew ev w) w evs).
Proof.
  revert w. induction evs as [|ev evs IH]; intros w H; simpl; [done|].
  by apply IH, timely_acceptNew.
Qed.

Lemma timely_handleInitialCameraTriggers isTriggeredState api w :
  timely w → timely (handleInitialCameraTriggers isTriggeredState api w).2.
Proof.
  intros H. rewrite handleInitialCameraTriggers_eq. cbv zeta.
  pose proof (timely_foldl_acceptNew
    (acceptedEvents api (synthesized isTriggeredState api)) w H) as H1.
  destruct (head _) as [ev|]; [|done].
  pose proof (timely_throttledTriggerAction api ev _ H1) as H2.
  by destruct (_throttledTriggerAction _ _ _) as [[[]|] w'].
Qed.

Lemma timely_fireTimeout api h w : timely w → timely (fireTimeout api h w).2.
Proof.
  intros H. rewrite fireTimeout_eq.
  destruct (List.find _ _) as [t|]; [|done].
  destruct (Qle_bool _ _); [|done].
  assert (timely (setTimeouts (filter (λ t, handle t ≠ h)) w)) as H1 by done.
  destruct (callback t) as [c|]; simpl.
  - by apply timely_untriggerAction.
  - by apply (timely_quiet _ _ (timerExpired_quiet api _)).
Qed.

Lemma timely_step isTriggeredState api op w :
  timely w → timely (step isTriggeredState api op w).
Proof.
  intros H. unfold step. destruct op as [ev skip| |h|t]; simpl.
  - rewrite bind_unfold.
    pose proof (timely_handleCameraEvent api ev skip w H).
    by destruct (handleCameraEvent _ _ _ _) as [[r|] w'].
  - rewrite bind_unfold.
    pose proof (timely_handleInitialCameraTriggers isTriggeredState api w H).
    by destruct (handleInitialCameraTriggers _ _ _) as [[r|] w'].
  - by apply timely_fireTimeout.
  - unfold advance. rewrite bind_unfold. unfold get at 1.
    destruct (Qle_bool _ _) eqn:E; [|done]. apply Qle_bool_iff in E.
    by apply (timesBelow_mono (now w)).
Qed.

Lemma reachable_timely isTriggeredState w :
  reachable isTriggeredState w → timely w.
Proof.
  induction 1 as [t|api op w Hw IH].
  - intros c st. simpl. by rewrite lookup_empty.
  - by apply timely_step.
Qed.

Lemma mostRecent_after_event isTriggeredState api ev skipAction w entries :
  reachable isTriggeredState w →
  type ev ≠ EvEnd → accepts api (cameraID ev) = true →
  let w' := step isTriggeredState api (OpCameraEvent ev skipAction) w in
  enumerates entries w' →
  ∃ c state,
    getMostRecentlyTriggeredCameraID entries = Some c
    ∧ states w' !! c = Some state
    ∧ (lastTriggerTime state == now w')%Q
    ∧ ((∀ c' state', c' ≠ cameraID ev → states w !! c' = Some state' →
          _isStateTriggered state' = true →
          (lastTriggerTime state' < now w)%Q) →
       c = cameraID ev).
Proof.
  intros Hreach Hty Hacc w' Hen.
  assert (states w' = states (acceptNew ev w)) as Hst.
  { unfold w'. rewrite step_cameraEvent. by apply handleCameraEvent_new_states. }
  assert (now w' = now w) as Hnow.
  { unfold w'. rewrite step_cameraEvent. by apply handleCameraEvent_new_now. }
  assert (timely w') as Htimely.
  { apply (reachable_timely isTriggeredState). by apply reachable_step. }
  assert (states w' !! cameraID ev = Some (clearTimer (touched ev w))) as Hlk.
  { rewrite Hst. apply acceptNew_lookup. }
  assert (lastTriggerTime (clearTimer (touched ev w)) = now w) as Htime.
  { unfold touched. by destruct (states w !! cameraID ev). }
  assert (_isStateTriggered (clearTimer (touched ev w)) = true) as Htr.
  { apply isStateTriggered_spec. left.
    change (sources (clearTimer ?s)) with (sources s). rewrite touched_sources.
    set_solver. }
  destruct (getMostRecentlyTriggeredCameraID entries) as [c|] eqn:Hres.
  2:{ apply (mostRecent_None _ _ Hen) in Hres.
      assert (cameraID ev ∈ getTriggeredCameraIDs w') as Hin.
      { apply elem_of_getTriggeredCameraIDs. eauto. }
      rewrite Hres in Hin. by apply not_elem_of_empty in Hin. }
  destruct (mostRecent_Some _ _ _ Hen Hres) as (st & b & a & Hsplit & Hc & Hmax & _).
  assert (states w' !! c = Some st) as Hlkc.
  { apply (enumerates_elem_of _ _ _ _ Hen). rewrite Hsplit.
    apply elem_of_app. right. left. }
  pose proof (Hmax _ _ Hlk Htr) as Hge. rewrite Htime in Hge.
  pose proof (Htimely _ _ Hlkc) as Hle. rewrite Hnow in Hle.
  exists c, st. split; [done|]. split; [done|]. split.
  { rewrite Hnow. by apply Qle_antisym. }
  intros Hothers. destruct (decide (c = cameraID ev)) as [|Hne]; [done|].
  exfalso.
  apply elem_of_getTriggeredCameraIDs in Hc as (st' & Hst' & Htr').
  rewrite Hlkc in Hst'. injection Hst' as <-.
  rewrite Hst, acceptNew_lookup_ne in Hlkc by done.
  specialize (Hothers c st Hne Hlkc Htr'). lra.
Qed.

(** X1. The three readers of the store agree, and
    [getMostRecentlyTriggeredCameraID] is right whatever the order of the
    entries of the Map: it returns null exactly when no camera is
    triggered; otherwise it returns a triggered camera whose last trigger
    time no triggered camera exceeds, and among several such cameras
    the one enumerated first. *)
Theorem getMostRecentlyTriggeredCameraID_spec entries w :
  enumerates entries w →
  (getMostRecentlyTriggeredCameraID entries = None ↔ isTriggered w = false)
  ∧ (getMostRecentlyTriggeredCameraID entries = None ↔ getTriggeredCameraIDs w = ∅)
  ∧ ∀ c, getMostRecentlyTriggeredCameraID entries = Some c →
      ∃ state before after,
        entries = before ++ (c, state) :: after
        ∧ c ∈ getTriggeredCameraIDs w
        ∧ (∀ c' state', states w !! c' = Some state' →
             _isStateTriggered state' = true →
             (lastTriggerTime state' <= lastTriggerTime state)%Q)
        ∧ (∀ c' state', (c', state') ∈ before →
             _isStateTriggered state' = true →
             (lastTriggerTime state' < lastTriggerTime state)%Q).
Proof.
  intros Hen. split; [by apply mostRecent_None_isTriggered|].
  split; [by apply mostRecent_None|].
  intros c. by apply mostRecent_Some.
Qed.

(** X1 on the store after a burst on two cameras: camera 1, triggered
    last, is the most recently triggered camera. *)
Lemma getMostRecentlyTriggeredCameraID_spec_witness :
  getMostRecentlyTriggeredCameraID sampleEntries = Some "camera_1"
  ∧ isTriggered afterBurst = true.
Proof.
  split; [by vm_compute|].
  destruct (getMostRecentlyTriggeredCameraID_spec sampleEntries afterBurst)
    as [H _].
  - unfold enumerates.
    assert (map_to_list (states afterBurst) = sampleEntries) as ->.
    { vm_compute. reflexivity. }
    reflexivity.
  - destruct (isTriggered afterBurst); [done|].
    pose proof (proj2 H eq_refl) as E. vm_compute in E. discriminate.
Defined.

(** X2. Right after an accepted [new] or [update] event, in any world
    reached from a fresh manager, the most recently triggered camera is a
    camera last triggered at the present time; it is the camera of the
    event when every other triggered camera was last triggered earlier. *)
Theorem getMostRecentlyTriggeredCameraID_after_event
    isTriggeredState api ev skipAction w entries :
  reachable isTriggeredState w →
  type ev ≠ EvEnd → accepts api (cameraID ev) = true →
  let w' := step isTriggeredState api (OpCameraEvent ev skipAction) w in
  enumerates entries w' →
  ∃ c state,
    getMostRecentlyTriggeredCameraID entries = Some c
    ∧ states w' !! c = Some state
    ∧ (lastTriggerTime state == now w')%Q
    ∧ ((∀ c' state', c' ≠ cameraID ev → states w !! c' = Some state' →
          _isStateTriggered state' = true →
          (lastTriggerTime state' < now w)%Q) →
       c = cameraID ev).
Proof. apply mostRecent_after_event. Qed.

(** X2 on the first event of a fresh manager. *)
Lemma getMostRecentlyTriggeredCameraID_after_event_witness :
  getMostRecentlyTriggeredCameraID [("camera_1", mkState 0 {["e1"]} None)]
  = Some "camera_1".
Proof.
  destruct (getMostRecentlyTriggeredCameraID_after_event sampleIsTriggeredState
              liveApi burstFirst false (initialWorld 0)
              [("camera_1", mkState 0 {["e1"]} None)])
    as (c & st & Hres & _ & _ & Hc).
  - apply reachable_initial.
  - discriminate.
  - vm_compute. reflexivity.
  - unfold enumerates.
    assert (map_to_list
              (states (step sampleIsTriggeredState liveApi
                         (OpCameraEvent burstFirst false) (initialWorld 0)))
            = [("camera_1", mkState 0 {["e1"]} None)]) as ->.
    { vm_compute. reflexivity. }
    reflexivity.
  - rewrite Hres, Hc; [reflexivity|].
    intros c' st' _. simpl. by rewrite lookup_empty.
Defined.

(** ** The condition state follows the store *)

#[global] Instance mute_preorder : PreOrder mute.
Proof.
  split.
  - intros w. by split.
  - intros w1 w2 w3 [Hs1 Hc1] [Hs2 Hc2]. split; congruence.
Qed.

Lemma mute_record c w : isConditionSetState c = None → mute w (record c w).
Proof.
  intros Hc. split; [done|]. simpl. rewrite omap_app. simpl. rewrite Hc.
  apply app_nil_r.
Qed.

Lemma preserves_mute_call c :
  isConditionSetState c = None → preserves mute (call c).
Proof. intros Hc. apply preserves_modify. intros w. by apply mute_record. Qed.

Lemma preserves_mute_viewManagerCall api c :
  isConditionSetState c = None → preserves mute (viewManagerCall api c).
Proof.
  intros Hc w. unfold viewManagerCall.
  destruct (viewManagerThrows api c); by apply mute_record.
Qed.

Lemma preserves_mute_setTimeout cb delay : preserves mute (setTimeout cb delay).
Proof. intros w. by split. Qed.

Lemma preserves_mute_clearTimeout h : preserves mute (clearTimeout h).
Proof. intros w. by split. Qed.

Lemma preserves_mute_gate api :
  preserves mute (_hasAllowableInteractionStateForAction api).
Proof. intros w. rewrite gate_eq. by apply mute_record. Qed.

Ltac preserves_mute :=
  repeat
    match goal with
    | |- PreOrder _ => apply _
    | |- preserves _ (mbind _ _) => apply preserves_bind; [..|intros ?]
    | |- preserves _ (mret _) => apply preserves_ret
    | |- preserves _ get => apply preserves_get
    | |- preserves _ throw => apply preserves_throw
    | |- preserves _ (await _) => apply preserves_await
    | |- preserves _ (settle _) => apply preserves_settle
    | |- preserves _ (setTimeout _ _) => apply preserves_mute_setTimeout
    | |- preserves _ (clearTimeout _) => apply preserves_mute_clearTimeout
    | |- preserves _ (_hasAllowableInteractionStateForAction _) =>
        apply preserves_mute_gate
    | |- preserves _ (viewManagerCall _ _) =>
        apply preserves_mute_viewManagerCall; reflexivity
    | |- preserves _ (call _) => apply preserves_mute_call; reflexivity
    | |- preserves _ (modify (setThrottled _)) =>
        apply preserves_modify; intros ?; by split
    | |- preserves _ (match ?x with _ => _ end) => destruct x
    | |- preserves _ (let _ := _ in _) => cbv zeta
    end.

Lemma preserves_mute_triggerAction api ev : preserves mute (_triggerAction api ev).
Proof. unfold _triggerAction. preserves_mute. Qed.

Lemma preserves_mute_executeUntriggerAction api :
  preserves mute (_executeUntriggerAction api).
Proof. unfold _executeUntriggerAction. preserves_mute. Qed.

Section MuteDebounce.
Variable func : CameraEvent → M unit.
Variable settings : Lodash.Settings.
Hypothesis func_mute : ∀ ev, preserves mute (func ev).

Lemma preserves_mute_invokeFunc time :
  preserves mute (Lodash.invokeFunc func time).
Proof using func_mute. unfold Lodash.invokeFunc. preserves_mute. apply func_mute. Qed.

Lemma preserves_mute_leadingEdge time :
  preserves mute (Lodash.leadingEdge func settings time).
Proof using func_mute.
  unfold Lodash.leadingEdge. preserves_mute. apply preserves_mute_invokeFunc.
Qed.

Lemma preserves_mute_trailingEdge time :
  preserves mute (Lodash.trailingEdge func settings time).
Proof using func_mute.
  unfold Lodash.trailingEdge. preserves_mute. apply preserves_mute_invokeFunc.
Qed.

Lemma preserves_mute_timerExpired :
  preserves mute (Lodash.timerExpired func settings).
Proof using func_mute.
  unfold Lodash.timerExpired. preserves_mute. apply preserves_mute_trailingEdge.
Qed.

Lemma preserves_mute_debounced ev :
  preserves mute (Lodash.debounced func settings ev).
Proof using func_mute.
  unfold Lodash.debounced. preserves_mute;
    solve [apply preserves_mute_leadingEdge | apply preserves_mute_invokeFunc].
Qed.
End MuteDebounce.

Lemma preserves_mute_throttledTriggerAction api ev :
  preserves mute (_throttledTriggerAction api ev).
Proof.
  unfold _throttledTriggerAction. preserves_mute.
  apply preserves_mute_debounced, preserves_mute_triggerAction.
Qed.

Lemma getTriggeredCameraIDs_ext w w' :
  (∀ c, c ∈ getTriggeredCameraIDs w' ↔ c ∈ getTriggeredCameraIDs w) →
  getTriggeredCameraIDs w' = getTriggeredCameraIDs w.
Proof. intros H. by apply set_eq. Qed.

Lemma getTriggeredCameraIDs_states w w' :
  states w' = states w → getTriggeredCameraIDs w' = getTriggeredCameraIDs w.
Proof. unfold getTriggeredCameraIDs. by intros ->. Qed.

Lemma conditionInSync_same w w' :
  getTriggeredCameraIDs w' = getTriggeredCameraIDs w →
  omap isConditionSetState (calls w') = omap isConditionSetState (calls w) →
  conditionInSync w → conditionInSync w'.
Proof.
  unfold conditionInSync, publishedTriggered, triggeredCondition.
  by intros -> ->.
Qed.

Lemma conditionInSync_mute w w' : mute w w' → conditionInSync w → conditionInSync w'.
Proof.
  intros [Hst Hc]. apply conditionInSync_same; [|done].
  by apply getTriggeredCameraIDs_states.
Qed.

Lemma conditionInSync_publish w : conditionInSync (publish w).
Proof.
  unfold conditionInSync, publishedTriggered, publish. simpl.
  rewrite omap_app. simpl. by rewrite last_snoc.
Qed.

Lemma conditionInSync_acceptNew ev w : conditionInSync (acceptNew ev w).
Proof. apply conditionInSync_publish. Qed.

Lemma conditionInSync_throttledTriggerAction api ev w :
  conditionInSync w → conditionInSync (_throttledTriggerAction api ev w).2.
Proof. apply conditionInSync_mute, preserves_mute_throttledTriggerAction. Qed.

Lemma conditionInSync_untriggerAction api c w :
  (_untriggerAction api c w).1 = Returned tt →
  conditionInSync (_untriggerAction api c w).2.
Proof.
  rewrite untriggerAction_eq.
  destruct (_executeUntriggerAction api (cancelUntrigger c w)) as [[r|] w1];
    simpl; [|done].
  intros _. apply (conditionInSync_mute (publish (setStates (delete c) w1))).
  - by apply mute_record.
  - apply conditionInSync_publish.
Qed.

(** Starting the grace timer of a camera that is triggered leaves the
    triggered cameras as they are. *)
Lemma startTimer_triggered c seconds w state :
  states w !! c = Some state → _isStateTriggered state = true →
  getTriggeredCameraIDs (startTimer c seconds (cancelUntrigger c w))
  = getTriggeredCameraIDs w.
Proof.
  intros Hst Htr. apply getTriggeredCameraIDs_ext. intros c'.
  rewrite !elem_of_getTriggeredCameraIDs. unfold startTimer.
  cbn [states setStates]. rewrite lookup_alter. case_decide as Hc.
  - subst c'. rewrite cancelUntrigger_lookup, Hst. simpl. split.
    + intros _. eauto.
    + intros _. eexists. split; [done|]. apply setTimer_triggered.
  - by rewrite cancelUntrigger_lookup_ne.
Qed.

Lemma deleteSource_triggered s c w :
  (∀ state, states w !! c = Some state →
     _isStateTriggered (deleteSource s state) = _isStateTriggered state) →
  getTriggeredCameraIDs (setStates (alter (deleteSource s) c) w)
  = getTriggeredCameraIDs w.
Proof.
  intros H. apply getTriggeredCameraIDs_ext. intros c'.
  rewrite !elem_of_getTriggeredCameraIDs. cbn [states setStates].
  rewrite lookup_alter. case_decide as Hc; [|done]. subst c'.
  destruct (states w !! c) as [st|] eqn:Hst; simpl.
  - specialize (H st eq_refl). split.
    + intros (st' & [= <-] & Htr). exists st. by rewrite <- H.
    + intros (st' & [= <-] & Htr). eexists. split; [done|]. by rewrite H.
  - split; by intros (? & ? & _).
Qed.

Lemma restartTimer_triggered f c seconds w state :
  states w !! c = Some state → _isStateTriggered state = true →
  getTriggeredCameraIDs
    (startTimer c seconds (cancelUntrigger c (setStates (alter f c) w)))
  = getTriggeredCameraIDs w.
Proof.
  intros Hst Htr. apply getTriggeredCameraIDs_ext. intros c'.
  rewrite !elem_of_getTriggeredCameraIDs. unfold startTimer.
  cbn [states setStates]. rewrite lookup_alter. case_decide as Hc.
  - subst c'. rewrite cancelUntrigger_lookup. cbn [states setStates].
    rewrite lookup_alter. case_decide; [|done]. rewrite Hst. simpl. split.
    + intros _. eauto.
    + intros _. eexists. split; [done|]. apply setTimer_triggered.
  - rewrite cancelUntrigger_lookup_ne by done. cbn [states setStates].
    rewrite lookup_alter. by case_decide.
Qed.

Lemma conditionInSync_end api ev skipAction w r :
  type ev = EvEnd →
  conditionInSync w → noTombstones w →
  (handleCameraEvent api ev skipAction w).1 = Returned r →
  conditionInSync (handleCameraEvent api ev skipAction w).2.
Proof.
  intros Hty Hsync Hno.
  destruct (states w !! cameraID ev) as [st|] eqn:Hst.
  2:{ by rewrite handleCameraEvent_end_unknown. }
  pose proof (Hno _ _ Hst) as Htr.
  rewrite handleCameraEvent_end_eq by done. cbv zeta.
  set (w1 := setStates (alter (deleteSource (id ev)) (cameraID ev)) w).
  assert (states w1 !! cameraID ev = Some (deleteSource (id ev) st)) as Hst1.
  { unfold w1. simpl. rewrite lookup_alter. case_decide; [|done]. by rewrite Hst. }
  destruct (sourcesExhausted (cameraID ev) w1) eqn:Hex.
  - rewrite startUntrigger_eq, cancelUntrigger_lookup, Hst1. simpl.
    destruct (Qlt_bool 0 (untriggerSeconds api)).
    + intros _. simpl. revert Hsync. apply conditionInSync_same.
      * by apply (restartTimer_triggered _ _ _ _ st).
      * unfold startTimer. simpl. by rewrite cancelUntrigger_calls.
    + pose proof (conditionInSync_untriggerAction api (cameraID ev)
                    (cancelUntrigger (cameraID ev) w1)) as H.
      destruct (_untriggerAction _ _ _) as [[[]|] w']; simpl in *; [|done].
      intros _. by apply H.
  - intros _. simpl. revert Hsync. apply conditionInSync_same; [|done].
    apply deleteSource_triggered. intros st' Hst'.
    rewrite Hst in Hst'. injection Hst' as <-. rewrite Htr.
    unfold sourcesExhausted in Hex. rewrite Hst1 in Hex.
    unfold _isStateTriggered. by rewrite Hex.
Qed.

Lemma conditionInSync_handleCameraEvent api ev skipAction w r :
  conditionInSync w → noTombstones w →
  (handleCameraEvent api ev skipAction w).1 = Returned r →
  conditionInSync (handleCameraEvent api ev skipAction w).2.
Proof.
  intros Hsync Hno. destruct (decide (type ev = EvEnd)) as [Hty|Hty].
  { by apply conditionInSync_end. }
  intros _. destruct (accepts api (cameraID ev)) eqn:Hacc.
  - rewrite handleCameraEvent_new_eq by done.
    pose proof (conditionInSync_acceptNew ev w) as H1.
    destruct skipAction; [done|].
    pose proof (conditionInSync_throttledTriggerAction api ev _ H1) as H2.
    by destruct (_throttledTriggerAction _ _ _) as [[[]|] w'].
  - by rewrite handleCameraEvent_rejected.
Qed.

Lemma conditionInSync_foldl_acceptNew evs w :
  conditionInSync w → conditionInSync (foldl (λ w ev, acceptNew ev w) w evs).
Proof.
  revert w. induction evs as [|ev evs IH]; intros w H; simpl; [done|].
  apply IH, conditionInSync_acceptNew.
Qed.

Lemma conditionInSync_handleInitialCameraTriggers isTriggeredState api w :
  conditionInSync w →
  conditionInSync (handleInitialCameraTriggers isTriggeredState api w).2.
Proof.
  intros H. rewrite handleInitialCameraTriggers_eq. cbv zeta.
  pose proof (conditionInSync_foldl_acceptNew
    (acceptedEvents api (synthesized isTriggeredState api)) w H) as H1.
  destruct (head _) as [ev|]; [|done].
  pose proof (conditionInSync_throttledTriggerAction api ev _ H1) as H2.
  by destruct (_throttledTriggerAction _ _ _) as [[[]|] w'].
Qed.

Lemma conditionInSync_fireTimeout api h w :
  conditionInSync w →
  (fireTimeout api h w).1 = Returned tt →
  conditionInSync (fireTimeout api h w).2.
Proof.
  intros H. rewrite fireTimeout_eq.
  destruct (List.find _ _) as [t|]; [|done].
  destruct (Qle_bool _ _); [|done].
  assert (conditionInSync (setTimeouts (filter (λ t, handle t ≠ h)) w)) as H1 by done.
  destruct (callback t) as [c|]; simpl.
  - apply conditionInSync_untriggerAction.
  - intros _. revert H1. apply conditionInSync_mute.
    apply preserves_mute_timerExpired, preserves_mute_triggerAction.
Qed.

Lemma conditionInSync_step isTriggeredState api op w :
  conditionInSync w → noTombstones w →
  (perform isTriggeredState api op w).1 = Returned tt →
  conditionInSync (step isTriggeredState api op w).
Proof.
  intros H Hno. unfold step. destruct op as [ev skip| |h|t]; simpl.
  - rewrite bind_unfold.
    pose proof (conditionInSync_handleCameraEvent api ev skip w) as H1.
    destruct (handleCameraEvent _ _ _ _) as [[r|] w']; [|done].
    intros _. by apply (H1 r).
  - rewrite bind_unfold.
    pose proof (conditionInSync_handleInitialCameraTriggers isTriggeredState api w H).
    by destruct (handleInitialCameraTriggers _ _ _) as [[r|] w'].
  - by apply conditionInSync_fireTimeout.
  - intros _. unfold advance. rewrite bind_unfold. unfold get at 1.
    by destruct (Qle_bool _ _).
Qed.

(** X3. An operation that runs to its end with no other operation in
    between, and returns, keeps the condition state manager in step with
    the store, provided the store held no state without source and
    without timer: if the last [setState] call carried the cameras that
    [getTriggeredCameraIDs] reported (or no value when there was none;
    before any call no camera was triggered), the same is true after the
    operation, and the store still holds no state without source and
    timer. *)
Theorem condition_state_follows_store isTriggeredState api op w :
  conditionInSync w → noTombstones w →
  (perform isTriggeredState api op w).1 = Returned tt →
  conditionInSync (step isTriggeredState api op w)
  ∧ noTombstones (step isTriggeredState api op w).
Proof.
  intros Hsync Hno Hret. split.
  - by apply conditionInSync_step.
  - by apply noTombstones_step.
Qed.

(** X3 at the expiry of the grace timer of camera 1. *)
Lemma condition_state_follows_store_witness :
  let w := step sampleIsTriggeredState (graceApi false) (OpAdvance 11000)
             graceWorld in
  conditionInSync (step sampleIsTriggeredState (graceApi false) (OpTimeout 1) w).
Proof.
  intros w.
  apply (condition_state_follows_store sampleIsTriggeredState (graceApi false)
           (OpTimeout 1) w).
  - vm_compute. reflexivity.
  - assert (states w = {["camera_1" := mkState 0 ∅ (Some (mkTimer 1))]}) as Hw
      by (vm_compute; reflexivity).
    intros c state. rewrite Hw. by intros [_ <-]%lookup_singleton_Some.
  - vm_compute. reflexivity.
Defined.

(** ** Operations and the cameras they are about *)

Lemma foldl_acceptNew_lookup_ne evs c w :
  (∀ ev, ev ∈ evs → cameraID ev ≠ c) →
  states (foldl (λ w ev, acceptNew ev w) w evs) !! c = states w !! c.
Proof.
  revert w. induction evs as [|ev evs IH]; intros w H; simpl; [done|].
  rewrite IH by (intros ev' Hin; apply H; by right).
  apply acceptNew_lookup_ne, H. left.
Qed.

Lemma handleInitialCameraTriggers_states isTriggeredState api w :
  states (handleInitialCameraTriggers isTriggeredState api w).2
  = states (foldl (λ w ev, acceptNew ev w) w
              (acceptedEvents api (synthesized isTriggeredState api))).
Proof.
  rewrite handleInitialCameraTriggers_eq. cbv zeta.
  destruct (head _) as [ev|]; [|done].
  pose proof (throttledTriggerAction_states api ev
    (foldl (λ w ev, acceptNew ev w) w
       (acceptedEvents api (synthesized isTriggeredState api)))) as Hst.
  by destruct (_throttledTriggerAction _ _ _) as [[[]|] w'].
Qed.

Lemma untriggerAction_lookup_ne api c c' w :
  c ≠ c' → states (_untriggerAction api c w).2 !! c' = states w !! c'.
Proof.
  intros Hc. rewrite untriggerAction_states.
  destruct (_untriggerAction api c w).1.
  - by rewrite lookup_delete_ne.
  - rewrite lookup_alter. by case_decide.
Qed.

(** X4. Every operation changes the state of the cameras it is about
    and of no other: a camera event that of its camera, the start-up
    scan those of the cameras whose events it accepts, the expiry of a
    grace timeout that of its camera, the expiry of the throttle's
    timeout and the passing of time none. *)
Theorem operation_touches_its_cameras isTriggeredState api op c w :
  ¬ touches isTriggeredState api op w c →
  states (step isTriggeredState api op w) !! c = states w !! c.
Proof.
  intros Hno. destruct op as [ev skip| |h|t]; simpl in Hno.
  - rewrite step_cameraEvent. by apply handleCameraEvent_other_cameras.
  - rewrite step_initialCameraTriggers, handleInitialCameraTriggers_states.
    apply foldl_acceptNew_lookup_ne. intros ev Hin Hc. apply Hno. eauto.
  - rewrite step_timeout, fireTimeout_eq.
    destruct (List.find _ _) as [t|] eqn:Hfind; [|done].
    apply find_handle_elem_of in Hfind as [Hin Hh].
    destruct (Qle_bool _ _); [|done].
    destruct (callback t) as [c0|] eqn:Hcb; simpl.
    + rewrite untriggerAction_lookup_ne; [done|].
      intros ->. apply Hno. eauto.
    + by destruct (timerExpired_quiet api
                     (setTimeouts (filter (λ t, handle t ≠ h)) w)) as [-> _ _ _ _].
  - by rewrite advance_states.
Qed.

(** X4 on an event of camera 2 while camera 1 is in its grace period. *)
Lemma operation_touches_its_cameras_witness :
  states (step sampleIsTriggeredState (graceApi false)
            (OpCameraEvent (sampleEvent "camera_2" "e2" EvNew) false)
            graceWorld) !! "camera_1"
  = Some (mkState 0 ∅ (Some (mkTimer 1))).
Proof.
  rewrite (operation_touches_its_cameras sampleIsTriggeredState (graceApi false)
             (OpCameraEvent (sampleEvent "camera_2" "e2" EvNew) false)
             "camera_1" graceWorld).
  - vm_compute. reflexivity.
  - simpl. discriminate.
Defined.

(** ** The untrigger, step by step *)

Lemma executeUntriggerAction_eq api w :
  _executeUntriggerAction api w
  = (if existsb (viewManagerThrows api)
          (List.filter isViewManagerCall (untriggerCalls api))
     then Thrown else Returned true,
     appendCalls (untriggerCalls api) w).
Proof.
  unfold _executeUntriggerAction, untriggerCalls.
  destruct (triggersConfig api) as [tc|] eqn:Htc; simpl.
  2:{ unfold appendCalls. by rewrite app_nil_r, world_eta. }
  destruct (untrigger (actions tc)); simpl.
  { unfold appendCalls. by rewrite app_nil_r, world_eta. }
  rewrite bind_unfold, gate_eq. destruct (gate api); simpl.
  - rewrite bind_unfold. unfold viewManagerCall.
    destruct (viewManagerThrows api (SetViewDefault None)); simpl;
      unfold appendCalls, record; simpl; by rewrite <- app_assoc.
  - done.
Qed.

Lemma untriggerAction_effect api c w :
  viewManagerThrows api (SetViewDefault None) = false →
  _untriggerAction api c w = (Returned tt, untriggered api c w).
Proof.
  intros Hok. rewrite untriggerAction_eq, executeUntriggerAction_eq.
  assert (existsb (viewManagerThrows api)
            (List.filter isViewManagerCall (untriggerCalls api)) = false) as ->; [|done].
  unfold untriggerCalls. destruct (_ <$> triggersConfig api) as [[]|]; try done.
  simpl. destruct (gate api); [|done]. simpl. by rewrite Hok.
Qed.

Lemma untriggered_states api c w :
  states (untriggered api c w) = delete c (states w).
Proof.
  unfold untriggered. simpl. rewrite cancelUntrigger_states.
  apply delete_alter_eq.
Qed.

Lemma untriggered_calls api c w :
  calls (untriggered api c w)
  = calls w ++ untriggerCalls api
    ++ [ConditionSetState (triggeredCondition (untriggered api c w));
        CardElementUpdate].
Proof.
  unfold untriggered, publish, record, appendCalls. simpl.
  rewrite cancelUntrigger_calls, <- !app_assoc. reflexivity.
Qed.

Lemma untriggered_not_triggered api c w :
  c ∉ getTriggeredCameraIDs (untriggered api c w).
Proof.
  rewrite elem_of_getTriggeredCameraIDs, untriggered_states, lookup_delete_eq.
  by intros (? & ? & _).
Qed.

Lemma untriggered_timeouts api c w t :
  t ∈ timeouts (untriggered api c w) → t ∈ timeouts w.
Proof. unfold untriggered. simpl. by intros [H _]%cancelUntrigger_timeouts. Qed.

Lemma viewManagerCalls_app w l :
  viewManagerCalls (appendCalls l w)
  = viewManagerCalls w ++ List.filter isViewManagerCall l.
Proof. unfold viewManagerCalls. simpl. apply List.filter_app. Qed.

Lemma untriggered_viewManagerCalls api c w :
  viewManagerCalls (untriggered api c w)
  = viewManagerCalls w ++ List.filter isViewManagerCall (untriggerCalls api).
Proof.
  unfold viewManagerCalls. rewrite untriggered_calls, !List.filter_app. simpl.
  by rewrite app_nil_r.
Qed.

Lemma cancelUntrigger_idemp c w :
  cancelUntrigger c (cancelUntrigger c w) = cancelUntrigger c w.
Proof.
  unfold cancelUntrigger at 1. rewrite cancelUntrigger_lookup.
  by destruct (states w !! c).
Qed.

Lemma untriggered_cancelUntrigger api c w :
  untriggered api c (cancelUntrigger c w) = untriggered api c w.
Proof. unfold untriggered. by rewrite cancelUntrigger_idemp. Qed.

(** X5. The [end] of one source of a camera that has another active
    source only removes that source: the event is accepted, the camera
    stays triggered, no timer is started or stopped and no collaborator
    is called. *)
Theorem end_with_other_source_active api ev skipAction w state :
  type ev = EvEnd →
  states w !! cameraID ev = Some state →
  sources state ∖ {[id ev]} ≠ ∅ →
  let r := handleCameraEvent api ev skipAction w in
  r = (Returned true, setStates (alter (deleteSource (id ev)) (cameraID ev)) w)
  ∧ states r.2 !! cameraID ev = Some (deleteSource (id ev) state)
  ∧ cameraID ev ∈ getTriggeredCameraIDs r.2
  ∧ timeouts r.2 = timeouts w ∧ calls r.2 = calls w.
Proof.
  intros Hty Hst Hsrc r.
  set (w1 := setStates (alter (deleteSource (id ev)) (cameraID ev)) w).
  assert (states w1 !! cameraID ev = Some (deleteSource (id ev) state)) as Hst1.
  { unfold w1. simpl. rewrite lookup_alter. case_decide; [|done]. by rewrite Hst. }
  assert (r = (Returned true, w1)) as ->.
  { unfold r. rewrite handleCameraEvent_end_eq by done. cbv zeta. fold w1.
    assert (sourcesExhausted (cameraID ev) w1 = false) as ->; [|done].
    unfold sourcesExhausted. rewrite Hst1. simpl.
    destruct (size _ =? 0) eqn:Hsz; [|done]. by apply size_zero_empty in Hsz. }
  split; [done|]. split; [done|]. split; [|done].
  apply active_triggered. by exists (deleteSource (id ev) state).
Qed.

(** X6. Without grace seconds (zero or negative, or no configuration at
    all, for which they count as zero), the [end] of the last source of
    a camera untriggers it at once: the event is accepted, the state of
    the camera leaves the store, no timeout is scheduled, the untrigger
    action runs, the triggered cameras are published and the card is
    updated.  Without a configuration the view manager is not called. *)
Theorem end_without_grace_untriggers_at_once api ev skipAction w state :
  type ev = EvEnd →
  states w !! cameraID ev = Some state →
  sources state ⊆ {[id ev]} →
  (untriggerSeconds api <= 0)%Q →
  viewManagerThrows api (SetViewDefault None) = false →
  let r := handleCameraEvent api ev skipAction w in
  r.1 = Returned true
  ∧ states r.2 = delete (cameraID ev) (states w)
  ∧ (cameraID ev ∉ getTriggeredCameraIDs r.2)
  ∧ (∀ t, t ∈ timeouts r.2 → t ∈ timeouts w)
  ∧ calls r.2
    = calls w ++ untriggerCalls api
      ++ [ConditionSetState (triggeredCondition r.2); CardElementUpdate]
  ∧ (config api = None → viewManagerCalls r.2 = viewManagerCalls w).
Proof.
  intros Hty Hst Hsrc HG Hok r.
  set (c := cameraID ev) in *.
  set (w1 := setStates (alter (deleteSource (id ev)) c) w).
  assert (states w1 !! c = Some (deleteSource (id ev) state)) as Hst1.
  { unfold w1. simpl. rewrite lookup_alter. case_decide; [|done]. by rewrite Hst. }
  assert (r = (Returned true, untriggered api c w1)) as ->.
  { unfold r. rewrite handleCameraEvent_end_eq by done. cbv zeta. fold c w1.
    assert (sourcesExhausted c w1 = true) as ->.
    { unfold sourcesExhausted. rewrite Hst1. simpl. apply size_zero_empty.
      by apply subseteq_empty_difference_L. }
    rewrite startUntrigger_eq, cancelUntrigger_lookup, Hst1. simpl.
    assert (Qlt_bool 0 (untriggerSeconds api) = false) as ->.
    { destruct (Qlt_bool _ _) eqn:E; [|done]. apply Qlt_bool_iff in E. lra. }
    by rewrite untriggerAction_effect, untriggered_cancelUntrigger. }
  cbn [fst snd]. split; [done|]. split.
  { rewrite untriggered_states. unfold w1. simpl. apply delete_alter_eq. }
  split; [apply untriggered_not_triggered|]. split.
  { intros t Hin. by apply untriggered_timeouts in Hin. }
  split; [by rewrite untriggered_calls|].
  intros Hcfg. rewrite untriggered_viewManagerCalls.
  unfold untriggerCalls, triggersConfig. rewrite Hcfg. simpl. apply app_nil_r.
Qed.

(** X5 on camera 1 after the burst, which has the sources e1 and e3. *)
Lemma end_with_other_source_active_witness :
  "camera_1" ∈ getTriggeredCameraIDs
    (handleCameraEvent liveApi (sampleEvent "camera_1" "e1" EvEnd) false
       afterBurst).2.
Proof.
  destruct (end_with_other_source_active liveApi
              (sampleEvent "camera_1" "e1" EvEnd) false afterBurst
              (mkState 300 {["e1"; "e3"]} None)) as (_ & _ & H & _).
  - reflexivity.
  - vm_compute. reflexivity.
  - vm_compute. discriminate.
  - exact H.
Defined.

(** X6 when the configuration has gone by the time the source ends. *)
Lemma end_without_grace_untriggers_at_once_witness :
  let r := handleCameraEvent noConfigApi (sampleEvent "camera_1" "e1" EvEnd)
             false triggeredWorld in
  states r.2 = ∅ ∧ viewManagerCalls r.2 = viewManagerCalls triggeredWorld.
Proof.
  destruct (end_without_grace_untriggers_at_once noConfigApi
              (sampleEvent "camera_1" "e1" EvEnd) false triggeredWorld
              (mkState 0 {["e1"]} None)) as (_ & H1 & _ & _ & _ & H2).
  - reflexivity.
  - vm_compute. reflexivity.
  - reflexivity.
  - vm_compute. discriminate.
  - reflexivity.
  - split; [|by apply H2]. rewrite H1. vm_compute. reflexivity.
Defined.

(** X7. When the grace timeout of a camera expires and the view manager
    does not throw, the camera is untriggered whatever the action gate
    says: its state leaves the store, the timeout is no longer pending,
    the triggered cameras are published and the card is updated; the
    view manager is asked for the default view only if the untrigger
    action is [default] and the gate allows it. *)
Theorem grace_expiry_untriggers isTriggeredState api c h t w :
  List.find (λ t, bool_decide (handle t = h)) (timeouts w) = Some t →
  callback t = CbUntrigger c →
  (due t <= now w)%Q →
  viewManagerThrows api (SetViewDefault None) = false →
  let w' := step isTriggeredState api (OpTimeout h) w in
  states w' = delete c (states w)
  ∧ (c ∉ getTriggeredCameraIDs w')
  ∧ (∀ t', t' ∈ timeouts w' → t' ∈ timeouts w ∧ handle t' ≠ h)
  ∧ calls w'
    = calls w ++ untriggerCalls api
      ++ [ConditionSetState (triggeredCondition w'); CardElementUpdate]
  ∧ viewManagerCalls w'
    = viewManagerCalls w
      ++ (if bool_decide ((λ t, untrigger (actions t)) <$> triggersConfig api
                          = Some UntriggerDefault) && gate api
          then [SetViewDefault None] else []).
Proof.
  intros Hfind Hcb Hdue Hok w'.
  set (w0 := setTimeouts (filter (λ t, handle t ≠ h)) w).
  assert (w' = untriggered api c w0) as ->.
  { unfold w'. rewrite step_timeout, fireTimeout_eq, Hfind.
    apply Qle_bool_iff in Hdue. rewrite Hdue, Hcb. simpl.
    by rewrite untriggerAction_effect. }
  split; [by rewrite untriggered_states|].
  split; [apply untriggered_not_triggered|]. split.
  { intros t' Hin%untriggered_timeouts. unfold w0 in Hin. simpl in Hin.
    apply list_elem_of_filter in Hin. tauto. }
  split; [by rewrite untriggered_calls|].
  rewrite untriggered_viewManagerCalls. f_equal. unfold untriggerCalls.
  destruct (_ <$> triggersConfig api) as [[]|]; try done.
  simpl. by destruct (gate api).
Qed.

(** X7 on the grace timeout of camera 1, at the time it is due. *)
Lemma grace_expiry_untriggers_witness :
  let w' := step sampleIsTriggeredState (graceApi false) (OpTimeout 1)
              (step sampleIsTriggeredState (graceApi false) (OpAdvance 11000)
                 graceWorld) in
  states w' = ∅ ∧ viewManagerCalls w' = [SetViewDefault None].
Proof.
  destruct (grace_expiry_untriggers sampleIsTriggeredState (graceApi false)
              "camera_1" 1 (mkTimeout 1 11000 (CbUntrigger "camera_1"))
              (step sampleIsTriggeredState (graceApi false) (OpAdvance 11000)
                 graceWorld)) as (H1 & _ & _ & _ & H2).
  - vm_compute. reflexivity.
  - reflexivity.
  - vm_compute. discriminate.
  - reflexivity.
  - split.
    + rewrite H1. vm_compute. reflexivity.
    + rewrite H2. vm_compute. reflexivity.
Defined.

(** ** From the cameras to the manager *)

Lemma acceptNew_source_mono ev c s w state :
  states w !! c = Some state → s ∈ sources state →
  ∃ state', states (acceptNew ev w) !! c = Some state' ∧ s ∈ sources state'.
Proof.
  intros Hst Hs. destruct (decide (cameraID ev = c)) as [<-|Hc].
  - rewrite acceptNew_lookup. eexists. split; [done|].
    change (sources (clearTimer ?x)) with (sources x).
    rewrite touched_sources, Hst. simpl. set_solver.
  - rewrite acceptNew_lookup_ne by done. eauto.
Qed.

Lemma foldl_acceptNew_source_mono evs c s w state :
  states w !! c = Some state → s ∈ sources state →
  ∃ state', states (foldl (λ w ev, acceptNew ev w) w evs) !! c = Some state'
            ∧ s ∈ sources state'.
Proof.
  revert w state. induction evs as [|ev evs IH]; intros w st Hst Hs; simpl; [eauto|].
  destruct (acceptNew_source_mono ev c s w st Hst Hs) as (st' & Hst' & Hs').
  by apply (IH _ st').
Qed.

Lemma foldl_acceptNew_source evs ev w :
  ev ∈ evs →
  ∃ state, states (foldl (λ w ev, acceptNew ev w) w evs) !! cameraID ev = Some state
           ∧ id ev ∈ sources state.
Proof.
  revert w. induction evs as [|ev' evs IH]; intros w Hin; simpl.
  { by apply not_elem_of_nil in Hin. }
  apply elem_of_cons in Hin as [->|Hin]; [|by apply IH].
  apply (foldl_acceptNew_source_mono _ _ _ _ (clearTimer (touched ev' w))).
  - apply acceptNew_lookup.
  - change (sources (clearTimer ?x)) with (sources x).
    rewrite touched_sources. set_solver.
Qed.

Lemma handleCameraEvent_end_source api ev skipAction w state :
  type ev = EvEnd →
  states (handleCameraEvent api ev skipAction w).2 !! cameraID ev = Some state →
  id ev ∉ sources state.
Proof.
  intros Hty. rewrite handleCameraEvent_end_states by done. cbv zeta.
  rewrite lookup_alter. case_decide; [|done].
  destruct (states w !! cameraID ev) as [st|] eqn:Hst; simpl.
  2:{ rewrite lookup_alter. case_decide; [|done]. by rewrite Hst. }
  assert (id ev ∉ sources (deleteSource (id ev) st)) as Hno.
  { simpl. intros [_ Hn]%elem_of_difference. apply Hn. by apply elem_of_singleton. }
  destruct (size _ =? 0).
  - destruct (Qlt_bool _ _).
    + rewrite !lookup_alter. repeat (case_decide; [|done]). rewrite Hst. simpl.
      by intros [= <-].
    + destruct (handleCameraEvent _ _ _ _).1.
      * by rewrite lookup_delete_eq.
      * rewrite !lookup_alter. repeat (case_decide; [|done]). rewrite Hst. simpl.
        by intros [= <-].
  - rewrite lookup_alter. case_decide; [|done]. rewrite Hst. simpl.
    by intros [= <-].
Qed.

(** X8. The source that the start-up scan records for a trigger entity
    that is in a triggered state is the one that the state-change
    handler of the camera ends: the handler's event for the entity
    leaving the triggered states is an [end] event of the same camera and
    source id, the manager does not reject it, and afterwards the entity
    is no longer among the sources of the camera. *)
Theorem startup_source_ended_by_state_change
    isTriggeredState api api' camera c entities e s ev skipAction w :
  Camera.getID camera = Value c →
  (c, entities) ∈ cameras api → e ∈ entities →
  isTriggeredState (hass api ≫= (.!! e)) = true →
  accepts api c = true →
  isTriggeredState (Some s) = false →
  Camera._stateChangeHandler isTriggeredState camera
    (HassStateDifference.mk e s) = Value (Some ev) →
  let w1 := (handleInitialCameraTriggers isTriggeredState api w).2 in
  let r := handleCameraEvent api' ev skipAction w1 in
  (∃ state, states w1 !! c = Some state ∧ e ∈ sources state)
  ∧ ev = mkCameraEvent c e EvEnd None None None
  ∧ r.1 ≠ Returned false
  ∧ (∀ state, states r.2 !! c = Some state → e ∉ sources state).
Proof.
  intros Hid Hcam He Htrig Hacc Hoff Hev w1 r.
  assert (ev = mkCameraEvent c e EvEnd None None None) as ->.
  { unfold Camera._stateChangeHandler in Hev.
    destruct (Camera._eventCallback camera); [|done].
    rewrite Hid in Hev. simpl in Hev. rewrite Hoff in Hev. by injection Hev as <-. }
  split.
  { unfold w1. rewrite handleInitialCameraTriggers_states.
    apply (foldl_acceptNew_source _ (mkCameraEvent c e EvNew None None None)).
    apply elem_of_acceptedEvents. split; [|done].
    by apply (elem_of_synthesized _ _ c entities e). }
  split; [done|]. split.
  { unfold r. destruct (handleCameraEvent_end_completion api'
      (mkCameraEvent c e EvEnd None None None) skipAction w1 eq_refl) as [-> | ->];
      done. }
  intros st Hst.
  by apply (handleCameraEvent_end_source api'
              (mkCameraEvent c e EvEnd None None None) skipAction w1 st).
Qed.

(** X8 on camera 2, whose motion sensor is on at start-up and then goes
    off. *)
Lemma startup_source_ended_by_state_change_witness :
  ∃ state,
    states (handleInitialCameraTriggers sampleIsTriggeredState liveApi
              (initialWorld 0)).2 !! "camera_2" = Some state
    ∧ "binary_sensor.motion_2" ∈ sources state.
Proof.
  destruct (startup_source_ended_by_state_change sampleIsTriggeredState
              liveApi liveApi sampleCamera "camera_2"
              ["binary_sensor.motion_2"] "binary_sensor.motion_2" "off"
              (mkCameraEvent "camera_2" "binary_sensor.motion_2" EvEnd
                 None None None)
              false (initialWorld 0)) as (H & _).
  - reflexivity.
  - left.
  - left.
  - vm_compute. reflexivity.
  - vm_compute. reflexivity.
  - reflexivity.
  - reflexivity.
  - exact H.
Defined.

(** ** The events of a Frigate camera *)

Lemma truthy_string_Some s : truthy_string s = true → ∃ x, s = Some x ∧ x ≠ "".
Proof.
  destruct s as [x|]; [|done]. simpl. intros H. exists x. split; [done|].
  apply negb_true_iff in H. by apply bool_decide_eq_false in H.
Qed.

(** X9. An event that [_frigateEventHandler] hands to the event
    callback is of high fidelity and carries the identifier of the
    camera, the Frigate event's identifier and its type.  It is handed
    over only for a camera that has an identifier, for an event in one of
    the configured zones and with one of the configured labels (when any
    are configured), and when all events are asked for or a media kind
    asked for changed.  Its clip flag is set exactly when clips are asked
    for and the event gained a clip, its snapshot flag only when
    snapshots are asked for. *)
Theorem frigateEventHandler_event camera ev e :
  FrigateCamera._frigateEventHandler camera ev = Some e →
  let config := Camera._config camera in
  let events := CameraTriggers.events (CameraConfig.triggers config) in
  let after := FrigateEventChange.after ev in
  CameraConfig.id config = Some (cameraID e) ∧ cameraID e ≠ ""
  ∧ id e = FrigateEvent.id after
  ∧ type e = FrigateEventChange.type ev
  ∧ fidelity e = Some high
  ∧ clip e = Some (bool_decide (OnClips ∈ events)
                   && negb (FrigateEvent.has_clip (FrigateEventChange.before ev))
                   && FrigateEvent.has_clip after)
  ∧ (snapshot e = Some true → OnSnapshots ∈ events)
  ∧ (OnEvents ∈ events ∨ clip e = Some true ∨ snapshot e = Some true)
  ∧ (∀ zones, FrigateConfig.zones (CameraConfig.frigate config) = Some zones →
       zones ≠ [] →
       ∃ zone, zone ∈ zones ∧ zone ∈ FrigateEvent.current_zones after)
  ∧ (∀ labels, FrigateConfig.labels (CameraConfig.frigate config) = Some labels →
       labels ≠ [] → FrigateEvent.label after ∈ labels).
Proof.
  unfold FrigateCamera._frigateEventHandler. cbv zeta.
  destruct (truthy_string _) eqn:Hid; [|done]. simpl.
  apply truthy_string_Some in Hid as (c & Hc & Hne). rewrite Hc.
  destruct (_ || _) eqn:Hfilter; [done|].
  apply orb_false_iff in Hfilter as [Hzones Hlabels].
  destruct (negb (_ || _)) eqn:Hevents; [done|]. apply negb_false_iff in Hevents.
  destruct (Camera._eventCallback camera); [|done].
  intros [= <-]. simpl.
  split; [done|]. split; [done|]. split; [done|]. split; [done|]. split; [done|].
  split.
  { f_equal. unfold FrigateCamera.clipChange.
    rewrite (andb_comm _ (bool_decide _)). apply andb_assoc. }
  split.
  { intros [= H]. apply andb_true_iff in H as [_ H].
    by apply bool_decide_eq_true in H. }
  split.
  { apply orb_true_iff in Hevents as [Hevents|Hevents].
    - apply orb_true_iff in Hevents as [Hevents|Hevents].
      + left. by apply bool_decide_eq_true in Hevents.
      + right. right. f_equal. apply andb_true_iff in Hevents as [H1 H2].
        by rewrite H1, H2.
    - right. left. f_equal. apply andb_true_iff in Hevents as [H1 H2].
      by rewrite H1, H2. }
  split.
  - intros zones Hz Hnil. rewrite Hz in Hzones. simpl in Hzones.
    destruct zones as [|z zones]; [done|].
    apply negb_false_iff in Hzones. apply existsb_exists in Hzones as (zone & Hin & Hcur).
    exists zone. split; [by apply list_elem_of_In|].
    by apply bool_decide_eq_true in Hcur.
  - intros labels Hl Hnil. rewrite Hl in Hlabels. simpl in Hlabels.
    destruct labels as [|l labels]; [done|].
    apply negb_false_iff in Hlabels. by apply bool_decide_eq_true in Hlabels.
Qed.

(** X9 on an event that gained a clip, for a camera that triggers on
    clips. *)
Lemma frigateEventHandler_event_witness :
  FrigateCamera._frigateEventHandler clipCamera (sampleFrigateEvent false true)
  = Some (mkCameraEvent "camera_2" "1700000000.1-abc" EvUpdate (Some high)
            (Some true) (Some false))
  ∧ "person" ∈ ["person"].
Proof.
  assert (FrigateCamera._frigateEventHandler clipCamera
            (sampleFrigateEvent false true)
          = Some (mkCameraEvent "camera_2" "1700000000.1-abc" EvUpdate
                    (Some high) (Some true) (Some false))) as Hev.
  { vm_compute. reflexivity. }
  split; [exact Hev|].
  destruct (frigateEventHandler_event clipCamera (sampleFrigateEvent false true)
              _ Hev) as (_ & _ & _ & _ & _ & _ & _ & _ & _ & H).
  by apply (H ["person"]).
Defined.

Lemma frigateEventHandler_flags camera ev e :
  FrigateCamera._frigateEventHandler camera ev = Some e →
  let events := CameraTriggers.events (CameraConfig.triggers (Camera._config camera)) in
  fidelity e = Some high
  ∧ clip e = Some (FrigateCamera.clipChange ev && bool_decide (OnClips ∈ events))
  ∧ snapshot e
    = Some (FrigateCamera.snapshotChange ev && bool_decide (OnSnapshots ∈ events)).
Proof.
  unfold FrigateCamera._frigateEventHandler. cbv zeta.
  destruct (negb (truthy_string _)); [done|].
  destruct (_ || _); [done|].
  destruct (negb (_ || _)); [done|].
  destruct (Camera._eventCallback camera); [|done].
  by intros [= <-].
Qed.

Lemma viewManagerCalls_triggerAction api ev w :
  viewManagerCalls (_triggerAction api ev w).2
  = viewManagerCalls w
    ++ (if suppressed api ev then []
        else if gate api then option_list (dispatch api ev) else []).
Proof.
  rewrite triggerAction_eq. destruct (suppressed api ev).
  { by rewrite app_nil_r. }
  cbv zeta. destruct (gate api).
  - destruct (dispatch api ev) as [c|] eqn:Hd.
    + assert (isViewManagerCall c = true) as Hc.
      { unfold dispatch in Hd. repeat case_match; by simplify_eq. }
      destruct (viewManagerThrows api c); simpl;
        rewrite ?viewManagerCalls_record, Hc; simpl;
        rewrite ?app_nil_r; reflexivity.
    + simpl. rewrite !viewManagerCalls_record. simpl. by rewrite !app_nil_r.
  - simpl. rewrite !viewManagerCalls_record. simpl. by rewrite !app_nil_r.
Qed.

(** X10. What the trigger action does with an event of a Frigate
    camera.  An event that brings no new media of a kind asked for (no
    clip gained or clips not asked for, and the same for snapshots) is
    dropped by [_triggerAction] before the action gate, unless the
    action is [live], or [default] with the default view [live].  With
    the action [media] the view manager is asked for the clip when the
    event gained a clip and clips are asked for, else for the snapshot
    when the snapshot changed and snapshots are asked for, and is not
    called otherwise. *)
Theorem frigate_event_trigger_action api camera ev e w :
  FrigateCamera._frigateEventHandler camera ev = Some e →
  let events := CameraTriggers.events (CameraConfig.triggers (Camera._config camera)) in
  let newClip := FrigateCamera.clipChange ev && bool_decide (OnClips ∈ events) in
  let newSnapshot :=
    FrigateCamera.snapshotChange ev && bool_decide (OnSnapshots ∈ events) in
  (¬ (triggerAction api = Some TriggerLive
      ∨ (triggerAction api = Some TriggerDefault ∧ defaultView api = Some "live")) →
   newClip = false → newSnapshot = false →
   _triggerAction api e w = (Returned tt, w))
  ∧ (triggerAction api = Some TriggerMedia →
     viewManagerCalls (_triggerAction api e w).2
     = viewManagerCalls w
       ++ (if gate api && (newClip || newSnapshot) then
             [SetViewByParameters (if newClip then "clip" else "snapshot")
                (cameraID e)]
           else [])).
Proof.
  intros Hev events newClip newSnapshot.
  destruct (frigateEventHandler_flags _ _ _ Hev) as (Hfid & Hclip & Hsnap).
  fold events in Hclip, Hsnap. fold newClip in Hclip. fold newSnapshot in Hsnap.
  split.
  - intros Hlive Hc Hs. apply triggerAction_suppressed. unfold suppressed.
    rewrite Hfid, Hclip, Hsnap, Hc, Hs. simpl.
    apply negb_true_iff. apply orb_false_iff. split.
    + apply bool_decide_eq_false. tauto.
    + apply andb_false_iff.
      destruct (decide (triggerAction api = Some TriggerDefault)) as [Hd|Hd].
      * right. apply bool_decide_eq_false. tauto.
      * left. by apply bool_decide_eq_false.
  - intros Hmedia. rewrite viewManagerCalls_triggerAction. f_equal.
    unfold suppressed, dispatch. rewrite Hfid, Hclip, Hsnap, Hmedia. simpl.
    destruct newSnapshot, newClip, (gate api); done.
Qed.

(** X10 on an event that gained a clip, with the action [media]. *)
Lemma frigate_event_trigger_action_witness :
  viewManagerCalls
    (_triggerAction mediaApi
       (mkCameraEvent "camera_2" "1700000000.1-abc" EvUpdate (Some high)
          (Some true) (Some false))
       (initialWorld 0)).2
  = [SetViewByParameters "clip" "camera_2"].
Proof.
  destruct (frigate_event_trigger_action mediaApi clipCamera
              (sampleFrigateEvent false true)
              (mkCameraEvent "camera_2" "1700000000.1-abc" EvUpdate (Some high)
                 (Some true) (Some false))
              (initialWorld 0)) as [_ H].
  - vm_compute. reflexivity.
  - rewrite H by reflexivity. vm_compute. reflexivity.
Defined.

(** ** PTZ *)

(** X11. [FrigateCamera.executePTZAction] returns true exactly when it
    had one action executed, and false when none.  An action configured
    for the camera comes first and is the only one executed.  Otherwise
    the Frigate service is called only for a camera that has a camera
    entity, which is the target: with [stop] and no argument exactly when
    the phase is [stop]; else with [zoom] and [in] or [out], with [preset]
    and the preset's name, which is never empty, or with [move] and the
    direction. *)
Theorem FrigateCamera_executePTZAction_spec
    (ActionConfig : Type)
    (getConfiguredPTZAction :
       CameraConfig.t → string → option PTZ.Options → option ActionConfig)
    camera action options :
  let r := FrigateCamera_executePTZAction ActionConfig getConfiguredPTZAction
             camera action options in
  let configured :=
    getConfiguredPTZAction (Camera._config camera) action options in
  let stop := options ≫= PTZ.phase = Some "stop" in
  ((r.1 = true ∧ length r.2 = 1) ∨ (r.1 = false ∧ r.2 = []))
  ∧ (∀ actions, configured = Some actions →
       r = (true, [ExecuteConfigured ActionConfig actions]))
  ∧ (∀ p, ExecutePerform ActionConfig p ∈ r.2 →
       configured = None
       ∧ PTZ.perform_action p = "frigate.ptz"
       ∧ CameraConfig.camera_entity (Camera._config camera)
         = Some (PTZ.target_entity_id p)
       ∧ PTZ.target_entity_id p ≠ ""
       ∧ (PTZ.data_action p = "stop" ↔ stop)
       ∧ (PTZ.data_argument p = None ↔ stop)
       ∧ (¬ stop → action = "preset" →
          PTZ.data_action p = "preset"
          ∧ ∃ name, PTZ.data_argument p = Some name ∧ name ≠ ""
                    ∧ options ≫= PTZ.preset = Some name)
       ∧ (¬ stop → action = "zoom_in" →
          PTZ.data_action p = "zoom" ∧ PTZ.data_argument p = Some "in")
       ∧ (¬ stop → action = "zoom_out" →
          PTZ.data_action p = "zoom" ∧ PTZ.data_argument p = Some "out")
       ∧ (¬ stop → action ≠ "preset" → action ≠ "zoom_in" →
          action ≠ "zoom_out" →
          PTZ.data_action p = "move" ∧ PTZ.data_argument p = Some action)).
Proof.
  cbv zeta. unfold FrigateCamera_executePTZAction, Camera_executePTZAction.
  destruct (getConfiguredPTZAction _ _ _) as [a|] eqn:Hconf; simpl.
  { split; [by left|]. split; [by intros ? [= <-]|].
    intros p Hin. apply list_elem_of_singleton in Hin. discriminate. }
  destruct (_ || _) eqn:Hguard; simpl.
  { split; [by right|]. split; [done|]. intros p Hin.
    by apply not_elem_of_nil in Hin. }
  apply orb_false_iff in Hguard as [Hpreset Hentity].
  apply negb_false_iff in Hentity.
  apply truthy_string_Some in Hentity as (entity & Hentity & Hne).
  split; [by left|]. split; [done|].
  intros p Hin. apply list_elem_of_singleton in Hin. injection Hin as ->.
  simpl. rewrite Hentity. simpl.
  split; [done|]. split; [done|]. split; [done|]. split; [done|].
  destruct (decide (options ≫= PTZ.phase = Some "stop")) as [Hstop|Hstop].
  { rewrite bool_decide_eq_true_2 by done. repeat split; try done. }
  rewrite bool_decide_eq_false_2 by done.
  destruct (decide (action = "zoom_in")) as [->|Hzi].
  { simpl. repeat split; try done. }
  rewrite (bool_decide_eq_false_2 (action = "zoom_in")) by done.
  destruct (decide (action = "zoom_out")) as [->|Hzo].
  { simpl. repeat split; try done. }
  rewrite (bool_decide_eq_false_2 (action = "zoom_out")) by done. simpl.
  destruct (decide (action = "preset")) as [->|Hp].
  - simpl in *. apply negb_false_iff in Hpreset.
    apply truthy_string_Some in Hpreset as (name & Hname & Hnn).
    rewrite Hname. repeat split; try done. eauto.
  - rewrite (bool_decide_eq_false_2 (action = "preset")) by done.
    repeat split; try done.
Qed.

(** X12. [_getPTZCapabilities] never reports an empty set of
    capabilities: its result, when not null, has pan and tilt, zoom or a
    non-empty list of presets.  The four directions come together and so
    do the two zooms, always as continuous movements.  It is null,
    without any request, for a camera without a Frigate camera name and
    for the birdseye camera, and null when the request fails. *)
Theorem getPTZCapabilities_spec getPTZInfo cameraConfig :
  let r := _getPTZCapabilities getPTZInfo cameraConfig in
  let frigate := CameraConfig.frigate cameraConfig in
  (∀ caps, r = Some caps →
     PTZCapabilities.right caps = PTZCapabilities.left caps
     ∧ PTZCapabilities.up caps = PTZCapabilities.left caps
     ∧ PTZCapabilities.down caps = PTZCapabilities.left caps
     ∧ PTZCapabilities.zoomOut caps = PTZCapabilities.zoomIn caps
     ∧ (PTZCapabilities.left caps = None
        ∨ PTZCapabilities.left caps = Some [Continuous])
     ∧ (PTZCapabilities.zoomIn caps = None
        ∨ PTZCapabilities.zoomIn caps = Some [Continuous])
     ∧ (∀ presets, PTZCapabilities.presets caps = Some presets → presets ≠ [])
     ∧ (is_Some (PTZCapabilities.left caps)
        ∨ is_Some (PTZCapabilities.zoomIn caps)
        ∨ is_Some (PTZCapabilities.presets caps)))
  ∧ (truthy_string (FrigateConfig.camera_name frigate) = false → r = None)
  ∧ (FrigateCamera.isBirdseye cameraConfig = true → r = None)
  ∧ (getPTZInfo (FrigateConfig.client_id frigate)
       (default "" (FrigateConfig.camera_name frigate)) = None → r = None).
Proof.
  cbv zeta. unfold _getPTZCapabilities. split; [|split; [|split]].
  - intros caps.
    destruct (_ || _); [done|].
    destruct (getPTZInfo _ _) as [info|]; [|done].
    destruct (bool_decide ("pt" ∈ _)), (bool_decide ("zoom" ∈ _));
      destruct (PTZInfo.presets info) as [[|p ps]|]; simpl;
      try done; intros [= <-]; simpl; repeat split; eauto; by intros ? [= <-].
  - by intros ->.
  - intros ->. by rewrite orb_true_r.
  - intros ->. by destruct (_ || _).
Qed.

(** ** Raw capabilities *)

(** X13. The raw capabilities of a Frigate camera.  The media
    capabilities (favourite events, seek, clips, snapshots, recordings)
    are those of Frigate, on for every camera but birdseye, and the raw
    capability options cannot change them; the capabilities of every
    camera (live, menu, substream, trigger, remote control entity) are on
    unless the raw options say otherwise.  PTZ capabilities found in the
    configuration or reported by Frigate replace those of the raw
    options, and key by key (the four directions, the two zooms and the
    presets) the configuration wins over Frigate; when neither has any,
    those of the raw options stay.  For birdseye Frigate is not asked. *)
Theorem FrigateCamera_getRawCapabilities_spec
    getPTZCapabilitiesFromCameraConfig getPTZInfo config raw :
  let r := FrigateCamera__getRawCapabilities getPTZCapabilitiesFromCameraConfig
             getPTZInfo config raw in
  let configPTZ := getPTZCapabilitiesFromCameraConfig config in
  (∀ key, key ∈ frigateMediaKeys →
     r !! key = Some (RawBool (negb (FrigateCamera.isBirdseye config))))
  ∧ (∀ key, key ∈ cameraKeys →
       r !! key = Some (default (RawBool true) (raw ≫= (.!! key))))
  ∧ (r !! "ptz"
     = match combinedPTZ getPTZCapabilitiesFromCameraConfig getPTZInfo config with
       | Some ptz => Some (RawPTZ ptz)
       | None => raw ≫= (.!! "ptz")
       end)
  ∧ (combinedPTZ getPTZCapabilitiesFromCameraConfig getPTZInfo config = None
     ↔ configPTZ = None ∧ _getPTZCapabilities getPTZInfo config = None)
  ∧ (∀ ptz,
       combinedPTZ getPTZCapabilitiesFromCameraConfig getPTZInfo config = Some ptz →
       let fromConfig := default PTZCapabilities.empty configPTZ in
       let fromFrigate :=
         default PTZCapabilities.empty (_getPTZCapabilities getPTZInfo config) in
       winsOver (PTZCapabilities.left fromConfig)
         (PTZCapabilities.left fromFrigate) (PTZCapabilities.left ptz)
       ∧ winsOver (PTZCapabilities.right fromConfig)
           (PTZCapabilities.right fromFrigate) (PTZCapabilities.right ptz)
       ∧ winsOver (PTZCapabilities.up fromConfig)
           (PTZCapabilities.up fromFrigate) (PTZCapabilities.up ptz)
       ∧ winsOver (PTZCapabilities.down fromConfig)
           (PTZCapabilities.down fromFrigate) (PTZCapabilities.down ptz)
       ∧ winsOver (PTZCapabilities.zoomIn fromConfig)
           (PTZCapabilities.zoomIn fromFrigate) (PTZCapabilities.zoomIn ptz)
       ∧ winsOver (PTZCapabilities.zoomOut fromConfig)
           (PTZCapabilities.zoomOut fromFrigate) (PTZCapabilities.zoomOut ptz)
       ∧ winsOver (PTZCapabilities.presets fromConfig)
           (PTZCapabilities.presets fromFrigate) (PTZCapabilities.presets ptz))
  ∧ (FrigateCamera.isBirdseye config = true →
     combinedPTZ getPTZCapabilitiesFromCameraConfig getPTZInfo config
     = PTZCapabilities.spread PTZCapabilities.empty <$> configPTZ).
Proof.
  cbv zeta. unfold FrigateCamera__getRawCapabilities, Camera__getRawCapabilities.
  split; [|split; [|split; [|split; [|split]]]].
  - intros key Hkey.
    assert (key ≠ "ptz") as Hne.
    { intros ->. unfold frigateMediaKeys in Hkey.
      repeat (apply elem_of_cons in Hkey as [Hkey|Hkey]; [discriminate|]).
      by apply not_elem_of_nil in Hkey. }
    rewrite <- (assoc_L (∪)), lookup_union_r.
    2:{ destruct (combinedPTZ _ _ _); [by apply lookup_singleton_ne|done]. }
    unfold frigateMediaKeys in Hkey.
    repeat (apply elem_of_cons in Hkey as [->|Hkey];
            [apply lookup_union_Some_l; reflexivity|]).
    by apply not_elem_of_nil in Hkey.
  - intros key Hkey.
    assert (key ≠ "ptz") as Hne.
    { intros ->. unfold cameraKeys in Hkey.
      repeat (apply elem_of_cons in Hkey as [Hkey|Hkey]; [discriminate|]).
      by apply not_elem_of_nil in Hkey. }
    rewrite <- (assoc_L (∪)), lookup_union_r.
    2:{ destruct (combinedPTZ _ _ _); [by apply lookup_singleton_ne|done]. }
    rewrite lookup_union_r.
    2:{ unfold cameraKeys in Hkey.
        repeat (apply elem_of_cons in Hkey as [->|Hkey]; [reflexivity|]).
        by apply not_elem_of_nil in Hkey. }
    destruct raw as [raw|]; simpl.
    + destruct (raw !! key) as [v|] eqn:Hv; simpl.
      * by apply lookup_union_Some_l.
      * rewrite lookup_union_r by done. unfold cameraKeys in Hkey.
        repeat (apply elem_of_cons in Hkey as [->|Hkey]; [reflexivity|]).
        by apply not_elem_of_nil in Hkey.
    + rewrite lookup_union_r by done. unfold cameraKeys in Hkey.
      repeat (apply elem_of_cons in Hkey as [->|Hkey]; [reflexivity|]).
      by apply not_elem_of_nil in Hkey.
  - rewrite <- (assoc_L (∪)). destruct (combinedPTZ _ _ _) as [ptz|].
    + apply lookup_union_Some_l. apply lookup_singleton_eq.
    + rewrite lookup_union_r by done. rewrite lookup_union_r by reflexivity.
      destruct raw as [raw|]; simpl; [|done].
      destruct (raw !! "ptz") as [v|] eqn:Hv.
      * by apply lookup_union_Some_l.
      * by rewrite lookup_union_r.
  - unfold combinedPTZ.
    destruct (getPTZCapabilitiesFromCameraConfig config) as [cptz|],
      (_getPTZCapabilities getPTZInfo config) as [fptz|]; simpl;
      (split; [try done; by intros [=]|try done; by intros [[=] [=]]]).
  - intros ptz. unfold combinedPTZ.
    destruct (bool_decide _ || bool_decide _); [|done].
    intros [= <-]. cbv zeta. unfold winsOver, PTZCapabilities.spread. simpl.
    set (fromConfig := default PTZCapabilities.empty _).
    set (fromFrigate := default PTZCapabilities.empty _).
    destruct fromConfig as [c1 c2 c3 c4 c5 c6 c7],
      fromFrigate as [f1 f2 f3 f4 f5 f6 f7]. simpl.
    repeat split.
    + by destruct c1, f1.
    + by destruct c2, f2.
    + by destruct c3, f3.
    + by destruct c4, f4.
    + by destruct c5, f5.
    + by destruct c6, f6.
    + by destruct c7, f7.
  - intros Hbird. unfold combinedPTZ, _getPTZCapabilities. rewrite Hbird.
    rewrite orb_true_r. simpl.
    by destruct (getPTZCapabilitiesFromCameraConfig config).
Qed.

(** ** The name of the Frigate camera *)

Lemma string_app_assoc (a b c : string) : (a +:+ b) +:+ c = a +:+ (b +:+ c).
Proof.
  induction a as [|x a IH]; [done|].
  change (String x ((a +:+ b) +:+ c) = String x (a +:+ b +:+ c)). by rewrite IH.
Qed.

Lemma string_app_length (a b : string) :
  String.length (a +:+ b) = String.length a + String.length b.
Proof.
  induction a as [|x a IH]; [done|].
  change (S (String.length (a +:+ b)) = S (String.length a + String.length b)).
  by rewrite IH.
Qed.

Lemma stripPrefix_app p r : stripPrefix p (p +:+ r) = Some r.
Proof.
  induction p as [|a p IH]; [by destruct r|].
  change (stripPrefix (String a p) (String a (p +:+ r)) = Some r).
  simpl. by rewrite Ascii.eqb_refl.
Qed.

Lemma stripPrefix_Some p s r : stripPrefix p s = Some r → s = p +:+ r.
Proof.
  revert s. induction p as [|a p IH]; intros s.
  - destruct s; by intros [= <-].
  - destruct s as [|b s]; [done|]. simpl.
    destruct (Ascii.eqb_spec a b) as [->|]; [|done].
    intros H. by rewrite (IH _ H).
Qed.

Lemma stripPrefix_app_inv p q t r :
  stripPrefix p (q +:+ t) = Some r → String.length p ≤ String.length q →
  ∃ q', r = q' +:+ t.
Proof.
  revert q. induction p as [|a p IH]; intros q.
  - intros H _. exists q. destruct (q +:+ t); by injection H as <-.
  - destruct q as [|b q]; [simpl; lia|].
    change (String b q +:+ t) with (String b (q +:+ t)). simpl.
    destruct (Ascii.eqb a b); [|done]. intros H Hlen. apply (IH q H). lia.
Qed.

Lemma colonFree_app_colon q m : colonFree (q +:+ ":" +:+ m) = false.
Proof.
  induction q as [|a q IH]; [done|].
  change (String a q +:+ ":" +:+ m) with (String a (q +:+ ":" +:+ m)).
  simpl. rewrite IH. apply andb_false_r.
Qed.

Lemma cameraGroupAt_colon q m :
  8 ≤ String.length q → cameraGroupAt (q +:+ ":" +:+ m) = None.
Proof.
  intros Hlen. unfold cameraGroupAt.
  destruct (stripPrefix _ _) as [r|] eqn:Hr; [|done].
  apply stripPrefix_app_inv in Hr as [q' ->]; [|done].
  by rewrite colonFree_app_colon, andb_false_r.
Qed.

Lemma cameraGroup_eq subject :
  cameraGroup subject
  = match cameraGroupAt subject with
    | Some name => Some name
    | None =>
        match subject with
        | EmptyString => None
        | String _ subject' => cameraGroup subject'
        end
    end.
Proof. by destruct subject. Qed.

Lemma cameraGroup_encode prefix name :
  name ≠ "" → colonFree name = true →
  cameraGroup (prefix +:+ ":camera:" +:+ name) = Some name.
Proof.
  intros Hne Hfree. induction prefix as [|a prefix IH].
  - rewrite cameraGroup_eq. unfold cameraGroupAt.
    change ("" +:+ ":camera:" +:+ name) with (":camera:" +:+ name).
    rewrite stripPrefix_app, Hfree, bool_decide_eq_false_2 by done. done.
  - rewrite cameraGroup_eq.
    change (String a prefix +:+ ":camera:" +:+ name)
      with (String a (prefix +:+ ":camera:" +:+ name)).
    assert (String a (prefix +:+ ":camera:" +:+ name)
            = String a (prefix +:+ ":camera") +:+ ":" +:+ name) as Heq.
    { change (String a (prefix +:+ ":camera") +:+ ":" +:+ name)
        with (String a ((prefix +:+ ":camera") +:+ ":" +:+ name)).
      by rewrite string_app_assoc. }
    rewrite Heq at 1. rewrite cameraGroupAt_colon; [done|].
    simpl. rewrite string_app_length. simpl. lia.
Qed.

Lemma cameraGroup_decode subject name :
  cameraGroup subject = Some name →
  ∃ prefix, subject = prefix +:+ ":camera:" +:+ name
            ∧ name ≠ "" ∧ colonFree name = true.
Proof.
  induction subject as [|a subject IH]; rewrite cameraGroup_eq.
  - unfold cameraGroupAt. by simpl.
  - destruct (cameraGroupAt (String a subject)) as [n|] eqn:Hat.
    + intros [= ->]. unfold cameraGroupAt in Hat.
      destruct (stripPrefix _ _) as [r|] eqn:Hr; [|done].
      destruct (negb _ && _) eqn:Hok; [|done]. injection Hat as ->.
      apply andb_true_iff in Hok as [Hne Hfree].
      apply negb_true_iff, bool_decide_eq_false in Hne.
      apply stripPrefix_Some in Hr. by exists "".
    + intros H. destruct (IH H) as (prefix & -> & Hne & Hfree).
      by exists (String a prefix).
Qed.

(** X14. [_getFrigateCameraNameFromEntity] reads the camera name back
    from the unique identifier that the Frigate integration gives to a
    camera entity: it returns [name] exactly for an entity of the
    platform [frigate] whose unique identifier is a string ending in
    [:camera:] followed by [name], where [name] is not empty and holds no
    colon; for every other entity it returns null. *)
Theorem getFrigateCameraNameFromEntity_spec entity name :
  _getFrigateCameraNameFromEntity entity = Some name ↔
  Entity.platform entity = "frigate"
  ∧ ∃ prefix,
      Entity.unique_id entity = Some (prefix +:+ ":camera:" +:+ name)
      ∧ name ≠ "" ∧ colonFree name = true.
Proof.
  unfold _getFrigateCameraNameFromEntity. split.
  - destruct (bool_decide _ && _) eqn:Hguard; [|done].
    apply andb_true_iff in Hguard as [Hp Hu].
    apply bool_decide_eq_true in Hp.
    apply truthy_string_Some in Hu as (uid & Huid & _). rewrite Huid. simpl.
    intros (prefix & -> & Hne & Hfree)%cameraGroup_decode. eauto.
  - intros (Hp & prefix & Huid & Hne & Hfree). rewrite Hp, Huid. simpl.
    assert (prefix +:+ ":camera:" +:+ name ≠ "") as Hnonempty.
    { destruct prefix; discriminate. }
    rewrite bool_decide_eq_false_2 by done. simpl.
    by apply cameraGroup_encode.
Qed.

(** ** The trigger entities of a Frigate camera *)





Section SensorLemmas.
Variable regExp : string → option (string → bool).




End SensorLemmas.




(** ** The endpoints of a Frigate camera *)

Lemma truthy_string_None_or s :
  truthy_string s = false → s = None ∨ s = Some "".
Proof. destruct s as [[|a s]|]; simpl; intros H; try done; auto. Qed.

Lemma string_app_nil_r (a : string) : a +:+ "" = a.
Proof.
  induction a as [|x a IH]; [done|].
  change (String x (a +:+ "") = String x a). by rewrite IH.
Qed.

Section EndpointLemmas.
Context {Date : Type}.
Variable format : Date → string → string.
Variable getGo2RTCStreamEndpoint :
  CameraConfig.t → string → option string → option Endpoint.t.

Lemma getUIEndpoint_shape config context e :
  FrigateCamera__getUIEndpoint format config context = Some e →
  Endpoint.sign e = None
  ∧ ∃ rest, Endpoint.endpoint e
            = default "" (FrigateConfig.url (CameraConfig.frigate config)) +:+ rest.
Proof.
  unfold FrigateCamera__getUIEndpoint. cbv zeta.
  set (url := default "" _). set (name := default "" _).
  destruct (negb (truthy_string (FrigateConfig.url _))); [done|].
  destruct (negb (truthy_string (FrigateConfig.camera_name _))).
  { intros [= <-]. split; [done|]. exists "". simpl.
    by rewrite string_app_nil_r. }
  repeat (match goal with
          | |- context [if ?b then _ else _] => destruct b
          end;
          [intros [= <-]; split; [done|]; simpl;
           rewrite ?string_app_assoc; by eexists|]).
  intros [= <-]. split; [done|]. by eexists.
Qed.

(** X16. [FrigateCamera._getUIEndpoint] gives no endpoint exactly when no
    Frigate [url] is configured.  Every endpoint it gives is unsigned and
    starts with the configured url; without a camera name it is the url
    itself; in the view [live] it is the page of the camera, whatever
    the media; otherwise the type of the media decides before the view
    does: a clip or a snapshot leads to the events of the camera, a
    recording to its recordings, followed by the hour of the start time
    when the media has one. *)
Theorem FrigateCamera_getUIEndpoint_spec
    (config : CameraConfig.t) (context : option (CameraEndpointsContext.t Date)) :
  let frigate := CameraConfig.frigate config in
  let url := default "" (FrigateConfig.url frigate) in
  let name := default "" (FrigateConfig.camera_name frigate) in
  let mediaType := (context ≫= CameraEndpointsContext.media) ≫= ViewMedia.getMediaType in
  let r := FrigateCamera__getUIEndpoint format config context in
  (r = None ↔ truthy_string (FrigateConfig.url frigate) = false)
  ∧ (∀ e, r = Some e →
       Endpoint.sign e = None ∧ ∃ rest, Endpoint.endpoint e = url +:+ rest)
  ∧ (truthy_string (FrigateConfig.url frigate) = true →
     (truthy_string (FrigateConfig.camera_name frigate) = false →
      r = Some (Endpoint.mk url None))
     ∧ (truthy_string (FrigateConfig.camera_name frigate) = true →
        (context ≫= CameraEndpointsContext.view = Some "live" →
         r = Some (Endpoint.mk (url +:+ "/#" +:+ name) None))
        ∧ (context ≫= CameraEndpointsContext.view ≠ Some "live" →
           (mediaType = Some "clip" ∨ mediaType = Some "snapshot" →
            r = Some (Endpoint.mk (url +:+ "/events?camera=" +:+ name) None))
           ∧ (mediaType = Some "recording" →
              r = Some (Endpoint.mk
                          ((url +:+ "/recording/" +:+ name)
                           +:+ match (context ≫= CameraEndpointsContext.media) ≫= ViewMedia.getStartTime with
                               | Some startTime =>
                                   "/" +:+ format startTime "yyyy-MM-dd/HH"
                               | None => ""
                               end) None))
           ∧ (mediaType = None → context ≫= CameraEndpointsContext.view = None →
              r = Some (Endpoint.mk (url +:+ "/#" +:+ name) None))))).
Proof.
  intros frigate url name mediaType r.
  split; [|split; [intros e; apply getUIEndpoint_shape|]].
  - subst r. unfold FrigateCamera__getUIEndpoint. cbv zeta.
    fold frigate. destruct (truthy_string (FrigateConfig.url frigate)); simpl.
    + split; [|done].
      repeat (match goal with
              | |- context [if ?b then _ else _] => destruct b
              end; [done|]).
      done.
    + done.
  - intros Hurl. subst r. unfold FrigateCamera__getUIEndpoint. cbv zeta.
    fold frigate. fold url. fold name. fold mediaType. rewrite Hurl. simpl.
    split; [by intros ->|]. intros ->. simpl. split.
    + intros Hv. by rewrite bool_decide_eq_true_2.
    + intros Hv. rewrite bool_decide_eq_false_2 by done.
      split; [|split].
      * intros [-> | ->]; by simpl.
      * intros ->. by simpl.
      * intros -> ->. by simpl.
Qed.

Lemma Camera_getEndpoints_None ui go2rtc webrtcCard :
  Camera_getEndpoints ui go2rtc webrtcCard = None
  ↔ ui = None ∧ go2rtc = None ∧ webrtcCard = None.
Proof.
  unfold Camera_getEndpoints.
  destruct ui, go2rtc, webrtcCard; simpl; split; try done;
    intros (? & ? & ?); done.
Qed.

Lemma Camera_getEndpoints_Some ui go2rtc webrtcCard e :
  Camera_getEndpoints ui go2rtc webrtcCard = Some e →
  e = CameraEndpoints.mk ui go2rtc None webrtcCard.
Proof.
  unfold Camera_getEndpoints.
  destruct (_ || _); [by intros [= <-]|done].
Qed.

(** X17. [FrigateCamera.getEndpoints] is [null] exactly when the camera
    has none of the four endpoints; otherwise each key of the result
    holds the endpoint of its method, the keys of [Camera.getEndpoints]
    being kept.  A camera with a Frigate camera name always has
    endpoints: its JSMPEG endpoint is signed and lies below the path of
    the Frigate client. *)
Theorem FrigateCamera_getEndpoints_spec
    (config : CameraConfig.t) (context : option (CameraEndpointsContext.t Date)) :
  let frigate := CameraConfig.frigate config in
  let ui := FrigateCamera__getUIEndpoint format config context in
  let go2rtc :=
    FrigateCamera__getGo2RTCStreamEndpoint getGo2RTCStreamEndpoint config in
  let webrtcCard := _getWebRTCCardEndpoint config in
  let jsmpeg := _getJSMPEGEndpoint config in
  let r := FrigateCamera_getEndpoints format getGo2RTCStreamEndpoint
             config context in
  (r = None ↔ ui = None ∧ go2rtc = None ∧ webrtcCard = None ∧ jsmpeg = None)
  ∧ (∀ e, r = Some e → e = CameraEndpoints.mk ui go2rtc jsmpeg webrtcCard)
  ∧ (jsmpeg = None
     ↔ truthy_string (FrigateConfig.camera_name frigate) = false)
  ∧ (truthy_string (FrigateConfig.camera_name frigate) = true →
     ∃ e, r = Some e
          ∧ CameraEndpoints.jsmpeg e
            = Some (Endpoint.mk
                      (("/api/frigate/" +:+ FrigateConfig.client_id frigate)
                       +:+ "/jsmpeg/"
                       +:+ default "" (FrigateConfig.camera_name frigate))
                      (Some true))).
Proof.
  intros frigate ui go2rtc webrtcCard jsmpeg r.
  assert (Hr : r = match Camera_getEndpoints ui go2rtc webrtcCard, jsmpeg with
                   | None, None => None
                   | _, _ =>
                       Some (CameraEndpoints.mk ui go2rtc jsmpeg webrtcCard)
                   end).
  { subst r. unfold FrigateCamera_getEndpoints. cbv zeta.
    fold ui. fold go2rtc. fold webrtcCard. fold jsmpeg.
    destruct (Camera_getEndpoints ui go2rtc webrtcCard) as [base|] eqn:Hbase.
    - apply Camera_getEndpoints_Some in Hbase as ->. simpl.
      by destruct jsmpeg.
    - apply Camera_getEndpoints_None in Hbase as (Hu & Hg & Hw).
      rewrite Hu, Hg, Hw. by destruct jsmpeg. }
  assert (Hj : jsmpeg = None
               ↔ truthy_string (FrigateConfig.camera_name frigate) = false).
  { subst jsmpeg. unfold _getJSMPEGEndpoint. cbv zeta. fold frigate.
    by destruct (truthy_string (FrigateConfig.camera_name frigate)). }
  split; [|split; [|split; [done|]]].
  - rewrite Hr.
    destruct (Camera_getEndpoints ui go2rtc webrtcCard) as [base|] eqn:Hbase.
    + split; [done|]. intros (-> & -> & -> & _). done.
    + apply Camera_getEndpoints_None in Hbase as (-> & -> & ->).
      clear Hr Hj. destruct jsmpeg; split; try done.
      intros (_ & _ & _ & [=]).
  - intros e. rewrite Hr.
    destruct (Camera_getEndpoints ui go2rtc webrtcCard), jsmpeg;
      by intros [= <-].
  - intros Hname.
    assert (jsmpeg = Some (Endpoint.mk
                      (("/api/frigate/" +:+ FrigateConfig.client_id frigate)
                       +:+ "/jsmpeg/"
                       +:+ default "" (FrigateConfig.camera_name frigate))
                      (Some true))) as Hjs.
    { subst jsmpeg. unfold _getJSMPEGEndpoint. cbv zeta. fold frigate.
      by rewrite Hname. }
    rewrite Hr, Hjs.
    destruct (Camera_getEndpoints ui go2rtc webrtcCard); by eexists.
Qed.

End EndpointLemmas.

(** ** The id of a camera *)

(** X18. After [setID] the camera answers [getID] with the id that was
    set and keeps the rest of its configuration, unless the id is the
    empty string: then [getID] throws [CameraNoIDError], as it does for
    a camera whose configuration has no id.  For such a camera the state
    change handler throws only if there is an event callback to call;
    without one it does nothing. *)
Theorem Camera_setID_getID
    (isTriggeredState : option string → bool) (cameraID : string)
    (camera : Camera.t) (difference : HassStateDifference.t) :
  let camera' := Camera.setID cameraID camera in
  Camera.getID camera'
  = (if decide (cameraID = "") then Raised CameraNoIDError else Value cameraID)
  ∧ CameraConfig.setID (CameraConfig.id (Camera._config camera))
      (Camera._config camera') = Camera._config camera
  ∧ Camera._eventCallback camera' = Camera._eventCallback camera
  ∧ (Camera.getID camera = Raised CameraNoIDError
     ↔ CameraConfig.id (Camera._config camera) = None
       ∨ CameraConfig.id (Camera._config camera) = Some "")
  ∧ (Camera.getID camera = Raised CameraNoIDError →
     Camera._stateChangeHandler isTriggeredState camera difference
     = if Camera._eventCallback camera then Raised CameraNoIDError
       else Value None).
Proof.
  intros camera'. destruct camera as [[cid ent trg frg go] cb].
  split; [|split; [done|split; [done|split]]].
  - unfold Camera.getID. simpl. by destruct cameraID.
  - unfold Camera.getID. simpl.
    destruct cid as [[|a s]|]; simpl;
      (split; [try done; auto|try done; intros [[=]|[=]]]).
  - unfold Camera._stateChangeHandler. simpl. intros ->. done.
Qed.

(** ** The grace timers and the event loop *)

#[global] Instance tidy_preorder : PreOrder tidy.
Proof.
  split.
  - by intros w Hb Hd.
  - intros w1 w2 w3 H12 H23 Hb Hd. destruct (H12 Hb Hd). by apply H23.
Qed.

Lemma tidy_same w w' :
  timeouts w' = timeouts w → nextHandle w' = nextHandle w → tidy w w'.
Proof.
  intros Ht Hn Hb Hd. unfold handlesBounded, handlesDistinct.
  by rewrite Ht, Hn.
Qed.

Lemma tidy_record c w : tidy w (record c w).
Proof. by apply tidy_same. Qed.

Lemma preserves_tidy_setTimeout cb delay : preserves tidy (setTimeout cb delay).
Proof.
  intros w Hb Hd. split.
  - intros t [Ht|Ht]%elem_of_app; simpl.
    + specialize (Hb t Ht). lia.
    + apply list_elem_of_singleton in Ht. subst t. simpl. lia.
  - intros t t' [Ht|Ht]%elem_of_app [Ht'|Ht']%elem_of_app Heq.
    + by apply Hd.
    + apply list_elem_of_singleton in Ht'. subst t'. simpl in Heq.
      specialize (Hb t Ht). lia.
    + apply list_elem_of_singleton in Ht. subst t. simpl in Heq.
      specialize (Hb t' Ht'). lia.
    + apply list_elem_of_singleton in Ht, Ht'. congruence.
Qed.

Lemma tidy_clearTimeout h w : tidy w (setTimeouts (filter (λ t, handle t ≠ h)) w).
Proof.
  intros Hb Hd. split.
  - intros t [_ Ht]%list_elem_of_filter. by apply Hb.
  - intros t t' [_ Ht]%list_elem_of_filter [_ Ht']%list_elem_of_filter.
    by apply Hd.
Qed.

Lemma preserves_tidy_clearTimeout h : preserves tidy (clearTimeout h).
Proof. intros w. apply tidy_clearTimeout. Qed.

Lemma preserves_tidy_viewManagerCall api c : preserves tidy (viewManagerCall api c).
Proof.
  intros w. unfold viewManagerCall.
  destruct (viewManagerThrows api c); by apply tidy_same.
Qed.

Ltac preserves_tidy :=
  repeat
    match goal with
    | |- PreOrder _ => apply _
    | |- preserves _ (mbind _ _) => apply preserves_bind; [..|intros ?]
    | |- preserves _ (mret _) => apply preserves_ret
    | |- preserves _ get => apply preserves_get
    | |- preserves _ throw => apply preserves_throw
    | |- preserves _ (await _) => apply preserves_await
    | |- preserves _ (settle _) => apply preserves_settle
    | |- preserves _ (setTimeout _ _) => apply preserves_tidy_setTimeout
    | |- preserves _ (clearTimeout _) => apply preserves_tidy_clearTimeout
    | |- preserves _ (Timer_start _ _) => unfold Timer_start
    | |- preserves _ (Timer_stop _) => unfold Timer_stop
    | |- preserves _ _setConditionStateIfNecessary =>
        intros ?; rewrite setConditionState_eq; by apply tidy_same
    | |- preserves _ (_hasAllowableInteractionStateForAction _) =>
        intros ?; rewrite gate_eq; by apply tidy_same
    | |- preserves _ (viewManagerCall _ _) => apply preserves_tidy_viewManagerCall
    | |- preserves _ (call _) =>
        apply preserves_modify; intros ?; by apply tidy_same
    | |- preserves _ (modify (setThrottled _)) =>
        apply preserves_modify; intros ?; by apply tidy_same
    | |- preserves _ (modify (setStates _)) =>
        apply preserves_modify; intros ?; by apply tidy_same
    | |- preserves _ (modify (setNow _)) =>
        apply preserves_modify; intros ?; by apply tidy_same
    | |- preserves _ (match ?x with _ => _ end) => destruct x
    | |- preserves _ (let _ := _ in _) => cbv zeta
    end.

Lemma preserves_tidy_triggerAction api ev : preserves tidy (_triggerAction api ev).
Proof. unfold _triggerAction. preserves_tidy. Qed.

Lemma preserves_tidy_executeUntriggerAction api :
  preserves tidy (_executeUntriggerAction api).
Proof. unfold _executeUntriggerAction. preserves_tidy. Qed.

Section TidyDebounce.
Variable func : CameraEvent → M unit.
Variable settings : Lodash.Settings.
Hypothesis func_tidy : ∀ ev, preserves tidy (func ev).

Lemma preserves_tidy_invokeFunc time :
  preserves tidy (Lodash.invokeFunc func time).
Proof using func_tidy. unfold Lodash.invokeFunc. preserves_tidy. apply func_tidy. Qed.

Lemma preserves_tidy_leadingEdge time :
  preserves tidy (Lodash.leadingEdge func settings time).
Proof using func_tidy.
  unfold Lodash.leadingEdge. preserves_tidy. apply preserves_tidy_invokeFunc.
Qed.

Lemma preserves_tidy_trailingEdge time :
  preserves tidy (Lodash.trailingEdge func settings time).
Proof using func_tidy.
  unfold Lodash.trailingEdge. preserves_tidy. apply preserves_tidy_invokeFunc.
Qed.

Lemma preserves_tidy_timerExpired :
  preserves tidy (Lodash.timerExpired func settings).
Proof using func_tidy.
  unfold Lodash.timerExpired. preserves_tidy. apply preserves_tidy_trailingEdge.
Qed.

Lemma preserves_tidy_debounced ev :
  preserves tidy (Lodash.debounced func settings ev).
Proof using func_tidy.
  unfold Lodash.debounced. preserves_tidy;
    solve [apply preserves_tidy_leadingEdge | apply preserves_tidy_invokeFunc].
Qed.
End TidyDebounce.

Lemma preserves_tidy_throttledTriggerAction api ev :
  preserves tidy (_throttledTriggerAction api ev).
Proof.
  unfold _throttledTriggerAction. preserves_tidy.
  apply preserves_tidy_debounced, preserves_tidy_triggerAction.
Qed.

(** *** What the dispatcher spares *)

#[global] Instance sparing_preorder : PreOrder sparing.
Proof.
  split.
  - intros w. split; auto.
  - intros w1 w2 w3 [Hh1 Hi1 Ht1] [Hh2 Hi2 Ht2]. split; [lia| |].
    + destruct Hi2 as [Hi2|[Hi2|(h & Hi2 & Hh)]].
      * rewrite Hi2. destruct Hi1 as [Hi1|[Hi1|(h & Hi1 & Hh)]]; auto.
        right. right. exists h. split; [done|lia].
      * auto.
      * right. right. exists h. split; [done|lia].
    + intros t Hin Hlt Hne. apply Ht2; [by apply Ht1|lia|].
      destruct Hi1 as [Hi1|[Hi1|(h & Hi1 & Hh)]]; rewrite Hi1; [done..|].
      intros [= ->]. lia.
Qed.

Lemma sparing_same w w' :
  timeouts w' = timeouts w → nextHandle w' = nextHandle w →
  timerId (throttled w') = timerId (throttled w) → sparing w w'.
Proof.
  intros Ht Hn Hi. split; [lia|by left|]. intros t Hin _ _. by rewrite Ht.
Qed.

Lemma preserves_sparing_viewManagerCall api c :
  preserves sparing (viewManagerCall api c).
Proof.
  intros w. unfold viewManagerCall.
  destruct (viewManagerThrows api c); by apply sparing_same.
Qed.

Lemma preserves_sparing_setTimeout cb delay :
  preserves sparing (setTimeout cb delay).
Proof.
  intros w. split; simpl; [lia|by left|].
  intros t Hin _ _. apply elem_of_app. by left.
Qed.

(** The throttle drops its handle. *)
Lemma preserves_sparing_disarm :
  preserves sparing (modify (setThrottled (Lodash.setTimerId None))).
Proof. intros w. split; simpl; [lia|by right; left|by intros]. Qed.

(** The throttle takes the handle of a timeout that it sets. *)
Lemma sparing_arm cb delay w :
  sparing w (setThrottled (Lodash.setTimerId (Some (nextHandle w)))
               (setTimeout cb delay w).2).
Proof.
  split; simpl; [lia| |].
  - right. right. exists (nextHandle w). split; [done|lia].
  - intros t Hin _ _. apply elem_of_app. by left.
Qed.

Lemma preserves_sparing_arm cb delay :
  preserves sparing
    (h ← setTimeout cb delay; modify (setThrottled (Lodash.setTimerId (Some h)))).
Proof. intros w. apply sparing_arm. Qed.

Lemma preserves_sparing_arm_then {B} cb delay (k : M B) :
  preserves sparing k →
  preserves sparing
    (h ← setTimeout cb delay;
     modify (setThrottled (Lodash.setTimerId (Some h)));; k).
Proof.
  intros Hk w. etrans; [apply (sparing_arm cb delay)|]. apply Hk.
Qed.

(** The throttle clears the timeout whose handle it holds. *)
Lemma sparing_clearOwn h w :
  timerId (throttled w) = Some h →
  sparing w (setTimeouts (filter (λ t, handle t ≠ h)) w).
Proof.
  intros Hid. split; simpl; [lia|by left|].
  intros t Hin _ Hne. apply list_elem_of_filter. split; [|done]. congruence.
Qed.

Ltac preserves_sparing :=
  repeat
    match goal with
    | |- PreOrder _ => apply _
    | |- preserves _ (mbind _ (setTimeout _ _)) =>
        first [apply preserves_sparing_arm_then | apply preserves_sparing_arm]
    | |- preserves _ (mbind _ _) => apply preserves_bind; [..|intros ?]
    | |- preserves _ (mret _) => apply preserves_ret
    | |- preserves _ get => apply preserves_get
    | |- preserves _ throw => apply preserves_throw
    | |- preserves _ (await _) => apply preserves_await
    | |- preserves _ (settle _) => apply preserves_settle
    | |- preserves _ _setConditionStateIfNecessary =>
        intros ?; rewrite setConditionState_eq; by apply sparing_same
    | |- preserves _ (_hasAllowableInteractionStateForAction _) =>
        intros ?; rewrite gate_eq; by apply sparing_same
    | |- preserves _ (viewManagerCall _ _) =>
        apply preserves_sparing_viewManagerCall
    | |- preserves _ (call _) =>
        apply preserves_modify; intros ?; by apply sparing_same
    | |- preserves _ (modify (setThrottled (Lodash.setTimerId None))) =>
        apply preserves_sparing_disarm
    | |- preserves _ (modify (setThrottled _)) =>
        apply preserves_modify; intros ?; by apply sparing_same
    | |- preserves _ (match ?x with _ => _ end) => destruct x
    | |- preserves _ (let _ := _ in _) => cbv zeta
    end.

Lemma preserves_sparing_triggerAction api ev :
  preserves sparing (_triggerAction api ev).
Proof. unfold _triggerAction. preserves_sparing. Qed.

Lemma preserves_sparing_executeUntriggerAction api :
  preserves sparing (_executeUntriggerAction api).
Proof. unfold _executeUntriggerAction. preserves_sparing. Qed.

Section SparingDebounce.
Variable func : CameraEvent → M unit.
Variable settings : Lodash.Settings.
Hypothesis func_sparing : ∀ ev, preserves sparing (func ev).

Lemma preserves_sparing_invokeFunc time :
  preserves sparing (Lodash.invokeFunc func time).
Proof using func_sparing.
  unfold Lodash.invokeFunc. preserves_sparing. apply func_sparing.
Qed.

Lemma preserves_sparing_leadingEdge time :
  preserves sparing (Lodash.leadingEdge func settings time).
Proof using func_sparing.
  unfold Lodash.leadingEdge. preserves_sparing.
  apply preserves_sparing_invokeFunc.
Qed.

Lemma preserves_sparing_trailingEdge time :
  preserves sparing (Lodash.trailingEdge func settings time).
Proof using func_sparing.
  unfold Lodash.trailingEdge. preserves_sparing.
  apply preserves_sparing_invokeFunc.
Qed.

Lemma preserves_sparing_timerExpired :
  preserves sparing (Lodash.timerExpired func settings).
Proof using func_sparing.
  unfold Lodash.timerExpired. preserves_sparing.
  - apply preserves_sparing_trailingEdge.
  - intros w. reflexivity.
Qed.
End SparingDebounce.

Section SparingDebounced.
Variable func : CameraEvent → M unit.
Variable settings : Lodash.Settings.
Hypothesis func_sparing : ∀ ev, preserves sparing (func ev).

Lemma preserves_sparing_debounced ev :
  preserves sparing (Lodash.debounced func settings ev).
Proof using func_sparing.
  intros w. unfold Lodash.debounced.
  rewrite bind_unfold. unfold get at 1. cbv zeta.
  rewrite bind_unfold. unfold modify at 1.
  rewrite bind_unfold. unfold modify at 1.
  rewrite bind_unfold. unfold get at 1.
  set (w1 := setThrottled (Lodash.setLastCallTime (now w))
               (setThrottled (Lodash.setLastArgs (Some ev)) w)).
  assert (sparing w w1) as H1 by by apply sparing_same.
  destruct (Lodash.shouldInvoke settings (now w) (throttled w));
    destruct (timerId (throttled w1)) as [h|] eqn:Hid;
    try destruct (Lodash.maxWait settings) as [mw|].
  - rewrite bind_unfold. unfold clearTimeout, modify at 1.
    etrans; [exact H1|]. etrans; [by apply (sparing_clearOwn h)|].
    apply preserves_sparing_arm_then.
    by apply preserves_sparing_invokeFunc.
  - done.
  - etrans; [exact H1|]. by apply preserves_sparing_leadingEdge.
  - etrans; [exact H1|]. by apply preserves_sparing_leadingEdge.
  - done.
  - done.
  - etrans; [exact H1|]. apply preserves_sparing_arm_then.
    intros w2. reflexivity.
  - etrans; [exact H1|]. apply preserves_sparing_arm_then.
    intros w2. reflexivity.
Qed.
End SparingDebounced.

Lemma preserves_sparing_throttledTriggerAction api ev :
  preserves sparing (_throttledTriggerAction api ev).
Proof.
  unfold _throttledTriggerAction. preserves_sparing.
  apply preserves_sparing_debounced, preserves_sparing_triggerAction.
Qed.

(** *** The invariant, operation by operation *)

Lemma sound_initialWorld t : timersSound (initialWorld t).
Proof.
  split.
  - intros t' Hin. by apply not_elem_of_nil in Hin.
  - intros t1 t2 Hin. by apply not_elem_of_nil in Hin.
  - by intros h.
  - intros c st tm. simpl. by rewrite lookup_empty.
Qed.

Lemma sound_same w w' :
  states w' = states w → timeouts w' = timeouts w →
  nextHandle w' = nextHandle w →
  timerId (throttled w') = timerId (throttled w) →
  timersSound w → timersSound w'.
Proof.
  intros Hs Ht Hn Hi [Hb Hd Ho Ha].
  split; unfold handlesBounded, handlesDistinct, throttleOwn, armed;
    by rewrite ?Hs, ?Ht, ?Hn, ?Hi.
Qed.

Lemma sound_setStates f w :
  (∀ c st tm, f (states w) !! c = Some st → untriggerDelayTimer st = Some tm →
     ∃ st0, states w !! c = Some st0 ∧ untriggerDelayTimer st0 = Some tm) →
  timersSound w → timersSound (setStates f w).
Proof.
  intros Hf [Hb Hd Ho Ha]. split; [done..|].
  intros c st tm Hst Htm. simpl in *.
  destruct (Hf c st tm Hst Htm) as (st0 & Hst0 & Htm0).
  by apply (Ha c st0).
Qed.

Lemma sound_alter g c w :
  (∀ st, untriggerDelayTimer (g st) = untriggerDelayTimer st
         ∨ untriggerDelayTimer (g st) = None) →
  timersSound w → timersSound (setStates (alter g c) w).
Proof.
  intros Hg. apply sound_setStates. intros c' st tm.
  rewrite lookup_alter. case_decide; [|eauto]. subst c'.
  destruct (states w !! c) as [st0|]; [|done]. simpl. intros [= <-] Htm.
  exists st0. split; [done|]. destruct (Hg st0); congruence.
Qed.

Lemma sound_delete c w : timersSound w → timersSound (setStates (delete c) w).
Proof.
  apply sound_setStates. intros c' st tm.
  rewrite lookup_delete. case_decide; [done|eauto].
Qed.

Lemma sound_touch ev w : timersSound w → timersSound (touch ev w).
Proof.
  intros H. unfold touch. apply sound_alter; [by left|].
  apply sound_setStates; [|done]. intros c st tm.
  destruct (states w !! cameraID ev) as [st0|] eqn:Hst0.
  - rewrite lookup_alter. case_decide; [|eauto]. subst c. rewrite Hst0.
    simpl. intros [= <-] Htm. by exists st0.
  - rewrite lookup_insert. case_decide; [|eauto]. by intros [= <-].
Qed.

Lemma sound_cancelUntrigger c w :
  timersSound w → timersSound (cancelUntrigger c w).
Proof.
  intros [Hb Hd Ho Ha]. unfold cancelUntrigger.
  destruct (states w !! c) as [st|] eqn:Hst; [|done]. simpl.
  destruct (untriggerDelayTimer st) as [tm|] eqn:Htm; [|done]. simpl.
  split.
  - intros t [_ Hin]%list_elem_of_filter. by apply Hb.
  - intros t t' [_ Hin]%list_elem_of_filter [_ Hin']%list_elem_of_filter.
    by apply Hd.
  - intros h Hid. destruct (Ho h Hid) as [Hlt Hcb]. split; [done|].
    intros t [_ Hin]%list_elem_of_filter. by apply Hcb.
  - intros c' st' tm'. simpl. rewrite lookup_alter. case_decide.
    { subst c'. rewrite Hst. simpl. by intros [= <-]. }
    intros Hst' Htm'.
    destruct (Ha c' st' tm' Hst' Htm') as (t' & Hin' & Hh' & Hcb').
    exists t'. split; [|done]. apply list_elem_of_filter. split; [|done].
    intros Heq. destruct (Ha c st tm Hst Htm) as (t & Hin & Hh & Hcb).
    assert (t' = t) as -> by (apply Hd; [done..|congruence]).
    congruence.
Qed.

Lemma sound_acceptNew ev w : timersSound w → timersSound (acceptNew ev w).
Proof.
  intros H. unfold acceptNew, publish.
  apply (sound_same (cancelUntrigger (cameraID ev) (touch ev w))); [done..|].
  by apply sound_cancelUntrigger, sound_touch.
Qed.

Lemma sound_startTimer c seconds w :
  timersSound w → timersSound (startTimer c seconds w).
Proof.
  intros [Hb Hd Ho Ha].
  pose proof (preserves_tidy_setTimeout (CbUntrigger c) (seconds * 1000) w Hb Hd)
    as [Hb' Hd'].
  split; [done..| |].
  - intros h Hid. destruct (Ho h Hid) as [Hlt Hcb]. simpl. split; [lia|].
    intros t [Hin|Hin]%elem_of_app Hh; [by apply Hcb|].
    apply list_elem_of_singleton in Hin. subst t. simpl in Hh. lia.
  - intros c' st' tm'. simpl. rewrite lookup_alter. case_decide.
    + subst c'. destruct (states w !! c) as [st|]; [|done]. simpl.
      intros [= <-] [= <-].
      exists (mkTimeout (nextHandle w) (now w + seconds * 1000) (CbUntrigger c)).
      split; [|done]. apply elem_of_app. right.
      by apply list_elem_of_singleton.
    + intros Hst' Htm'.
      destruct (Ha c' st' tm' Hst' Htm') as (t' & Hin' & Hh' & Hcb').
      exists t'. split; [|done]. apply elem_of_app. by left.
Qed.

(** The dispatcher side keeps the invariant. *)
Lemma sound_dispatch w w' :
  quiet w w' → sparing w w' → tidy w w' → timersSound w → timersSound w'.
Proof.
  intros [Hst _ _ Hqt _] [Hh Hi Ht] Htidy [Hb Hd Ho Ha].
  destruct (Htidy Hb Hd) as [Hb' Hd']. split; [done..| |].
  - intros h Hid.
    destruct Hi as [Hi|[Hi|(h' & Hi & Hh')]]; [|congruence|].
    + rewrite Hi in Hid. destruct (Ho h Hid) as [Hlt Hcb]. split; [lia|].
      intros t Hin Heq. destruct (Hqt t Hin) as [Hold|[Hcb' _]]; [|done].
      by apply Hcb.
    + assert (h' = h) as -> by congruence. split; [lia|].
      intros t Hin Heq. destruct (Hqt t Hin) as [Hold|[Hcb' _]]; [|done].
      specialize (Hb t Hold). lia.
  - intros c st tm. rewrite Hst. intros Hc Htm.
    destruct (Ha c st tm Hc Htm) as (t & Hin & Heq & Hcb).
    exists t. split; [|done]. apply Ht; [done|by apply Hb|].
    intros Hid. destruct (Ho _ Hid) as [_ Hown].
    specialize (Hown t Hin eq_refl). congruence.
Qed.

Lemma sound_executeUntriggerAction api w :
  timersSound w → timersSound (_executeUntriggerAction api w).2.
Proof.
  apply sound_dispatch.
  - apply executeUntriggerAction_quiet.
  - apply preserves_sparing_executeUntriggerAction.
  - apply preserves_tidy_executeUntriggerAction.
Qed.

Lemma sound_timerExpired api w :
  timersSound w →
  timersSound (Lodash.timerExpired (_triggerAction api) throttleSettings w).2.
Proof.
  apply sound_dispatch.
  - apply timerExpired_quiet.
  - apply preserves_sparing_timerExpired, preserves_sparing_triggerAction.
  - apply preserves_tidy_timerExpired, preserves_tidy_triggerAction.
Qed.

Lemma sound_throttledTriggerAction api ev w :
  timersSound w → timersSound (_throttledTriggerAction api ev w).2.
Proof.
  intros H.
  apply (sound_dispatch (record (ThrottledTriggerActionCall ev) w)).
  - apply throttledTriggerAction_quiet.
  - etrans; [|apply preserves_sparing_throttledTriggerAction].
    by apply sparing_same.
  - etrans; [|apply preserves_tidy_throttledTriggerAction].
    by apply tidy_same.
  - by apply (sound_same w).
Qed.

Lemma sound_untriggerAction api c w :
  timersSound w → timersSound (_untriggerAction api c w).2.
Proof.
  intros H. rewrite untriggerAction_eq.
  pose proof (sound_executeUntriggerAction api _ (sound_cancelUntrigger c w H))
    as H1.
  destruct (_executeUntriggerAction api (cancelUntrigger c w)) as [[r|] w1];
    simpl in *; [|done].
  apply (sound_same (setStates (delete c) w1)); [done..|].
  by apply sound_delete.
Qed.

Lemma sound_startUntrigger api c w :
  timersSound w → timersSound (_startUntrigger api c w).2.
Proof.
  intros H. rewrite startUntrigger_eq.
  pose proof (sound_cancelUntrigger c w H) as H1.
  destruct (states (cancelUntrigger c w) !! c); [|done].
  destruct (Qlt_bool 0 (untriggerSeconds api)).
  - by apply sound_startTimer.
  - by apply sound_untriggerAction.
Qed.

Lemma sound_handleCameraEvent api ev skipAction w :
  timersSound w → timersSound (handleCameraEvent api ev skipAction w).2.
Proof.
  intros H. destruct (decide (type ev = EvEnd)) as [Hty|Hty].
  - rewrite handleCameraEvent_end_eq by done. cbv zeta.
    assert (timersSound
              (setStates (alter (deleteSource (id ev)) (cameraID ev)) w))
      as H1 by (apply sound_alter; [by left|done]).
    destruct (sourcesExhausted _ _); [|done].
    pose proof (sound_startUntrigger api (cameraID ev) _ H1) as H2.
    by destruct (_startUntrigger _ _ _) as [[[]|] w'].
  - destruct (accepts api (cameraID ev)) eqn:Hacc.
    + rewrite handleCameraEvent_new_eq by done.
      pose proof (sound_acceptNew ev w H) as H1.
      destruct skipAction; [done|].
      pose proof (sound_throttledTriggerAction api ev _ H1) as H2.
      by destruct (_throttledTriggerAction _ _ _) as [[[]|] w'].
    + by rewrite handleCameraEvent_rejected.
Qed.

Lemma sound_foldl_acceptNew evs w :
  timersSound w → timersSound (foldl (λ w ev, acceptNew ev w) w evs).
Proof.
  revert w. induction evs as [|ev evs IH]; intros w H; simpl; [done|].
  by apply IH, sound_acceptNew.
Qed.

Lemma sound_handleInitialCameraTriggers isTriggeredState api w :
  timersSound w →
  timersSound (handleInitialCameraTriggers isTriggeredState api w).2.
Proof.
  intros H. rewrite handleInitialCameraTriggers_eq. cbv zeta.
  pose proof (sound_foldl_acceptNew
    (acceptedEvents api (synthesized isTriggeredState api)) w H) as H1.
  destruct (head _) as [ev|]; [|done].
  pose proof (sound_throttledTriggerAction api ev _ H1) as H2.
  by destruct (_throttledTriggerAction _ _ _) as [[[]|] w'].
Qed.

Lemma filter_handle_idemp h (l : list Timeout) :
  filter (λ t, handle t ≠ h) (filter (λ t, handle t ≠ h) l)
  = filter (λ t, handle t ≠ h) l.
Proof.
  induction l as [|t l IH]; [done|].
  rewrite (filter_cons _ t l). destruct (decide (handle t ≠ h)) as [Hne|Heq].
  - rewrite filter_cons, decide_True by done. by rewrite IH.
  - done.
Qed.

(** The callback of an expired grace timeout finds the timer of its
    camera as it was when the timeout was pending. *)
Lemma untriggerAction_expired api c h t w :
  coherent w → t ∈ timeouts w → handle t = h → callback t = CbUntrigger c →
  _untriggerAction api c (setTimeouts (filter (λ t, handle t ≠ h)) w)
  = _untriggerAction api c w.
Proof.
  intros Hco Hin Hh Hcb. rewrite !untriggerAction_eq.
  destruct (Hco t c Hin Hcb) as (st & Hst & Htm & _).
  assert (cancelUntrigger c (setTimeouts (filter (λ t, handle t ≠ h)) w)
          = cancelUntrigger c w) as ->; [|done].
  unfold cancelUntrigger. simpl. rewrite Hst. simpl. rewrite Htm. simpl.
  unfold setStates, setTimeouts. simpl. rewrite Hh.
  by rewrite filter_handle_idemp.
Qed.

Lemma sound_fireTimeout api h w :
  coherent w → timersSound w → timersSound (fireTimeout api h w).2.
Proof.
  intros Hco H. rewrite fireTimeout_eq.
  destruct (List.find _ _) as [t|] eqn:Hfind; [|done].
  destruct (Qle_bool _ _); [|done].
  apply find_handle_elem_of in Hfind as [Hin Hh].
  destruct (callback t) as [c|] eqn:Hcb; simpl.
  - rewrite (untriggerAction_expired api c h t) by done.
    by apply sound_untriggerAction.
  - apply sound_timerExpired. destruct H as [Hb Hd Ho Ha].
    destruct (tidy_clearTimeout h w Hb Hd) as [Hb' Hd']. split; [done..| |].
    + intros h' Hid. destruct (Ho h' Hid) as [Hlt Hown]. split; [done|].
      intros t' [_ Hin']%list_elem_of_filter. by apply Hown.
    + intros c st tm Hst Htm.
      destruct (Ha c st tm Hst Htm) as (t' & Hin' & Hh' & Hcb').
      exists t'. split; [|done]. apply list_elem_of_filter. split; [|done].
      intros Heq. assert (t' = t) as -> by (apply Hd; [done..|congruence]).
      congruence.
Qed.

Lemma sound_step isTriggeredState api op w :
  coherent w → timersSound w → timersSound (step isTriggeredState api op w).
Proof.
  intros Hco H. destruct op as [ev skip| |h|t].
  - rewrite step_cameraEvent. by apply sound_handleCameraEvent.
  - rewrite step_initialCameraTriggers.
    by apply sound_handleInitialCameraTriggers.
  - rewrite step_timeout. by apply sound_fireTimeout.
  - rewrite step_advance. destruct (Qle_bool _ _); [|done].
    by apply (sound_same w).
Qed.

Lemma reachable_sound isTriggeredState w :
  reachable isTriggeredState w → timersSound w.
Proof.
  induction 1 as [t|api op w Hw IH].
  - apply sound_initialWorld.
  - apply sound_step; [|done]. by apply (reachable_coherent isTriggeredState).
Qed.

Lemma find_handle_distinct (l : list Timeout) t :
  (∀ t', t' ∈ l → handle t' = handle t → t' = t) → t ∈ l →
  List.find (λ t', bool_decide (handle t' = handle t)) l = Some t.
Proof.
  intros Hd Hin. destruct (List.find _ l) as [t0|] eqn:Hfind.
  - apply find_handle_elem_of in Hfind as [Hin0 Hh0]. f_equal. by apply Hd.
  - pose proof (find_none _ _ Hfind t) as Hnone. simpl in Hnone.
    rewrite bool_decide_eq_true_2 in Hnone by done.
    by discriminate Hnone; apply list_elem_of_In.
Qed.

(** X19. The grace timers of the store and the pending untrigger
    timeouts correspond one to one in a fresh manager, and every
    operation that runs to its end with no other operation in between
    keeps it so: afterwards a state that holds a timer has no active
    source, exactly one pending timeout has the handle of the timer and
    it untriggers the camera of that state; every pending untrigger
    timeout is the timer in the state of its camera; and the handle that
    the throttle holds is not the handle of an untrigger timeout.
    Operations that overlap do not keep it: when the [end] event of a
    camera is delivered while the untrigger action of that camera awaits
    its navigation, a grace timer is started that is left pending
    without a state once the untrigger action resumes. *)
Theorem grace_timers_kept_by_operations :
  (∀ t, coherent (initialWorld t) ∧ timersSound (initialWorld t))
  ∧ (∀ isTriggeredState api op w,
       coherent w → timersSound w →
       let w' := step isTriggeredState api op w in
       coherent w' ∧ timersSound w'
       ∧ ∀ c state timer, states w' !! c = Some state →
           untriggerDelayTimer state = Some timer →
           sources state = ∅
           ∧ ∃ t, List.find (λ t, bool_decide (handle t = timeoutHandle timer))
                    (timeouts w') = Some t
                  ∧ callback t = CbUntrigger c
                  ∧ ∀ t', t' ∈ timeouts w' →
                      handle t' = timeoutHandle timer → t' = t)
  ∧ (reachableOverlapping sampleIsTriggeredState afterOverlap []
     ∧ ∃ t, t ∈ timeouts afterOverlap
            ∧ callback t = CbUntrigger "camera_1"
            ∧ states afterOverlap !! "camera_1" = None).
Proof.
  split; [|split].
  - intros t. split; [|apply sound_initialWorld].
    intros t' c Hin. by apply not_elem_of_nil in Hin.
  - intros isTriggeredState api op w Hco Hsound w'.
    pose proof (coherent_step isTriggeredState api op w Hco) as Hco'.
    pose proof (sound_step isTriggeredState api op w Hco Hsound) as Hsound'.
    fold w' in Hco', Hsound'. split; [done|]. split; [done|].
    destruct Hsound' as [Hb Hd Ho Ha].
    intros c st tm Hst Htm.
    destruct (Ha c st tm Hst Htm) as (t & Hin & Hh & Hcb).
    destruct (Hco' t c Hin Hcb) as (st' & Hst' & _ & Hsrc).
    assert (st' = st) as -> by congruence. split; [done|].
    assert (∀ t', t' ∈ timeouts w' → handle t' = handle t → t' = t) as Hu
      by (intros t' Hin' Hh'; by apply Hd).
    exists t. rewrite <- Hh. split; [by apply find_handle_distinct|done].
  - split; [apply afterOverlap_reachable|].
    exists (mkTimeout 2 21000 (CbUntrigger "camera_1")).
    rewrite afterOverlap_timeouts, afterOverlap_states.
    split; [constructor 2; constructor 1|done].
Qed.

(** X20. A grace period ends.  In a world reached from a fresh manager,
    once the clock has reached the time at which the timeout of the
    grace timer of a camera is due, the expiry of this timeout removes
    the state of the camera, and of no other camera, from the store,
    provided the view manager does not throw: the camera is no longer
    triggered and the timeout is no longer pending. *)
Theorem grace_period_ends isTriggeredState api c state timer t T w :
  reachable isTriggeredState w →
  states w !! c = Some state →
  untriggerDelayTimer state = Some timer →
  t ∈ timeouts w → handle t = timeoutHandle timer →
  (now w <= T)%Q → (due t <= T)%Q →
  viewManagerThrows api (SetViewDefault None) = false →
  let w' := step isTriggeredState api (OpTimeout (timeoutHandle timer))
              (step isTriggeredState api (OpAdvance T) w) in
  states w' = delete c (states w)
  ∧ (c ∉ getTriggeredCameraIDs w')
  ∧ ¬ pending (timeoutHandle timer) w'
  ∧ now w' = T.
Proof.
  intros Hreach Hst Htm Hin Hh Hnow Hdue Hok w'.
  destruct (reachable_sound _ _ Hreach) as [Hb Hd Ho Ha].
  destruct (Ha c state timer Hst Htm) as (t0 & Hin0 & Hh0 & Hcb0).
  assert (t0 = t) as -> by (apply Hd; [done..|congruence]).
  set (w1 := setNow T w).
  set (w0 := setTimeouts (filter (λ t, handle t ≠ timeoutHandle timer)) w1).
  assert (w' = untriggered api c w0) as ->.
  { unfold w'. rewrite step_advance. apply Qle_bool_iff in Hnow.
    rewrite Hnow. fold w1. rewrite step_timeout, fireTimeout_eq.
    change (timeouts w1) with (timeouts w). rewrite <- Hh.
    rewrite find_handle_distinct; [|by intros t' Hin' Hh'; apply Hd|done].
    change (now w1) with T. apply Qle_bool_iff in Hdue. rewrite Hdue, Hcb0.
    simpl. rewrite Hh. fold w0. by rewrite untriggerAction_effect. }
  split; [by rewrite untriggered_states|].
  split; [apply untriggered_not_triggered|]. split.
  - intros (t' & Hin'%untriggered_timeouts & Hh'). unfold w0 in Hin'.
    simpl in Hin'. apply list_elem_of_filter in Hin'. tauto.
  - unfold untriggered. simpl. by rewrite cancelUntrigger_now.
Qed.

(** X20 on the grace period of camera 1, which ends at time 11000. *)
Lemma grace_period_ends_witness :
  let w' := step sampleIsTriggeredState (graceApi false) (OpTimeout 1)
              (step sampleIsTriggeredState (graceApi false) (OpAdvance 11000)
                 graceWorld) in
  states w' = ∅ ∧ now w' = 11000%Q.
Proof.
  destruct (grace_period_ends sampleIsTriggeredState (graceApi false)
              "camera_1" (mkState 0 ∅ (Some (mkTimer 1))) (mkTimer 1)
              (mkTimeout 1 11000 (CbUntrigger "camera_1")) 11000 graceWorld)
    as (H1 & _ & _ & H2).
  - apply graceWorld_reachable.
  - by vm_compute.
  - reflexivity.
  - rewrite graceWorld_timeouts. constructor 2. constructor 1.
  - reflexivity.
  - vm_compute. discriminate.
  - vm_compute. discriminate.
  - reflexivity.
  - split; [|exact H2]. etrans; [exact H1|]. vm_compute. reflexivity.
Defined.
